(** * Half-life regression sidecar

    A shallow embedding of [services/hlr-sidecar/main.py]: the clipping
    helpers [pclip] and [hclip], and the class [HLRModel] with its methods
    [halflife], [predict], [train_update], [get_weights] and [load_weights],
    and the module-level part of the service: the settings, the global model
    and the request handlers.

    Python's [float] is IEEE 754 binary64; it is modelled by Rocq's primitive
    [float], whose [+ - * /] and [sqrt] are the same correctly rounded
    operations.  What the interpreter adds on top of the hardware operations
    (exceptions on division by zero, the special cases of [**], the argument
    checks of the [math] module, the two-argument [min] and [max]) is written
    out in the module [Py].  Two things below the program are not fixed by
    the repository: the transcendental functions of the C library ([pow]
    and [log2]), and the version of the interpreter, on which the rounding
    of the builtin [sum] depends.  The model takes them as a parameter of
    type [Libm], and the theorems hold for every value of it. *)

From Stdlib Require Import ssreflect ZArith NArith Floats Bool List Lia.
From stdpp Require Import base gmap strings list fin_maps pretty.

Local Open Scope general_if_scope.

Set Warnings "-inexact-float".

(** ** The Python runtime the program relies on *)

Module Py.

(** The exceptions this program can meet. *)
Inductive exn : Set :=
| ZeroDivisionError
| OverflowError
| ValueError
| TypeError.

Inductive result (A : Type) : Type :=
| Ok (a : A)
| Raise (e : exn).
Arguments Ok {A} a.
Arguments Raise {A} e.

(** What the repository leaves to the platform: the C library functions
    reached by [**] and [math.log2], and whether the builtin [sum] adds
    floats with compensation (CPython 3.12 and later) or one after the other
    (up to CPython 3.11). *)
Record Libm : Type := {
  libm_pow : float -> float -> float;
  libm_log2 : float -> float;
  sum_compensated : bool
}.

(** [x / y] on floats: Python raises where IEEE returns an infinity or NaN. *)
Definition truediv (x y : float) : result float :=
  if (y =? 0)%float then Raise ZeroDivisionError else Ok (x / y)%float.

(** The builtins [max(a, b)] and [min(a, b)]: the first argument is kept
    unless the second compares strictly greater (smaller).  A NaN compares
    false with everything, so a NaN first argument is kept and a NaN second
    argument is dropped. *)
Definition max (a b : float) : float := if (a <? b)%float then b else a.
Definition min (a b : float) : float := if (b <? a)%float then b else a.

(** The value of a float when it is an integer ([None] for fractions,
    infinities and NaN). *)
Definition integer_value (x : float) : option Z :=
  match Prim2SF x with
  | S754_zero _ => Some 0%Z
  | S754_finite s m e =>
      let n :=
        match e with
        | Z0 => Some (Zpos m)
        | Zpos _ => Some (Z.shiftl (Zpos m) e)
        | Zneg k =>
            let q := Z.shiftr (Zpos m) (Zpos k) in
            if (Z.shiftl q (Zpos k) =? Zpos m)%Z then Some q else None
        end in
      option_map (fun n => if s then Z.opp n else n) n
  | _ => None
  end.

(** [iw == floor(iw)] for a finite [iw]. *)
Definition is_integral (x : float) : bool :=
  match integer_value x with Some _ => true | None => false end.

(** CPython's [DOUBLE_IS_ODD_INTEGER]. *)
Definition is_odd_integer (x : float) : bool :=
  match integer_value x with Some n => Z.odd n | None => false end.

(** [x ** y] on floats, after CPython's [float_pow]: the special cases are
    decided by the interpreter, the remaining case (a finite positive base
    other than one, a finite non-zero exponent) goes to the C library, and an
    infinite result there is reported as [OverflowError].  A negative base
    with a fractional exponent goes to the complex power, which takes the
    modulus [pow(|iv|, iw)] from the C library and multiplies it by the
    cosine and by the sine of the argument: when the modulus is infinite a
    component of the result is, and CPython raises [OverflowError];
    otherwise the result is a complex number, every use in this program
    then compares it with a float, which raises [TypeError], and that case
    is folded into [Raise TypeError]. *)
Definition float_pow (L : Libm) (iv iw : float) : result float :=
  if (iw =? 0)%float then Ok 1%float
  else if is_nan iv then Ok iv
  else if is_nan iw then Ok (if (iv =? 1)%float then 1%float else iw)
  else if is_infinity iw then
    let av := abs iv in
    if (av =? 1)%float then Ok 1%float
    else if Bool.eqb (0 <? iw)%float (1 <? av)%float then Ok (abs iw)
    else Ok 0%float
  else if is_infinity iv then
    let odd := is_odd_integer iw in
    if (0 <? iw)%float then Ok (if odd then iv else abs iv)
    else Ok (if odd then (if (iv <? 0)%float then (-0)%float else 0%float)
             else 0%float)
  else if (iv =? 0)%float then
    if (iw <? 0)%float then Raise ZeroDivisionError
    else Ok (if is_odd_integer iw then iv else 0%float)
  else if (iv <? 0)%float && negb (is_integral iw) then
    if is_infinity (libm_pow L (- iv)%float iw) then Raise OverflowError
    else Raise TypeError
  else
    let negate_result := (iv <? 0)%float && is_odd_integer iw in
    let av := if (iv <? 0)%float then (- iv)%float else iv in
    if (av =? 1)%float then Ok (if negate_result then (-1)%float else 1%float)
    else
      let ix := libm_pow L av iw in
      if is_infinity ix then Raise OverflowError
      else Ok (if negate_result then (- ix)%float else ix).

(** The builtin [sum] on floats, from its start value, the integer [0]: the
    first float is added to the start value.  Up to CPython 3.11 the others
    are then added one after the other.  From CPython 3.12 on, [sum] carries
    a compensation [c] for the rounding errors of these additions
    (Neumaier's algorithm) and adds it at the end when it is finite and not
    zero.  The sum of no float at all is the start value, which [**] takes
    as [0.0]. *)
Fixpoint neumaier (xs : list float) (total c : float) : float :=
  match xs with
  | [] => if negb (c =? 0)%float && is_finite c then (total + c)%float else total
  | x :: rest =>
      let t := (total + x)%float in
      let c' :=
        if (abs x <=? abs total)%float then (c + ((total - t) + x))%float
        else (c + ((x - t) + total))%float in
      neumaier rest t c'
  end.

Definition builtin_sum (L : Libm) (xs : list float) : float :=
  if sum_compensated L then
    match xs with
    | [] => 0%float
    | x :: rest => neumaier rest (0 + x)%float 0%float
    end
  else fold_left PrimFloat.add xs 0%float.

(** [math.log2 x]: CPython's [m_log2] followed by the checks of [math_1]. *)
Definition m_log2 (L : Libm) (x : float) : float :=
  if is_nan x then x
  else if is_infinity x then (if (0 <? x)%float then x else nan)
  else if (0 <? x)%float then libm_log2 L x
  else if (x =? 0)%float then neg_infinity
  else nan.

Definition math_1 (f : float -> float) (x : float) : result float :=
  let r := f x in
  if is_nan r && negb (is_nan x) then Raise ValueError
  else if is_infinity r && is_finite x then Raise ValueError
  else Ok r.

Definition math_log2 (L : Libm) (x : float) : result float :=
  math_1 (m_log2 L) x.

(** Conversion of a (non-negative) [int] to a float, as [math.sqrt] does
    with an integer argument: round to nearest even, [OverflowError] when the
    value rounds past the largest double. *)
Definition int_to_float (n : N) : result float :=
  match binary_normalize prec emax (Z.of_N n) 0 false with
  | S754_infinity _ => Raise OverflowError
  | sf => Ok (SF2Prim sf)
  end.

Definition math_sqrt_int (n : N) : result float :=
  match int_to_float n with
  | Ok x => math_1 PrimFloat.sqrt x
  | Raise e => Raise e
  end.

End Py.
Export Py.

(** ** A state and exception monad

    A method of [HLRModel] runs on the model [S], may change it, and either
    returns or raises; what it changed before raising stays changed. *)

Definition M (S A : Type) : Type := S -> result A * S.

Definition ret {S A} (a : A) : M S A := fun s => (Ok a, s).

Definition bind {S A B} (c : M S A) (k : A -> M S B) : M S B :=
  fun s =>
    match c s with
    | (Ok a, s') => k a s'
    | (Raise e, s') => (Raise e, s')
    end.

Definition lift {S A} (r : result A) : M S A := fun s => (r, s).

(** [try: body  except handled: handler]. *)
Definition try_except {S A} (body : M S A) (handled : exn -> bool)
    (handler : M S A) : M S A :=
  fun s =>
    match body s with
    | (Raise e, s') => if handled e then handler s' else (Raise e, s')
    | r => r
    end.

(** [for a in l: body a]. *)
Fixpoint for_each {S A} (l : list A) (body : A -> M S unit) : M S unit :=
  match l with
  | [] => ret tt
  | a :: l' => bind (body a) (fun _ => for_each l' body)
  end.

Global Instance M_ret {S} : MRet (M S) := fun A a => ret a.
Global Instance M_bind {S} : MBind (M S) := fun A B k c => bind c k.

(** ** HLR core algorithm *)

Definition MIN_HALF_LIFE : float := (15.0 / (24 * 60))%float.
Definition MAX_HALF_LIFE : float := 274.0%float.
(** [math.log(2.0)], the double nearest to the natural logarithm of two. *)
Definition LN2 : float := 0.6931471805599453%float.

Definition pclip (p : float) : float :=
  Py.min (Py.max p 0.0001%float) 0.9999%float.

Definition hclip (h : float) : float :=
  Py.min (Py.max h MIN_HALF_LIFE) MAX_HALF_LIFE.

(** [self.weights] and [self.fcounts] are [defaultdict]s; the counts start at
    zero and are only ever incremented, hence [N]. *)
Record HLRModel : Type := {
  omit_h_term : bool;
  weights : gmap string float;
  fcounts : gmap string N;
  lrate : float;
  hlwt : float;
  l2wt : float;
  sigma : float
}.

Definition set_weights (w : gmap string float) (m : HLRModel) : HLRModel :=
  {| omit_h_term := omit_h_term m; weights := w; fcounts := fcounts m;
     lrate := lrate m; hlwt := hlwt m; l2wt := l2wt m; sigma := sigma m |}.

Definition set_fcounts (c : gmap string N) (m : HLRModel) : HLRModel :=
  {| omit_h_term := omit_h_term m; weights := weights m; fcounts := c;
     lrate := lrate m; hlwt := hlwt m; l2wt := l2wt m; sigma := sigma m |}.

(** [HLRModel.__init__]. *)
Definition HLRModel_init (initial_weights : option (gmap string float))
    (omit : bool) (lr hl l2 sg : float) : HLRModel :=
  {| omit_h_term := omit;
     weights := match initial_weights with
                | Some w => w ∪ ∅
                | None => ∅
                end;
     fcounts := ∅;
     lrate := lr; hlwt := hl; l2wt := l2; sigma := sg |}.

(** [get_model()] on first use, with the defaults of [Settings]. *)
Definition default_model : HLRModel :=
  HLRModel_init None false 0.001%float 0.01%float 0.1%float 1.0%float.

(** [d[k]] on a [defaultdict]: a missing key is inserted with the default
    value before it is returned. *)
Definition defaultdict_getitem {V} (dflt : V) (k : string) (d : gmap string V)
    : V * gmap string V :=
  match d !! k with
  | Some v => (v, d)
  | None => (dflt, <[k := dflt]> d)
  end.

(** [self.weights[k]] *)
Definition weights_getitem (k : string) : M HLRModel float :=
  fun m =>
    let '(v, d) := defaultdict_getitem 0%float k (weights m) in
    (Ok v, set_weights d m).

(** [self.weights[k] = v] *)
Definition weights_setitem (k : string) (v : float) : M HLRModel unit :=
  fun m => (Ok tt, set_weights (<[k := v]> (weights m)) m).

(** [self.fcounts[k]] *)
Definition fcounts_getitem (k : string) : M HLRModel N :=
  fun m =>
    let '(v, d) := defaultdict_getitem 0%N k (fcounts m) in
    (Ok v, set_fcounts d m).

(** [self.fcounts[k] = v] *)
Definition fcounts_setitem (k : string) (v : N) : M HLRModel unit :=
  fun m => (Ok tt, set_fcounts (<[k := v]> (fcounts m)) m).

Definition get_field {A} (f : HLRModel -> A) : M HLRModel A :=
  fun m => (Ok (f m), m).

(** The generator [self.weights[k] * x_k for k, x_k in features]: the
    products in the order of the vector, each one after a read of the
    [defaultdict]. *)
Fixpoint read_products (features : list (string * float))
    : M HLRModel (list float) :=
  match features with
  | [] => ret []
  | (k, x_k) :: rest =>
      w ← weights_getitem k;
      ps ← read_products rest;
      ret ((w * x_k)%float :: ps)
  end.

(** [sum(self.weights[k] * x_k for k, x_k in features)].  [sum] draws the
    products one by one; adding them neither reads nor changes the model,
    so the sum is taken here once they are all drawn. *)
Definition sum_products (L : Libm) (features : list (string * float))
    : M HLRModel float :=
  ps ← read_products features;
  ret (builtin_sum L ps).

Definition handled_by_halflife (e : exn) : bool :=
  match e with
  | OverflowError | ValueError => true
  | _ => false
  end.

Definition halflife (L : Libm) (features : list (string * float))
    (base : float) : M HLRModel float :=
  try_except
    (dp ← sum_products L features;
     r ← lift (float_pow L base dp);
     ret (hclip r))
    handled_by_halflife
    (ret MAX_HALF_LIFE).

Definition predict (L : Libm) (features : list (string * float))
    (delta_days : float) (base : float) : M HLRModel (float * float) :=
  h ← halflife L features base;
  q ← lift (truediv (- delta_days)%float h);
  p ← lift (float_pow L 2.0%float q);
  ret (pclip p, h).

(** The body of the loop of [train_update]. *)
Definition train_step (L : Libm) (actual_recall dlp_dw dlh_dw : float)
    (kx : string * float) : M HLRModel unit :=
  let '(k, x_k) := kx in
  a ← lift (truediv 1.0%float (1.0 + actual_recall)%float);
  lr ← get_field lrate;
  c ← fcounts_getitem k;
  s ← lift (math_sqrt_int (1 + c));
  rate ← lift (truediv (a * lr)%float s);
  (* sl(p) update *)
  w ← weights_getitem k;
  weights_setitem k (w - rate * dlp_dw * x_k)%float;;
  (* sl(h) update *)
  omit ← get_field omit_h_term;
  (if omit : bool then ret tt : M HLRModel unit
   else
     w ← weights_getitem k;
     hl ← get_field hlwt;
     weights_setitem k (w - rate * hl * dlh_dw * x_k)%float);;
  (* L2 regularization update *)
  w ← weights_getitem k;
  l2 ← get_field l2wt;
  w' ← weights_getitem k;
  sg ← get_field sigma;
  sg2 ← lift (float_pow L sg 2%float);
  t ← lift (truediv (rate * l2 * w')%float sg2);
  weights_setitem k (w - t)%float;;
  c ← fcounts_getitem k;
  fcounts_setitem k (c + 1)%N.

Definition train_update (L : Libm) (features : list (string * float))
    (delta_days actual_recall : float) (actual_half_life : option float)
    : M HLRModel unit :=
  let base := 2.0%float in
  '(p, h) ← predict L features delta_days base;
  actual_half_life ←
    match actual_half_life with
    | None =>
        if (0.0001 <? actual_recall)%float && (0 <? delta_days)%float then
          l ← lift (math_log2 L actual_recall);
          q ← lift (truediv (- delta_days)%float l);
          ret (hclip q)
        else ret h
    | Some a => ret a
    end;
  ln2sq ← lift (float_pow L LN2 2%float);
  d ← lift (truediv delta_days h);
  let dlp_dw := (2.0 * (p - actual_recall) * ln2sq * p * d)%float in
  let dlh_dw := (2.0 * (h - actual_half_life) * LN2 * h)%float in
  for_each features (train_step L actual_recall dlp_dw dlh_dw).

(** [get_weights]: [dict(self.weights)]. *)
Definition get_weights (m : HLRModel) : gmap string float := weights m.

(** [load_weights]: a fresh [defaultdict] updated with the given mapping. *)
Definition load_weights (w : gmap string float) (m : HLRModel) : HLRModel :=
  set_weights (w ∪ ∅) m.

(** ** Configuration, the global model and the request handlers

    The module-level part of [main.py].  [Settings] is read from the
    environment once, when the module is loaded; the handlers below take its
    value as a parameter.  The global variable [_model] and the calls made on
    [logger] are the state the handlers share.  Three handlers bear the name
    of the method they call; inside the module, [train_update],
    [get_weights] and [load_weights] in the body of a handler are the methods
    of [HLRModel] defined above. *)

Module App.

(** [Settings]: the configuration of the service. *)
Record Settings : Type := {
  host : string;
  port : Z;
  log_level : string;
  hlr_learning_rate : float;
  hlr_hl_weight : float;
  hlr_l2_weight : float;
  hlr_sigma : float;
  hlr_omit_h_term : bool
}.

(** The values [Settings()] has when the environment sets none. *)
Definition default_settings : Settings :=
  {| host := "0.0.0.0"; port := 8020; log_level := "info";
     hlr_learning_rate := 0.001%float; hlr_hl_weight := 0.01%float;
     hlr_l2_weight := 0.1%float; hlr_sigma := 1.0%float;
     hlr_omit_h_term := false |}.

(** The module's globals: [_model], and the calls made on [logger] so far,
    oldest first, each as the method called and the event passed (the
    key-value pairs of an event are not recorded). *)
Record Globals : Type := {
  _model : option HLRModel;
  logger : list (string * string)
}.

Definition initial_globals : Globals := {| _model := None; logger := [] |}.

Definition set_model (m : HLRModel) (g : Globals) : Globals :=
  {| _model := Some m; logger := logger g |}.

(** [logger.info(event, ...)] and [logger.debug(event, ...)]. *)
Definition log (method event : string) (g : Globals) : Globals :=
  {| _model := _model g; logger := logger g ++ [(method, event)] |}.

(** [get_model()]: the global instance, created from the settings on first
    use. *)
Definition get_model (settings : Settings) (g : Globals)
    : HLRModel * Globals :=
  match _model g with
  | Some m => (m, g)
  | None =>
      let m :=
        HLRModel_init None (hlr_omit_h_term settings)
          (hlr_learning_rate settings) (hlr_hl_weight settings)
          (hlr_l2_weight settings) (hlr_sigma settings) in
      (m, set_model m g)
  end.

(** *** API schemas *)

Record Feature : Type := { name : string; value : float }.

Module PredictRequest.
Record t : Type := { features : list Feature; delta_days : float }.
(** [delta_days: Field(..., ge=0)] *)
Definition valid (r : t) : bool := (0 <=? delta_days r)%float.
End PredictRequest.

Module PredictResponse.
Record t : Type := { recall_probability : float; half_life_days : float }.
(** [recall_probability: Field(..., ge=0, le=1)] and
    [half_life_days: Field(..., ge=0)], checked when the object is made;
    the bounds are written with the comparisons of floats, which a NaN
    never satisfies. *)
Definition valid (p h : float) : bool :=
  (0 <=? p)%float && (p <=? 1)%float && (0 <=? h)%float.
End PredictResponse.

Module TrainRequest.
Record t : Type := {
  features : list Feature;
  delta_days : float;
  actual_recall : float;
  actual_half_life : option float
}.
(** [delta_days: ge=0], [actual_recall: ge=0, le=1] and
    [actual_half_life: ge=0] when it is given. *)
Definition valid (r : t) : bool :=
  (0 <=? delta_days r)%float
  && ((0 <=? actual_recall r)%float && (actual_recall r <=? 1)%float)
  && match actual_half_life r with
     | Some a => (0 <=? a)%float
     | None => true
     end.
End TrainRequest.

Module TrainResponse.
Record t : Type := {
  updated : bool;
  recall_probability : float;
  half_life_days : float
}.
End TrainResponse.

Module WeightsResponse.
Record t : Type := {
  weights : gmap string float;
  feature_counts : gmap string N
}.
End WeightsResponse.

Module HealthResponse.
Record t : Type := { status : string; service : string; version : string }.
End HealthResponse.

(** What a call of a handler comes to: the object it returns, an exception
    of the core algorithm, or pydantic's [ValidationError] for a response
    whose fields break their bounds. *)
Inductive outcome (A : Type) : Type :=
| Return (a : A)
| Raises (e : exn)
| RaisesValidationError.
Arguments Return {A} a.
Arguments Raises {A} e.
Arguments RaisesValidationError {A}.

Definition Handler (A : Type) : Type := Globals → outcome A * Globals.

(** [[(f.name, f.value) for f in request.features]] *)
Definition feature_pairs (fs : list Feature) : list (string * float) :=
  map (fun f => (name f, value f)) fs.

(** *** The handlers

    In a handler, [model] is the object [get_model()] returned, which is the
    global one: what a method changes in it is changed in [_model].  The
    handlers are coroutines without an [await], so each runs to its end
    before the next request is served. *)

(** [GET /health] *)
Definition health_check : Handler HealthResponse.t :=
  fun g =>
    (Return {| HealthResponse.status := "healthy";
               HealthResponse.service := "hlr-sidecar";
               HealthResponse.version := "0.1.0" |}, g).

(** [POST /predict] *)
Definition predict_half_life (L : Libm) (settings : Settings)
    (request : PredictRequest.t) : Handler PredictResponse.t :=
  fun g =>
    let '(model, g) := get_model settings g in
    let features := feature_pairs (PredictRequest.features request) in
    match predict L features (PredictRequest.delta_days request) 2.0%float
            model with
    | (Ok (p, h), model) =>
        let g := log "debug" "hlr_predict" (set_model model g) in
        if PredictResponse.valid p h then
          (Return {| PredictResponse.recall_probability := p;
                     PredictResponse.half_life_days := h |}, g)
        else (RaisesValidationError, g)
    | (Raise e, model) => (Raises e, set_model model g)
    end.

(** [POST /train] *)
Definition train_update (L : Libm) (settings : Settings)
    (request : TrainRequest.t) : Handler TrainResponse.t :=
  fun g =>
    let '(model, g) := get_model settings g in
    let features := feature_pairs (TrainRequest.features request) in
    match train_update L features (TrainRequest.delta_days request)
            (TrainRequest.actual_recall request)
            (TrainRequest.actual_half_life request) model with
    | (Ok _, model) =>
        (* Return post-update predictions *)
        match predict L features (TrainRequest.delta_days request) 2.0%float
                model with
        | (Ok (p, h), model) =>
            let g := log "info" "hlr_train_update" (set_model model g) in
            (Return {| TrainResponse.updated := true;
                       TrainResponse.recall_probability := p;
                       TrainResponse.half_life_days := h |}, g)
        | (Raise e, model) => (Raises e, set_model model g)
        end
    | (Raise e, model) => (Raises e, set_model model g)
    end.

(** [GET /weights] *)
Definition get_weights (settings : Settings) : Handler WeightsResponse.t :=
  fun g =>
    let '(model, g) := get_model settings g in
    (Return {| WeightsResponse.weights := get_weights model;
               WeightsResponse.feature_counts := fcounts model |}, g).

(** [PUT /weights] *)
Definition load_weights (settings : Settings) (weights : gmap string float)
    : Handler (gmap string string) :=
  fun g =>
    let '(model, g) := get_model settings g in
    let model := load_weights weights model in
    let g := log "info" "hlr_weights_loaded" (set_model model g) in
    (Return {[ "status" := "weights loaded";
               "count" := pretty (size weights) ]}, g).

(** [lifespan]: what runs before the first request and after the last. *)
Definition lifespan_startup (settings : Settings) (g : Globals) : Globals :=
  let g := log "info" "hlr_sidecar_starting" g in
  let '(_, g) := get_model settings g in
  log "info" "hlr_model_initialized" g.

Definition lifespan_shutdown (g : Globals) : Globals :=
  log "info" "hlr_sidecar_shutting_down" g.

(** *** The routes of [app] *)

Inductive Request : Type :=
| GET_health
| POST_predict (request : PredictRequest.t)
| POST_train (request : TrainRequest.t)
| GET_weights
| PUT_weights (weights : gmap string float).

Inductive Response : Type :=
| Health (r : HealthResponse.t)
| Predicted (r : PredictResponse.t)
| Trained (r : TrainResponse.t)
| Weights (r : WeightsResponse.t)
| Loaded (r : gmap string string).

Definition respond {A} (f : A → Response) (h : Handler A) : Handler Response :=
  fun g =>
    match h g with
    | (Return a, g) => (Return (f a), g)
    | (Raises e, g) => (Raises e, g)
    | (RaisesValidationError, g) => (RaisesValidationError, g)
    end.

Definition app (L : Libm) (settings : Settings) (rq : Request)
    : Handler Response :=
  match rq with
  | GET_health => respond Health health_check
  | POST_predict request =>
      respond Predicted (predict_half_life L settings request)
  | POST_train request => respond Trained (train_update L settings request)
  | GET_weights => respond Weights (get_weights settings)
  | PUT_weights weights => respond Loaded (load_weights settings weights)
  end.

(** The globals after a sequence of requests, served one after the other. *)
Definition serve (L : Libm) (settings : Settings) (rqs : list Request)
    (g : Globals) : Globals :=
  fold_left (fun g rq => snd (app L settings rq g)) rqs g.

(** The answers to these requests, in their order. *)
Fixpoint answers (L : Libm) (settings : Settings) (rqs : list Request)
    (g : Globals) : list (outcome Response) :=
  match rqs with
  | [] => []
  | rq :: rest =>
      let '(a, g) := app L settings rq g in
      a :: answers L settings rest g
  end.

End App.

(** ** A reference C library

    A concrete [Libm], so that the model runs on concrete inputs.  It is
    exact wherever the mathematical result is a double reached by exact steps
    (integer powers by repeated multiplication, [log2] of a power of two) and
    a series approximation elsewhere.  The theorems below hold for every
    [Libm]; the closed examples use this one on arguments of the exact
    kind.  [ref_libm] has the [sum] of CPython up to 3.11 and
    [ref_libm_compensated] that of CPython 3.12 and later. *)

Module RefLibm.

Definition of_Z (z : Z) : float := SF2Prim (binary_normalize prec emax z 0 false).

(** The largest integer not above a finite float (zero otherwise). *)
Definition floor_Z (x : float) : Z :=
  match Prim2SF x with
  | S754_finite s m e =>
      match e with
      | Zneg k =>
          let q := Z.shiftr (Zpos m) (Zpos k) in
          if s then
            (if (Z.shiftl q (Zpos k) =? Zpos m)%Z then - q else - q - 1)%Z
          else q
      | _ => let n := Z.shiftl (Zpos m) e in if s then (- n)%Z else n
      end
  | _ => 0%Z
  end.

(** [sum_(i < fuel) pw * t2^i / (den + 2 i)]. *)
Fixpoint odd_series (fuel : nat) (t2 pw den acc : float) : float :=
  match fuel with
  | O => acc
  | S fuel' => odd_series fuel' t2 (pw * t2)%float (den + 2)%float (acc + pw / den)%float
  end.

(** Natural logarithm on [[0.5, 1)], by the series of [2 atanh]. *)
Definition ln_frac (m : float) : float :=
  let t := ((m - 1) / (m + 1))%float in
  (2 * odd_series 24 (t * t) t 1 0)%float.

Definition log2 (x : float) : float :=
  let '(m, e) := Z.frexp x in
  if (m =? 0.5)%float then of_Z (e - 1)
  else (of_Z e + ln_frac m / LN2)%float.

(** [sum_(i < fuel) y^i / i!]. *)
Fixpoint exp_series (fuel : nat) (y term i acc : float) : float :=
  match fuel with
  | O => acc
  | S fuel' => exp_series fuel' y (term * y / i)%float (i + 1)%float (acc + term)%float
  end.

Definition exp2 (z : float) : float :=
  let k := floor_Z z in
  let f := (z - of_Z k)%float in
  Z.ldexp (exp_series 24 (f * LN2)%float 1 1 0) k.

Definition pow (x y : float) : float :=
  match integer_value y with
  | Some (Zpos n) =>
      if (n <=? 4096)%positive then Pos.iter_op PrimFloat.mul n x
      else exp2 (y * log2 x)%float
  | Some (Zneg n) =>
      if (n <=? 4096)%positive then (1 / Pos.iter_op PrimFloat.mul n x)%float
      else exp2 (y * log2 x)%float
  | _ => exp2 (y * log2 x)%float
  end.

End RefLibm.

Definition ref_libm : Libm :=
  {| libm_pow := RefLibm.pow; libm_log2 := RefLibm.log2;
     sum_compensated := false |}.

Definition ref_libm_compensated : Libm :=
  {| libm_pow := RefLibm.pow; libm_log2 := RefLibm.log2;
     sum_compensated := true |}.

(** ** What a call reads and computes, as functions of the model *)

Global Instance result_ret : MRet result := fun A a => Ok a.
Global Instance result_bind : MBind result :=
  fun A B k r => match r with Ok a => k a | Raise e => Raise e end.

(** The value [d[k]] evaluates to. *)
Definition weight_of (w : gmap string float) (k : string) : float :=
  default 0%float (w !! k).
Definition count_of (c : gmap string N) (k : string) : N :=
  default 0%N (c !! k).

(** The mapping after [d[k]] has been evaluated. *)
Definition touch {V} (dflt : V) (d : gmap string V) (k : string)
    : gmap string V :=
  snd (defaultdict_getitem dflt k d).

Definition touch_all (features : list (string * float))
    (w : gmap string float) : gmap string float :=
  fold_left (fun w kx => touch 0%float w (fst kx)) features w.

(** The products of [halflife], on a mapping that is only read, and their
    sum under the [sum] of the platform. *)
Definition products (w : gmap string float) (features : list (string * float))
    : list float :=
  map (fun kx => (weight_of w (fst kx) * snd kx)%float) features.

Definition dot_product (L : Libm) (w : gmap string float)
    (features : list (string * float)) : float :=
  builtin_sum L (products w features).

(** The dot product added from left to right, as [sum] does up to
    CPython 3.11. *)
Fixpoint dot (w : gmap string float) (features : list (string * float))
    (acc : float) : float :=
  match features with
  | [] => acc
  | (k, x_k) :: rest => dot w rest (acc + weight_of w k * x_k)%float
  end.

Definition halflife_of_dot (L : Libm) (base dp : float) : result float :=
  match float_pow L base dp with
  | Ok r => Ok (hclip r)
  | Raise e => if handled_by_halflife e then Ok MAX_HALF_LIFE else Raise e
  end.

Definition recall_of_halflife (L : Libm) (base delta_days h : float)
    : result (float * float) :=
  q ← truediv (- delta_days)%float h;
  p ← float_pow L base q;
  Ok (pclip p, h).

(** [predict] as the specification words it: the exponential of the recall
    taken in the base that is passed for the half-life. *)
Definition predict_in_base (L : Libm) (features : list (string * float))
    (delta_days : float) (base : float) : M HLRModel (float * float) :=
  h ← halflife L features base;
  q ← lift (truediv (- delta_days)%float h);
  p ← lift (float_pow L base q);
  ret (pclip p, h).

(** ** [train_update] as the specification words it

    The per-feature rate, the three adjustments of the weight in their order,
    the increment of the count, and before them the two gradient coefficients
    computed from the prediction made before any update.  These definitions
    read the mappings through [weight_of] and [count_of] and write each name
    once per occurrence. *)

(** [(1 / (1 + actualRecall)) * learningRate / sqrt(1 + count[name])] *)
Definition spec_rate (m : HLRModel) (actual_recall : float) (count : N)
    : result float :=
  a ← truediv 1.0%float (1.0 + actual_recall)%float;
  s ← math_sqrt_int (1 + count);
  truediv (a * lrate m)%float s.

(** The three terms subtracted from the weight. *)
Definition recall_term (rate dlp x : float) : float := (rate * dlp * x)%float.
Definition half_life_term (m : HLRModel) (rate dlh x : float) : float :=
  (rate * hlwt m * dlh * x)%float.
Definition l2_term (L : Libm) (m : HLRModel) (rate w : float) : result float :=
  sg2 ← float_pow L (sigma m) 2%float;
  truediv (rate * l2wt m * w)%float sg2.

Definition spec_feature_update (L : Libm) (actual_recall dlp dlh : float)
    (m : HLRModel) (kx : string * float) : result HLRModel :=
  let '(k, x) := kx in
  let w := weight_of (weights m) k in
  let c := count_of (fcounts m) k in
  rate ← spec_rate m actual_recall c;
  let w1 := (w - recall_term rate dlp x)%float in
  let w2 :=
    if omit_h_term m then w1 else (w1 - half_life_term m rate dlh x)%float in
  t ← l2_term L m rate w2;
  Ok (set_fcounts (<[k := (c + 1)%N]> (fcounts m))
        (set_weights (<[k := (w2 - t)%float]> (weights m)) m)).

Fixpoint spec_updates (L : Libm) (actual_recall dlp dlh : float)
    (features : list (string * float)) (m : HLRModel) : result HLRModel :=
  match features with
  | [] => Ok m
  | kx :: rest =>
      m' ← spec_feature_update L actual_recall dlp dlh m kx;
      spec_updates L actual_recall dlp dlh rest m'
  end.

(** The half-life the update aims at: the observed one, or the estimate
    [clip(-elapsedDays / log2(actualRecall))], or the predicted one. *)
Definition spec_target_half_life (L : Libm) (delta_days actual_recall : float)
    (actual_half_life : option float) (h : float) : result float :=
  match actual_half_life with
  | Some a => Ok a
  | None =>
      if (0.0001 <? actual_recall)%float && (0 <? delta_days)%float then
        l ← math_log2 L actual_recall;
        q ← truediv (- delta_days)%float l;
        Ok (hclip q)
      else Ok h
  end.

(** [dlp = 2*(p - actualRecall)*ln(2)^2*p*(elapsedDays/h)] and
    [dlh = 2*(h - actualHalfLife)*ln(2)*h]. *)
Definition spec_coefficients (L : Libm) (delta_days actual_recall : float)
    (actual_half_life : option float) (p h : float) : result (float * float) :=
  target ← spec_target_half_life L delta_days actual_recall actual_half_life h;
  ln2sq ← float_pow L LN2 2%float;
  d ← truediv delta_days h;
  Ok ((2.0 * (p - actual_recall) * ln2sq * p * d)%float,
      (2.0 * (h - target) * LN2 * h)%float).

Definition spec_train_update (L : Libm) (features : list (string * float))
    (delta_days actual_recall : float) (actual_half_life : option float)
    (m : HLRModel) : result HLRModel :=
  match predict L features delta_days 2.0%float m with
  | (Ok (p, h), m1) =>
      '(dlp, dlh) ←
        spec_coefficients L delta_days actual_recall actual_half_life p h;
      spec_updates L actual_recall dlp dlh features m1
  | (Raise e, _) => Raise e
  end.

(** The coefficients a call of [train_update] works with. *)
Definition train_coefficients (L : Libm) (features : list (string * float))
    (delta_days actual_recall : float) (actual_half_life : option float)
    (m : HLRModel) : result (float * float) :=
  match predict L features delta_days 2.0%float m with
  | (Ok (p, h), _) =>
      spec_coefficients L delta_days actual_recall actual_half_life p h
  | (Raise e, _) => Raise e
  end.

(** The three terms of one step: the recall term, the half-life term when
    it is not omitted, and the L2 term. *)
Definition sub_opt (w : float) (t : option float) : float :=
  match t with Some t => (w - t)%float | None => w end.

Definition step_terms (L : Libm) (actual_recall dlp dlh : float)
    (m : HLRModel) (kx : string * float)
    : result (float * option float * float) :=
  let '(k, x) := kx in
  rate ← spec_rate m actual_recall (count_of (fcounts m) k);
  let t1 := recall_term rate dlp x in
  let t2 :=
    if omit_h_term m then None else Some (half_life_term m rate dlh x) in
  t3 ← l2_term L m rate (sub_opt (weight_of (weights m) k - t1)%float t2);
  Ok (t1, t2, t3).

Definition all_zero (t1 : float) (t2 : option float) (t3 : float) : bool :=
  is_zero t1 && match t2 with Some t => is_zero t | None => true end
  && is_zero t3.

(** How often a name occurs in a feature vector. *)
Fixpoint occurrences (k : string) (features : list (string * float)) : N :=
  match features with
  | [] => 0%N
  | (k', _) :: rest =>
      ((if decide (k' = k) then 1 else 0) + occurrences k rest)%N
  end.

(** The same float, or two zeros (which Python's [==] does not tell apart). *)
Definition same_number (a b : float) : Prop :=
  a = b ∨ (is_zero a = true ∧ is_zero b = true).

(** The hyperparameters of a model. *)
Definition hypers (m : HLRModel) : bool * float * float * float * float :=
  (omit_h_term m, lrate m, hlwt m, l2wt m, sigma m).

(** A finite float of absolute value below [2 ^ E]. *)
Definition mag_le (x : spec_float) (E : Z) : Prop :=
  match x with
  | S754_zero _ => True
  | S754_finite _ m e => (Zpos (digits2_pos m) + e ≤ E)%Z
  | _ => False
  end.

(** One step of pure L2 shrinkage: the weight loses its L2 term and the
    count grows by one; the value of the feature plays no part. *)
Definition l2_shrink_update (L : Libm) (actual_recall : float)
    (m : HLRModel) (kx : string * float) : result HLRModel :=
  let '(k, _) := kx in
  let w := weight_of (weights m) k in
  let c := count_of (fcounts m) k in
  rate ← spec_rate m actual_recall c;
  t ← l2_term L m rate w;
  Ok (set_fcounts (<[k := (c + 1)%N]> (fcounts m))
        (set_weights (<[k := (w - t)%float]> (weights m)) m)).

(** The shrunk weight as a product: [w * (1 - rate * l2Weight / sigma^2)]. *)
Definition l2_scaled_weight (L : Libm) (m : HLRModel) (rate w : float)
    : result float :=
  sg2 ← float_pow L (sigma m) 2%float;
  q ← truediv (rate * l2wt m)%float sg2;
  Ok (w * (1 - q))%float.

(** The dot product under the compensated [sum] of CPython 3.12 and
    later. *)
Definition dot_compensated (w : gmap string float)
    (features : list (string * float)) : float :=
  match products w features with
  | [] => 0%float
  | x :: rest => neumaier rest (0 + x)%float 0%float
  end.

(** ** What a model reads as, and what a call may change

    [reads_same m m']: the two models have the same hyperparameters and
    every name has the same weight and the same count in both, defaults
    included.  [respects c]: the call [c] cannot tell such models apart. *)

Definition reads_same (m m' : HLRModel) : Prop :=
  hypers m = hypers m' ∧
  (∀ k, weight_of (weights m) k = weight_of (weights m') k) ∧
  (∀ k, count_of (fcounts m) k = count_of (fcounts m') k).

Definition respects {A} (c : M HLRModel A) : Prop :=
  ∀ m m', reads_same m m' →
    fst (c m) = fst (c m') ∧ reads_same (snd (c m)) (snd (c m')).

(** [touches_only names m m']: from [m] to [m'] the hyperparameters have
    stayed, the entries of the names outside [names] have stayed, no name
    has left a mapping and no count has decreased.  [within names c]: the
    call [c] changes a model in this way only, whether it returns or
    raises. *)
Definition touches_only (names : list string) (m m' : HLRModel) : Prop :=
  hypers m' = hypers m ∧
  (∀ k, k ∉ names →
     weights m' !! k = weights m !! k ∧ fcounts m' !! k = fcounts m !! k) ∧
  (∀ k, is_Some (weights m !! k) → is_Some (weights m' !! k)) ∧
  (∀ k, is_Some (fcounts m !! k) → is_Some (fcounts m' !! k)) ∧
  (∀ k, (count_of (fcounts m) k ≤ count_of (fcounts m') k)%N).

Definition within {A} (names : list string) (c : M HLRModel A) : Prop :=
  ∀ m, touches_only names m (snd (c m)).

(** [same_but_defaults m m']: the two models have the same hyperparameters
    and the same counts, and every name has the same weight in both, so
    that their weight mappings differ at most in names that one holds with
    the default [0.0] and the other does not hold.  [respects_defaults c]:
    the call [c] cannot tell such models apart and leaves such models. *)
Definition same_but_defaults (m m' : HLRModel) : Prop :=
  hypers m = hypers m' ∧
  (∀ k, weight_of (weights m) k = weight_of (weights m') k) ∧
  fcounts m = fcounts m'.

Definition respects_defaults {A} (c : M HLRModel A) : Prop :=
  ∀ m m', same_but_defaults m m' →
    fst (c m) = fst (c m') ∧ same_but_defaults (snd (c m)) (snd (c m')).

(** Two answers of the service that are the same, or that are two answers
    of [GET /weights] with the same counts and with weights that differ at
    most in names listed with [0.0] in one and not listed in the other. *)
Definition same_answer (a b : App.outcome App.Response) : Prop :=
  match a, b with
  | App.Return (App.Weights r), App.Return (App.Weights r') =>
      App.WeightsResponse.feature_counts r =
        App.WeightsResponse.feature_counts r' ∧
      ∀ k, weight_of (App.WeightsResponse.weights r) k =
           weight_of (App.WeightsResponse.weights r') k
  | _, _ => a = b
  end.

(** The hyperparameters the settings ask for. *)
Definition configured_hypers (settings : App.Settings)
    : bool * float * float * float * float :=
  (App.hlr_omit_h_term settings, App.hlr_learning_rate settings,
   App.hlr_hl_weight settings, App.hlr_l2_weight settings,
   App.hlr_sigma settings).

(** ** Models and feature vectors used in the examples *)

Definition bias_vector : list (string * float) := [("bias", 1.0%float)].

Definition huge_weight_model : HLRModel :=
  load_weights {["a" := 1e308%float]} default_model.

Definition cancelling_vector : list (string * float) :=
  [("a", 10.0%float); ("a", (-10.0)%float)].

Definition repeated_vector : list (string * float) :=
  [("a", 1.0%float); ("a", 1.0%float)].

Definition bias_weight_model : HLRModel :=
  load_weights {["bias" := 1.0%float]} default_model.

Definition seven_weight_model : HLRModel :=
  load_weights {["bias" := 7.0%float]} default_model.

Definition unit_weight_model : HLRModel :=
  load_weights {["a" := 1.0%float]} default_model.

Definition ascending_vector : list (string * float) :=
  [("a", 1.0%float); ("a", 2.0%float); ("a", 3.0%float)].

Definition descending_vector : list (string * float) :=
  [("a", 3.0%float); ("a", 2.0%float); ("a", 1.0%float)].

Definition overflowing_vector : list (string * float) :=
  [("a", 1e308%float); ("a", 1e308%float);
   ("a", (-1e308)%float); ("a", (-1e308)%float)].

Definition overflowing_vector_reordered : list (string * float) :=
  [("a", 1e308%float); ("a", (-1e308)%float);
   ("a", 1e308%float); ("a", (-1e308)%float)].

Definition negative_weight_model : HLRModel :=
  load_weights {["bias" := (-1.0)%float]} default_model.

Definition half_weight_model : HLRModel :=
  load_weights {["bias" := 0.5%float]} default_model.

Definition fractional_weight_model : HLRModel :=
  load_weights {["bias" := 2000.5%float]} default_model.

Definition zero_weight_model : HLRModel :=
  load_weights {["bias" := 0%float]} default_model.

Definition zero_sigma_model : HLRModel :=
  HLRModel_init None false 0.001%float 0.01%float 0.1%float 0%float.

Definition omitting_model : HLRModel :=
  HLRModel_init None true 0.001%float 0.01%float 0.1%float 1.0%float.

Definition bias_request : App.PredictRequest.t :=
  {| App.PredictRequest.features :=
       [{| App.name := "bias"; App.value := 1.0%float |}];
     App.PredictRequest.delta_days := 1%float |}.

(** ** Facts about IEEE arithmetic that involve no rounding *)

Section FloatFacts.

Lemma is_zero_inv z : is_zero z = true → ∃ s, Prim2SF z = S754_zero s.
Proof.
  rw /is_zero FloatAxioms.eqb_spec. change (Prim2SF zero) with (S754_zero false).
  destruct (Prim2SF z) as [s|s| |s mz ez]; try by eauto.
  - by destruct s.
  - by destruct s.
Qed.

Lemma is_zero_intro z s : Prim2SF z = S754_zero s → is_zero z = true.
Proof.
  intros E. rw /is_zero FloatAxioms.eqb_spec E.
  by change (Prim2SF zero) with (S754_zero false).
Qed.

Lemma sub_zero w z : is_zero z = true → same_number (w - z) w.
Proof.
  intros [s Hz]%is_zero_inv.
  pose proof (sub_spec w z) as Hsub. rw Hz in Hsub.
  destruct (Prim2SF w) as [sw|sw| |sw mw ew] eqn:Hw.
  - right. split; [|by eapply is_zero_intro].
    destruct sw, s; by eapply is_zero_intro.
  - left. apply Prim2SF_inj. by rw Hsub Hw.
  - left. apply Prim2SF_inj. by rw Hsub Hw.
  - left. apply Prim2SF_inj. by rw Hsub Hw.
Qed.

Lemma same_number_sub_zero a w z :
  same_number a w → is_zero z = true → same_number (a - z) w.
Proof.
  intros [->|[Ha Hw]] Hz; [by apply sub_zero|].
  right. split; [|done].
  destruct (sub_zero a z Hz) as [->|[? _]]; done.
Qed.

End FloatFacts.

(** ** Magnitudes: when rounding cannot overflow

    [mag_le x E] bounds a float below [2 ^ E] in absolute value.  The
    lemmas follow the rounding functions of [SpecFloat]. *)

Ltac unfold_fexp :=
  cbv [SpecFloat.fexp SpecFloat.emin prec emax] in *.

Section Magnitude.
Local Open Scope Z_scope.

Local Abbreviation fexp := (SpecFloat.fexp prec emax).
Local Abbreviation emin := (SpecFloat.emin prec emax).

Lemma digits2_pos_log2 m : Zpos (digits2_pos m) = Z.log2 (Zpos m) + 1.
Proof.
  assert (∀ p, digits2_pos p = Pos.size p) as Hsize
    by (intros p; induction p as [p IH|p IH|]; simpl; by rw ?IH).
  rw Hsize. destruct m; simpl; lia.
Qed.

Lemma Zdigits2_log2 z : 0 < z → Zdigits2 z = Z.log2 z + 1.
Proof. destruct z; [lia| |lia]. intros _. apply digits2_pos_log2. Qed.

Lemma Zdigits2_nonneg z : 0 ≤ Zdigits2 z.
Proof. by destruct z. Qed.

Lemma Zdigits2_le z z' : 0 ≤ z ≤ z' → Zdigits2 z ≤ Zdigits2 z'.
Proof.
  intros [H0 Hle]. destruct (Z.eq_dec z 0) as [->|Hz].
  - apply Zdigits2_nonneg.
  - rw !Zdigits2_log2; [lia..|].
    pose proof (Z.log2_le_mono z z' Hle). lia.
Qed.

Lemma Zdigits2_succ z : 0 ≤ z → Zdigits2 (z + 1) ≤ Zdigits2 z + 1.
Proof.
  intros H0. destruct (Z.eq_dec z 0) as [->|Hz]; [done|].
  rw !Zdigits2_log2; [lia..|].
  pose proof (Z.log2_succ_le z). unfold Z.succ in *. lia.
Qed.

Lemma Zdigits2_shiftr z n :
  0 ≤ z → 0 ≤ n → Zdigits2 (Z.shiftr z n) ≤ Z.max 0 (Zdigits2 z - n).
Proof.
  intros H0 Hn. destruct (Z.eq_dec z 0) as [->|Hz].
  - rw Z.shiftr_0_l. simpl. lia.
  - pose proof (Z.shiftr_nonneg z n) as [_ Hs]. specialize (Hs H0).
    destruct (Z.eq_dec (Z.shiftr z n) 0) as [->|Hsz]; [simpl; lia|].
    rw !Zdigits2_log2; [lia..|].
    rw Z.log2_shiftr; [lia|].
    assert (n ≤ Z.log2 z); [|lia].
    destruct (Z_le_gt_dec n (Z.log2 z)) as [|Hgt]; [done|].
    exfalso. apply Hsz. apply Z.shiftr_eq_0_iff. right. lia.
Qed.

Lemma Zdigits2_mul a b :
  0 < a → 0 < b →
  Zdigits2 a + Zdigits2 b - 1 ≤ Zdigits2 (a * b) ≤ Zdigits2 a + Zdigits2 b.
Proof.
  intros Ha Hb. rw !Zdigits2_log2; [lia..|].
  pose proof (Z.log2_mul_below a b Ha Hb).
  pose proof (Z.log2_mul_above a b). lia.
Qed.

(** Shifting a record right. *)
Lemma shr_1_m r : 0 ≤ shr_m r → shr_m (shr_1 r) = Z.shiftr (shr_m r) 1.
Proof.
  destruct r as [m r s]. intros H0.
  rw Z.shiftr_div_pow2; [lia|]. change (2 ^ 1) with 2.
  rw -Z.div2_div /=.
  by destruct m as [|[p|p|]|p].
Qed.

Lemma shr_m_iter p r :
  0 ≤ shr_m r →
  shr_m (SpecFloat.iter_pos shr_1 p r) = Z.shiftr (shr_m r) (Zpos p).
Proof.
  revert r. induction p as [p IH|p IH|]; intros r H0; simpl.
  - assert (0 ≤ shr_m (shr_1 r)) as H1.
    { rw shr_1_m; [done|]. by apply Z.shiftr_nonneg. }
    assert (0 ≤ shr_m (SpecFloat.iter_pos shr_1 p (shr_1 r))) as H2.
    { rw IH; [done|]. by apply Z.shiftr_nonneg. }
    rw IH; [done|]. rw IH; [done|]. rw shr_1_m; [done|].
    rw !Z.shiftr_shiftr; [lia..|]. f_equal. lia.
  - assert (0 ≤ shr_m (SpecFloat.iter_pos shr_1 p r)) as H2.
    { rw IH; [done|]. by apply Z.shiftr_nonneg. }
    rw IH; [done|]. rw IH; [done|].
    rw !Z.shiftr_shiftr; [lia..|]. f_equal. lia.
  - by apply shr_1_m.
Qed.

Lemma shr_record_of_loc_m m l : shr_m (shr_record_of_loc m l) = m.
Proof. by destruct l as [|[]]. Qed.

(** [shr_fexp] on an aligned mantissa. *)
Lemma shr_fexp_aligned m e l :
  0 ≤ m → e ≤ fexp (Zdigits2 m + e) →
  let '(r, e') := shr_fexp prec emax m e l in
  e' = fexp (Zdigits2 m + e) ∧
  shr_m r = Z.shiftr m (fexp (Zdigits2 m + e) - e).
Proof.
  intros H0 Hal. rw /shr_fexp /shr.
  destruct (fexp (Zdigits2 m + e) - e) as [|n|n] eqn:En; [| |lia].
  - rw Z.shiftr_0_r shr_record_of_loc_m. split; [lia|done].
  - rw shr_m_iter shr_record_of_loc_m; [done|]. split; [lia|done].
Qed.

Lemma round_nearest_even_bounds mx lx :
  mx ≤ round_nearest_even mx lx ≤ mx + 1.
Proof.
  destruct lx as [|[]]; simpl; try lia. destruct (Z.even mx); lia.
Qed.

(** Rounding an aligned mantissa of bounded magnitude does not overflow,
    and raises the magnitude by one binade at most. *)
Lemma binary_round_aux_mag s m e l E :
  0 ≤ m → e ≤ fexp (Zdigits2 m + e) → Zdigits2 m + e ≤ E → E ≤ emax - 1 →
  mag_le (binary_round_aux prec emax s m e l) (Z.max E emin + 1).
Proof.
  intros H0 Hal HE Hmax. rw /binary_round_aux.
  pose proof (shr_fexp_aligned m e l H0 Hal) as H1.
  destruct (shr_fexp prec emax m e l) as [r1 e1]. destruct H1 as [He1 Hm1].
  pose proof (round_nearest_even_bounds (shr_m r1) (loc_of_shr_record r1))
    as Hrne.
  set (m1 := round_nearest_even (shr_m r1) (loc_of_shr_record r1)) in *.
  assert (0 ≤ shr_m r1) as Hr1 by (rw Hm1; by apply Z.shiftr_nonneg).
  assert (Zdigits2 (shr_m r1) ≤
          Z.max 0 (Zdigits2 m - (fexp (Zdigits2 m + e) - e))) as Hd1.
  { rw Hm1. apply Zdigits2_shiftr; lia. }
  assert (Zdigits2 m1 ≤ Zdigits2 (shr_m r1) + 1) as Hdm1.
  { etrans; [|by apply Zdigits2_succ]. apply Zdigits2_le. lia. }
  pose proof (Zdigits2_nonneg m) as Hdm.
  rw /shr_fexp /shr.
  destruct (fexp (Zdigits2 m1 + e1) - e1) as [|n|n] eqn:En.
  - rw shr_record_of_loc_m. destruct m1 as [|q|q] eqn:Eq; [done| |lia].
    simpl in Hdm1. unfold_fexp.
    destruct (Z.leb_spec e1 (1024 - 53)); simpl; lia.
  - rw shr_m_iter shr_record_of_loc_m; [lia|].
    assert (0 ≤ m1) as Hm1' by lia.
    pose proof (Zdigits2_shiftr m1 (Zpos n) Hm1' ltac:(lia)) as Hd2.
    pose proof (proj2 (Z.shiftr_nonneg m1 (Zpos n)) Hm1') as Hs2.
    destruct (Z.shiftr m1 (Z.pos n)) as [|q|q]; [done| |lia].
    simpl in Hd2. unfold_fexp.
    destruct (Z.leb_spec (e1 + Zpos n) (1024 - 53)); simpl; lia.
  - rw shr_record_of_loc_m. destruct m1 as [|q|q] eqn:Eq; [done| |lia].
    simpl in Hdm1. unfold_fexp.
    destruct (Z.leb_spec e1 (1024 - 53)); simpl; lia.
Qed.

(** What [Prim2SF_valid] says of a finite float. *)
Lemma finite_valid x s m e :
  Prim2SF x = S754_finite s m e →
  Zpos (digits2_pos m) ≤ prec ∧ emin ≤ e ∧ e ≤ emax - prec ∧
  (Zpos (digits2_pos m) = prec ∨ e = emin).
Proof.
  intros Hx. pose proof (Prim2SF_valid x) as Hv. rw Hx in Hv.
  rw /= /bounded /canonical_mantissa in Hv.
  apply andb_prop in Hv as [Hc%Z.eqb_eq Hb%Z.leb_le].
  unfold_fexp. lia.
Qed.

Lemma mul_mag x y Ex Ey :
  mag_le (Prim2SF x) Ex → mag_le (Prim2SF y) Ey → Ex + Ey ≤ emax - 1 →
  mag_le (Prim2SF (x * y)) (Z.max (Ex + Ey) emin + 1).
Proof.
  rw mul_spec /SF64mul.
  destruct (Prim2SF x) as [sx|sx| |sx mx ex] eqn:Hx; try done;
    destruct (Prim2SF y) as [sy|sy| |sy my ey] eqn:Hy; try done.
  simpl. intros HEx HEy Hsum.
  apply finite_valid in Hx as (Hdx & Hex & _ & Hcx).
  apply finite_valid in Hy as (Hdy & Hey & _ & Hcy).
  pose proof (Zdigits2_mul (Zpos mx) (Zpos my) eq_refl eq_refl) as Hd.
  simpl in Hd.
  apply binary_round_aux_mag; [done| |simpl; lia|done].
  change (Zdigits2 (Z.pos (mx * my))) with (Z.pos (digits2_pos (mx * my))).
  unfold_fexp. lia.
Qed.

Lemma digits2_pos_iter_xO m d :
  Zpos (digits2_pos (Pos.iter xO m d)) = Zpos (digits2_pos m) + Zpos d.
Proof.
  induction d as [|d IH] using Pos.peano_ind.
  - simpl. lia.
  - rw Pos.iter_succ /= Pos2Z.inj_succ IH. lia.
Qed.

Lemma shl_align_spec m e e' :
  let '(mz, ez) := shl_align m e e' in
  Zpos (digits2_pos mz) + ez = Zpos (digits2_pos m) + e ∧
  ez ≤ e' ∧ (e' ≤ e → ez = e').
Proof.
  rw /shl_align. destruct (e' - e) as [|d|d] eqn:Ed; [lia|lia|].
  rw digits2_pos_iter_xO. lia.
Qed.

Lemma binary_round_mag s q e E :
  Zpos (digits2_pos q) + e ≤ E → E ≤ emax - 1 →
  mag_le (binary_round prec emax s q e) (Z.max E emin + 1).
Proof.
  intros HE Hmax. rw /binary_round.
  pose proof (shl_align_spec q e (fexp (Zpos (digits2_pos q) + e))) as Hal.
  destruct (shl_align q e _) as [mz ez]. destruct Hal as (Hd & Hle & _).
  apply binary_round_aux_mag; [done| |simpl; lia|done].
  simpl. by rw Hd.
Qed.

Lemma binary_normalize_mag M e E :
  Zdigits2 M + e ≤ E → E ≤ emax - 1 →
  mag_le (binary_normalize prec emax M e false) (Z.max E emin + 1).
Proof.
  intros HE Hmax. destruct M as [|q|q]; [done|..];
    by apply binary_round_mag.
Qed.

Lemma Zdigits2_abs_sum a b :
  0 < a → 0 < b →
  ∀ M, Z.abs M ≤ a + b →
  Zdigits2 M ≤ Z.max (Zdigits2 a) (Zdigits2 b) + 1.
Proof.
  intros Ha Hb M HM.
  assert (Zdigits2 M = Zdigits2 (Z.abs M)) as -> by by destruct M.
  etrans; [apply (Zdigits2_le _ (2 * Z.max a b)); lia|].
  rw !Zdigits2_log2; [lia..|]. rw Z.log2_double; [lia|].
  destruct (Z.max_spec a b) as [[_ ->]|[_ ->]]; lia.
Qed.

Lemma sub_mag x y Ex Ey :
  mag_le (Prim2SF x) Ex → mag_le (Prim2SF y) Ey →
  Z.max Ex Ey + 1 ≤ emax - 1 →
  mag_le (Prim2SF (x - y)) (Z.max (Z.max Ex Ey + 1) emin + 1).
Proof.
  rw sub_spec /SF64sub.
  destruct (Prim2SF x) as [sx|sx| |sx mx ex] eqn:Hx; try done;
    destruct (Prim2SF y) as [sy|sy| |sy my ey] eqn:Hy; try done.
  - by destruct sx, sy.
  - simpl. lia.
  - simpl. lia.
  - rw /SFsub. intros HEx HEy Hmax. simpl in HEx, HEy.
    pose proof (shl_align_spec mx ex (Z.min ex ey)) as Hax.
    pose proof (shl_align_spec my ey (Z.min ex ey)) as Hay.
    destruct (shl_align mx ex _) as [mx' ex'].
    destruct (shl_align my ey _) as [my' ey'].
    destruct Hax as (Hdx & Hx1 & Hx2). destruct Hay as (Hdy & Hy1 & Hy2).
    apply binary_normalize_mag; [|done]. simpl fst.
    pose proof (Zdigits2_abs_sum (Zpos mx') (Zpos my') eq_refl eq_refl
                  (cond_Zopp sx (Zpos mx') - cond_Zopp sy (Zpos my'))) as Hd.
    simpl in Hd. etrans.
    { apply Z.add_le_mono_r, Hd. destruct sx, sy; simpl; lia. }
    lia.
Qed.

Lemma unit_interval_mag x :
  (0 <=? x)%float = true → (x <=? 1)%float = true → mag_le (Prim2SF x) 1.
Proof.
  rw !leb_spec.
  change (Prim2SF 0) with (S754_zero false).
  change (Prim2SF 1) with (S754_finite false 4503599627370496 (-52)).
  destruct (Prim2SF x) as [s|s| |s m e] eqn:Hx; try done.
  - by destruct s.
  - apply finite_valid in Hx as (Hd & _).
    destruct s; [done|]. intros _. rw /SFleb /SFcompare.
    destruct (Z.compare_spec e (-52)) as [He|He|He]; [| |done];
      intros _; rw /mag_le; revert Hd; rw /prec; lia.
Qed.

Lemma mag_le_finite x E : mag_le (Prim2SF x) E → is_finite x = true.
Proof.
  rw /is_finite /is_nan /is_infinity !FloatAxioms.eqb_spec abs_spec.
  change (Prim2SF infinity) with (S754_infinity false).
  destruct (Prim2SF x) as [s|s| |s m e]; try done.
  intros _. rw /SFeqb /= Z.compare_refl Pos.compare_cont_refl.
  by destruct s.
Qed.

Lemma is_finite_inv x :
  is_finite x = true →
  (∃ s, Prim2SF x = S754_zero s) ∨ (∃ s m e, Prim2SF x = S754_finite s m e).
Proof.
  rw /is_finite /is_nan /is_infinity !FloatAxioms.eqb_spec abs_spec.
  change (Prim2SF infinity) with (S754_infinity false).
  destruct (Prim2SF x) as [s|s| |s m e]; intros H.
  - left. by exists s.
  - by destruct s.
  - done.
  - right. by exists s, m, e.
Qed.

(** The factor of the recall coefficient that multiplies
    [delta_days / h]. *)
Lemma recall_factor_finite ar ln2sq :
  (0 <=? ar)%float = true → (ar <=? 1)%float = true →
  (0 <=? ln2sq)%float = true → (ln2sq <=? 1)%float = true →
  is_finite (2.0 * (0.9999 - ar) * ln2sq * 0.9999)%float = true.
Proof.
  intros Ha0 Ha1 Hl0 Hl1.
  pose proof (unit_interval_mag ar Ha0 Ha1) as Har.
  pose proof (unit_interval_mag ln2sq Hl0 Hl1) as Hln.
  assert (mag_le (Prim2SF 0.9999) 0) as Hp by (vm_compute; discriminate).
  assert (mag_le (Prim2SF 2.0) 2) as H2 by (vm_compute; discriminate).
  pose proof (sub_mag _ _ _ _ Hp Har ltac:(done)) as H3.
  pose proof (mul_mag _ _ _ _ H2 H3 ltac:(done)) as H4.
  pose proof (mul_mag _ _ _ _ H4 Hln ltac:(done)) as H5.
  pose proof (mul_mag _ _ _ _ H5 Hp ltac:(done)) as H6.
  by eapply mag_le_finite.
Qed.
End Magnitude.

(** ** Arithmetic with zeros and the clipped half-life *)

Section ZeroArithmetic.

Lemma finite_is_finite x s m e :
  Prim2SF x = S754_finite s m e → is_finite x = true.
Proof.
  intros Hx. apply (mag_le_finite x (Zpos (digits2_pos m) + e)).
  by rw Hx /=.
Qed.

Lemma mul_zero_r a z :
  is_finite a = true → is_zero z = true → is_zero (a * z) = true.
Proof.
  intros Ha [sz Hz]%is_zero_inv. pose proof (mul_spec a z) as Hm.
  rw Hz /SF64mul in Hm.
  destruct (is_finite_inv a Ha) as [[s Hs]|(s & m & e & Hs)];
    rw Hs in Hm; by eapply is_zero_intro.
Qed.

Lemma mul_zero_l z a :
  is_zero z = true → is_finite a = true → is_zero (z * a) = true.
Proof.
  intros [sz Hz]%is_zero_inv Ha. pose proof (mul_spec z a) as Hm.
  rw Hz /SF64mul in Hm.
  destruct (is_finite_inv a Ha) as [[s Hs]|(s & m & e & Hs)];
    rw Hs in Hm; by eapply is_zero_intro.
Qed.

Lemma opp_zero z : is_zero z = true → is_zero (- z) = true.
Proof.
  intros [sz Hz]%is_zero_inv. pose proof (opp_spec z) as Ho.
  rw Hz in Ho. by eapply is_zero_intro.
Qed.

Lemma div_zero_finite z h s m e :
  is_zero z = true → Prim2SF h = S754_finite s m e →
  is_zero (z / h) = true.
Proof.
  intros [sz Hz]%is_zero_inv Hh. pose proof (div_spec z h) as Hd.
  rw Hz Hh in Hd. by eapply is_zero_intro.
Qed.

Lemma sub_diag_finite h s m e :
  Prim2SF h = S754_finite s m e → is_zero (h - h) = true.
Proof.
  intros Hh. pose proof (sub_spec h h) as Hs.
  rw Hh /SF64sub /SFsub Z.sub_diag in Hs. by eapply is_zero_intro.
Qed.

Lemma sub_zero_eq w z :
  is_zero z = true → w ≠ neg_zero → (w - z)%float = w.
Proof.
  intros [sz Hz]%is_zero_inv Hw. apply Prim2SF_inj.
  rw sub_spec Hz /SF64sub.
  destruct (Prim2SF w) as [sw|sw| |sw mw ew] eqn:Ew; try done.
  destruct sw.
  - exfalso. apply Hw, Prim2SF_inj. by rw Ew.
  - by destruct sz.
Qed.

Lemma ltb_zero_zero z : is_zero z = true → (0 <? z)%float = false.
Proof.
  intros [sz Hz]%is_zero_inv. rw ltb_spec Hz.
  by change (Prim2SF 0) with (S754_zero false).
Qed.

Lemma eqb_zero_finite h s m e :
  Prim2SF h = S754_finite s m e → (h =? 0)%float = false.
Proof.
  intros Hh. rw FloatAxioms.eqb_spec Hh.
  change (Prim2SF 0) with (S754_zero false). by destruct s.
Qed.

Lemma is_nan_inv x : is_nan x = false → Prim2SF x ≠ S754_nan.
Proof. rw /is_nan FloatAxioms.eqb_spec. intros H E. by rw E in H. Qed.

(** A clipped half-life is NaN or a finite non-zero float. *)
Lemma hclip_finite r :
  is_nan (hclip r) = false → ∃ s m e, Prim2SF (hclip r) = S754_finite s m e.
Proof.
  rw /hclip /Py.min /Py.max.
  assert (Prim2SF MIN_HALF_LIFE = S754_finite false 6004799503160661 (-59))
    as Hmin by (vm_compute; reflexivity).
  assert (Prim2SF MAX_HALF_LIFE = S754_finite false 4820258976169984 (-44))
    as Hmax by (vm_compute; reflexivity).
  destruct (r <? MIN_HALF_LIFE)%float eqn:Hlo.
  - destruct (MAX_HALF_LIFE <? MIN_HALF_LIFE)%float; eauto.
  - destruct (MAX_HALF_LIFE <? r)%float eqn:Hhi; [eauto|].
    intros Hnan%is_nan_inv. rw ltb_spec Hmin in Hlo. rw ltb_spec Hmax in Hhi.
    destruct (Prim2SF r) as [s|s| |s m e]; [..|done|by eauto].
    + done.
    + by destruct s.
Qed.

End ZeroArithmetic.

(** ** The order of floats and clipping *)

Section FloatOrder.

Lemma SFcompare_antisym a b :
  SFcompare b a = option_map CompOpp (SFcompare a b).
Proof.
  destruct a as [sa|sa| |sa ma ea], b as [sb|sb| |sb mb eb]; try done;
    try by destruct sa, sb.
  all: try (by destruct sa); try (by destruct sb).
  rw /SFcompare /= (Z.compare_antisym ea eb).
  destruct sa, sb; try done; destruct (ea ?= eb)%Z; simpl; try done;
    by rw !Pos.compare_cont_antisym.
Qed.

Lemma SFcompare_none a b :
  SFcompare a b = None → a = S754_nan ∨ b = S754_nan.
Proof.
  destruct a as [sa|sa| |sa ma ea], b as [sb|sb| |sb mb eb]; try done;
    by eauto.
Qed.

Lemma SFcompare_refl a : a ≠ S754_nan → SFcompare a a = Some Eq.
Proof.
  destruct a as [sa|sa| |sa ma ea]; try done.
  - by destruct sa.
  - intros _. rw /SFcompare /= Z.compare_refl Pos.compare_cont_refl.
    by destruct sa.
Qed.

Lemma ltb_false_leb a b :
  (a <? b)%float = false → is_nan a = false → is_nan b = false →
  (b <=? a)%float = true.
Proof.
  rw ltb_spec leb_spec /SFltb /SFleb (SFcompare_antisym (Prim2SF a)).
  intros Hlt Ha%is_nan_inv Hb%is_nan_inv.
  destruct (SFcompare (Prim2SF a) (Prim2SF b)) as [[]|] eqn:Hc; try done.
  by apply SFcompare_none in Hc as [?|?].
Qed.

Lemma leb_refl a : is_nan a = false → (a <=? a)%float = true.
Proof.
  intros Ha%is_nan_inv. by rw leb_spec /SFleb SFcompare_refl.
Qed.

Lemma leb_not_nan a b :
  (a <=? b)%float = true → is_nan a = false ∧ is_nan b = false.
Proof.
  rw leb_spec /SFleb /is_nan !FloatAxioms.eqb_spec /SFeqb.
  destruct (SFcompare (Prim2SF a) (Prim2SF b)) as [c|] eqn:Hc; [|done].
  intros _.
  assert (Prim2SF a ≠ S754_nan ∧ Prim2SF b ≠ S754_nan) as [Ha Hb].
  { split; intros E; rw E in Hc; [done|]. by destruct (Prim2SF a). }
  by rw !SFcompare_refl.
Qed.

Lemma leb_ltb_false a b :
  (a <=? b)%float = true → (b <? a)%float = false.
Proof.
  rw leb_spec ltb_spec /SFleb /SFltb (SFcompare_antisym (Prim2SF a)).
  by destruct (SFcompare (Prim2SF a) (Prim2SF b)) as [[]|].
Qed.

(** Clipping between two bounds keeps every float that is not NaN between
    them. *)
Lemma clip_in_range lo hi x :
  (lo <=? hi)%float = true → is_nan x = false →
  (lo <=? Py.min (Py.max x lo) hi)%float = true ∧
  (Py.min (Py.max x lo) hi <=? hi)%float = true.
Proof.
  intros Hlh Hx. destruct (leb_not_nan _ _ Hlh) as [Hlo Hhi].
  rw /Py.min /Py.max. destruct (x <? lo)%float eqn:E1.
  - rw (leb_ltb_false _ _ Hlh). split; [by apply leb_refl|done].
  - destruct (hi <? x)%float eqn:E2.
    + split; [done|by apply leb_refl].
    + split; by apply ltb_false_leb.
Qed.

(** A NaN is not clipped. *)
Lemma clip_nan lo hi x :
  is_nan (Py.min (Py.max x lo) hi) = false → is_nan x = false.
Proof.
  rw /Py.min /Py.max. destruct (is_nan x) eqn:Hx; [|done].
  assert (∀ y, (x <? y)%float = false ∧ (y <? x)%float = false) as Hcmp.
  { intros y. rw !ltb_spec /SFltb. rw /is_nan FloatAxioms.eqb_spec /SFeqb in Hx.
    destruct (Prim2SF x) as [s|s| |s m e] eqn:Ex.
    - by destruct s.
    - by destruct s.
    - split; [done|]. by destruct (Prim2SF y).
    - rw /SFcompare /= Z.compare_refl Pos.compare_cont_refl in Hx.
      by destruct s. }
  by rw (proj1 (Hcmp lo)) (proj2 (Hcmp hi)) Hx.
Qed.
End FloatOrder.

(** ** Addition is commutative *)

Section FloatAddition.

Lemma SFadd_comm x y : SFadd prec emax x y = SFadd prec emax y x.
Proof.
  destruct x as [sx|sx| |sx mx ex], y as [sy|sy| |sy my ey]; try done;
    try by destruct sx, sy.
  by rw /SFadd Z.min_comm Z.add_comm.
Qed.

(** The first two terms of a sum that starts at zero can be swapped. *)
Lemma zero_add_swap a b : (0 + a + b)%float = (0 + b + a)%float.
Proof.
  apply Prim2SF_inj. rw !add_spec /SF64add.
  change (Prim2SF 0) with (S754_zero false).
  rw (SFadd_comm (SFadd _ _ (S754_zero false) (Prim2SF b))).
  destruct (Prim2SF a) as [sa|sa| |sa ma ea], (Prim2SF b) as [sb|sb| |sb mb eb];
    try done; try (by destruct sa); try (by destruct sb);
    by destruct sa, sb.
Qed.

End FloatAddition.

(** ** The builtin [sum]

    Three facts that hold with compensation and without: a sum that is an
    infinity or a NaN from left to right is the same float with
    compensation, a sum of zeros is [0.0], and two floats have the same sum
    in either order. *)

Section BuiltinSum.

Lemma zero_cases z : is_zero z = true → z = 0%float ∨ z = (-0)%float.
Proof.
  intros [[] Hz]%is_zero_inv; [right|left]; by apply Prim2SF_inj.
Qed.

Lemma is_finite_SF x :
  is_finite x =
  match Prim2SF x with
  | S754_zero _ | S754_finite _ _ _ => true
  | _ => false
  end.
Proof.
  rw /is_finite /is_nan /is_infinity !FloatAxioms.eqb_spec abs_spec.
  change (Prim2SF infinity) with (S754_infinity false).
  destruct (Prim2SF x) as [s|s| |s m e]; try done; try by destruct s.
  rw /SFeqb /= Z.compare_refl Pos.compare_cont_refl.
  by destruct s.
Qed.

(** An infinity or a NaN stays one through [+] and [-]. *)
Lemma add_not_finite_l a b : is_finite a = false → is_finite (a + b) = false.
Proof.
  rw !is_finite_SF add_spec /SF64add.
  destruct (Prim2SF a) as [sa|sa| |sa ma ea]; try done;
    destruct (Prim2SF b) as [sb|sb| |sb mb eb]; try done;
    by destruct sa, sb.
Qed.

Lemma add_not_finite_r a b : is_finite b = false → is_finite (a + b) = false.
Proof.
  rw !is_finite_SF add_spec /SF64add.
  destruct (Prim2SF a) as [sa|sa| |sa ma ea]; try done;
    destruct (Prim2SF b) as [sb|sb| |sb mb eb]; try done;
    by destruct sa, sb.
Qed.

Lemma sub_not_finite_r a b : is_finite b = false → is_finite (a - b) = false.
Proof.
  rw !is_finite_SF sub_spec /SF64sub.
  destruct (Prim2SF a) as [sa|sa| |sa ma ea]; try done;
    destruct (Prim2SF b) as [sb|sb| |sb mb eb]; try done;
    by destruct sa, sb.
Qed.

(** The compensation of a total that is not finite is not finite. *)
Lemma compensation_not_finite total c x t :
  is_finite t = false →
  is_finite (if (abs x <=? abs total)%float
             then (c + ((total - t) + x))%float
             else (c + ((x - t) + total))%float) = false.
Proof.
  intros H. destruct (abs x <=? abs total)%float;
    by apply add_not_finite_r, add_not_finite_l, sub_not_finite_r.
Qed.

(** When the plain sum is an infinity or a NaN, the compensated sum is the
    same float. *)
Lemma neumaier_not_finite xs total c :
  (is_finite total = false → is_zero c = true ∨ is_finite c = false) →
  is_finite (fold_left PrimFloat.add xs total) = false →
  neumaier xs total c = fold_left PrimFloat.add xs total.
Proof.
  revert total c. induction xs as [|x rest IH]; intros total c Hc Hsum.
  - simpl in *. destruct (Hc Hsum) as [Hz|Hf].
    + rw /is_zero in Hz. change zero with 0%float in Hz. by rw Hz.
    + by rw Hf andb_false_r.
  - simpl. apply IH; [|done]. intros Ht. right.
    by apply compensation_not_finite.
Qed.

Lemma builtin_sum_not_finite L xs :
  is_finite (fold_left PrimFloat.add xs 0%float) = false →
  builtin_sum L xs = fold_left PrimFloat.add xs 0%float.
Proof.
  intros H. rw /builtin_sum. destruct (sum_compensated L); [|done].
  destruct xs as [|x rest]; [done|].
  change (fold_left PrimFloat.add (x :: rest) 0%float)
    with (fold_left PrimFloat.add rest (0 + x)%float) in *.
  apply neumaier_not_finite; [|done]. intros _. by left.
Qed.

(** A sum of zeros is [0.0]. *)
Lemma add_zero_zero z : is_zero z = true → (0 + z)%float = 0%float.
Proof. by intros [-> | ->]%zero_cases. Qed.

Lemma builtin_sum_zeros L xs :
  Forall (fun x => is_zero x = true) xs → builtin_sum L xs = 0%float.
Proof.
  intros H. rw /builtin_sum. destruct (sum_compensated L).
  - destruct H as [|x rest Hx H]; [done|]. rw (add_zero_zero x Hx).
    induction H as [|y rest' Hy _ IH]; [done|].
    by destruct (zero_cases y Hy) as [-> | ->].
  - induction H as [|x rest Hx _ IH]; [done|].
    by rw /= (add_zero_zero x Hx).
Qed.

(** *** Two floats in either order *)

Lemma add_zero_l_finite b s m e :
  Prim2SF b = S754_finite s m e → (0 + b)%float = b.
Proof.
  intros Hb. apply Prim2SF_inj. rw add_spec Hb.
  by change (Prim2SF 0) with (S754_zero false).
Qed.

Lemma add_finite_zero a z s m e :
  Prim2SF a = S754_finite s m e → is_zero z = true → (a + z)%float = a.
Proof.
  intros Ha [sz Hz]%is_zero_inv. apply Prim2SF_inj. by rw add_spec Ha Hz.
Qed.

Lemma is_zero_add u v :
  is_zero u = true → is_zero v = true → is_zero (u + v) = true.
Proof. by intros [-> | ->]%zero_cases [-> | ->]%zero_cases. Qed.

Lemma add_finite_inv a b :
  is_finite (a + b) = true → is_finite a = true ∧ is_finite b = true.
Proof.
  intros H. split.
  - destruct (is_finite a) eqn:E; [done|]. by rw (add_not_finite_l a b E) in H.
  - destruct (is_finite b) eqn:E; [done|]. by rw (add_not_finite_r a b E) in H.
Qed.

(** The end of [neumaier] with a compensation that is zero, or not
    finite. *)
Lemma neumaier_nil_zero total c :
  is_zero c = true → neumaier [] total c = total.
Proof.
  rw /is_zero /=. change zero with 0%float. by intros ->.
Qed.

Lemma neumaier_nil_not_finite total c :
  is_finite c = false → neumaier [] total c = total.
Proof. intros H. by rw /= H andb_false_r. Qed.

(** How the absolute values of two floats compare. *)
Lemma leb_abs_zero_finite z b s m e :
  is_zero z = true → Prim2SF b = S754_finite s m e →
  (abs z <=? abs b)%float = true ∧ (abs b <=? abs z)%float = false.
Proof.
  intros [sz Hz]%is_zero_inv Hb. by rw !leb_spec !abs_spec Hz Hb.
Qed.

Lemma leb_abs_finite_cases a b sa ma ea sb mb eb :
  Prim2SF a = S754_finite sa ma ea → Prim2SF b = S754_finite sb mb eb →
  ((abs b <=? abs a)%float = true ∧ (abs a <=? abs b)%float = false) ∨
  ((abs b <=? abs a)%float = false ∧ (abs a <=? abs b)%float = true) ∨
  ((abs b <=? abs a)%float = true ∧ (abs a <=? abs b)%float = true ∧
   ma = mb ∧ ea = eb).
Proof.
  intros Ha Hb. rw !leb_spec !abs_spec Ha Hb /SFleb /SFcompare /=.
  rw (Z.compare_antisym eb ea).
  destruct (Z.compare_spec eb ea) as [He|He|He]; simpl; [|by eauto..].
  change (Pos.compare_cont Eq ma mb) with (Pos.compare ma mb).
  change (Pos.compare_cont Eq mb ma) with (Pos.compare mb ma).
  rw (Pos.compare_antisym mb ma).
  destruct (Pos.compare_spec mb ma) as [Hm|Hm|Hm]; simpl.
  - right; right. by split_and!.
  - by left.
  - right; left. by split.
Qed.

(** A finite float and its opposite add up to [+0.0]. *)
Lemma add_opposite a b sa m e :
  Prim2SF a = S754_finite sa m e → Prim2SF b = S754_finite (negb sa) m e →
  (a + b)%float = 0%float.
Proof.
  intros Ha Hb. apply Prim2SF_inj. rw add_spec Ha Hb /SF64add /SFadd.
  set (z := (cond_Zopp sa _ + cond_Zopp (negb sa) _)%Z).
  assert (z = 0%Z) as -> by (rw /z; destruct sa; simpl; lia).
  done.
Qed.

Ltac is_zero_tac :=
  repeat first
    [ done
    | eassumption
    | by eapply sub_diag_finite
    | apply is_zero_add ].

(** When the total is not finite, neither is the compensation, and the
    total is returned.  When it is finite and one of the two floats is a
    zero, the compensation is a zero.  Of two finite floats that are not
    zeros, the one of larger absolute value takes the same place in the
    compensation in both orders; when the absolute values are equal the
    floats are equal, or opposite with a compensation of zero. *)
Lemma neumaier_swap a b :
  neumaier [b] (0 + a)%float 0%float = neumaier [a] (0 + b)%float 0%float.
Proof.
  change (neumaier [b] (0 + a)%float 0%float) with
    (neumaier [] (0 + a + b)%float
       (if (abs b <=? abs (0 + a))%float
        then (0 + (((0 + a) - (0 + a + b)) + b))%float
        else (0 + ((b - (0 + a + b)) + (0 + a)))%float)).
  change (neumaier [a] (0 + b)%float 0%float) with
    (neumaier [] (0 + b + a)%float
       (if (abs a <=? abs (0 + b))%float
        then (0 + (((0 + b) - (0 + b + a)) + a))%float
        else (0 + ((a - (0 + b + a)) + (0 + b)))%float)).
  rw -(zero_add_swap a b).
  destruct (is_finite (0 + a + b)) eqn:Ht.
  2:{ rw !neumaier_nil_not_finite;
        first [reflexivity | by apply compensation_not_finite]. }
  destruct (add_finite_inv _ _ Ht) as [[_ Ha]%add_finite_inv Hb].
  destruct (is_finite_inv a Ha) as [[sa Ea]|(sa & ma & ea & Ea)],
    (is_finite_inv b Hb) as [[sb Eb]|(sb & mb & eb & Eb)].
  - apply is_zero_intro, zero_cases in Ea, Eb.
    by destruct Ea as [-> | ->], Eb as [-> | ->].
  - pose proof (is_zero_intro _ _ Ea) as Hz.
    destruct (leb_abs_zero_finite a b _ _ _ Hz Eb) as [H1 _].
    destruct (leb_abs_zero_finite 0 b _ _ _ eq_refl Eb) as [_ H2].
    rw (add_zero_zero a Hz) (add_zero_l_finite b _ _ _ Eb) H1 H2.
    rw !neumaier_nil_zero; first [reflexivity | is_zero_tac].
  - pose proof (is_zero_intro _ _ Eb) as Hz.
    destruct (leb_abs_zero_finite b a _ _ _ Hz Ea) as [H1 _].
    destruct (leb_abs_zero_finite 0 a _ _ _ eq_refl Ea) as [_ H2].
    rw (add_zero_zero b Hz) (add_zero_l_finite a _ _ _ Ea).
    rw (add_finite_zero a b _ _ _ Ea Hz) H1 H2.
    rw !neumaier_nil_zero; first [reflexivity | is_zero_tac].
  - rw (add_zero_l_finite a _ _ _ Ea) (add_zero_l_finite b _ _ _ Eb).
    destruct (leb_abs_finite_cases a b _ _ _ _ _ _ Ea Eb)
      as [[-> ->]|[[-> ->]|(-> & -> & <- & <-)]]; [done..|].
    destruct (decide (sb = sa)) as [->|Hs].
    + assert (a = b) as -> by (apply Prim2SF_inj; by rw Ea Eb).
      done.
    + assert (sb = negb sa) as -> by by destruct sa, sb.
      assert (a ≠ neg_zero ∧ b ≠ neg_zero) as [Hna Hnb].
      { split; intros ->; [by vm_compute in Ea|by vm_compute in Eb]. }
      assert ((b + a)%float = 0%float) as Hba.
      { apply (add_opposite b a (negb sa) ma ea); [done|].
        by rw negb_involutive. }
      rw (add_opposite a b _ _ _ Ea Eb).
      rw (sub_zero_eq a 0) // (sub_zero_eq b 0) //.
      by rw (add_opposite a b _ _ _ Ea Eb) Hba.
Qed.

Lemma builtin_sum_swap L a b : builtin_sum L [a; b] = builtin_sum L [b; a].
Proof.
  rw /builtin_sum. destruct (sum_compensated L).
  - apply neumaier_swap.
  - apply zero_add_swap.
Qed.

End BuiltinSum.

(** ** Basic facts about the model *)

Lemma set_weights_same m : set_weights (weights m) m = m.
Proof. by destruct m. Qed.

Lemma weights_getitem_run k m :
  weights_getitem k m =
  (Ok (weight_of (weights m) k), set_weights (touch 0%float (weights m) k) m).
Proof.
  rw /weights_getitem /touch /weight_of /defaultdict_getitem.
  by destruct (weights m !! k).
Qed.

Lemma fcounts_getitem_run k m :
  fcounts_getitem k m =
  (Ok (count_of (fcounts m) k), set_fcounts (touch 0%N (fcounts m) k) m).
Proof.
  rw /fcounts_getitem /touch /count_of /defaultdict_getitem.
  by destruct (fcounts m !! k).
Qed.

Lemma lookup_touch {V} (dflt : V) (d : gmap string V) k k' :
  touch dflt d k !! k' =
  if decide (k = k') then Some (default dflt (d !! k)) else d !! k'.
Proof.
  rw /touch /defaultdict_getitem.
  destruct (d !! k) as [v|] eqn:E; simpl.
  - case_decide; by subst.
  - rw lookup_insert. by case_decide.
Qed.

Lemma weight_of_touch w k k' :
  weight_of (touch 0%float w k) k' = weight_of w k'.
Proof. rw /weight_of lookup_touch. case_decide; by subst. Qed.

Lemma products_touch w k features :
  products (touch 0%float w k) features = products w features.
Proof.
  rw /products. apply map_ext. intros [k' x]. by rw /= weight_of_touch.
Qed.

Lemma read_products_run features m :
  read_products features m =
  (Ok (products (weights m) features),
   set_weights (touch_all features (weights m)) m).
Proof.
  revert m. induction features as [|[k x] rest IH]; intros m.
  - by rw /= set_weights_same.
  - rw /= /mbind /M_bind /bind weights_getitem_run IH /=.
    by rw products_touch.
Qed.

Lemma sum_products_run L features m :
  sum_products L features m =
  (Ok (dot_product L (weights m) features),
   set_weights (touch_all features (weights m)) m).
Proof. by rw /sum_products /mbind /M_bind /bind read_products_run. Qed.

(** Under the [sum] of CPython up to 3.11 the dot product is [dot], and
    under the later one it is [dot_compensated]. *)
Lemma fold_left_add_dot w features acc :
  fold_left PrimFloat.add (products w features) acc = dot w features acc.
Proof.
  revert acc. induction features as [|[k x] rest IH]; intros acc; [done|].
  apply IH.
Qed.

Lemma dot_product_plain L w features :
  sum_compensated L = false → dot_product L w features = dot w features 0.
Proof.
  intros E. rw /dot_product /builtin_sum E. apply fold_left_add_dot.
Qed.

Lemma dot_product_compensated L w features :
  sum_compensated L = true →
  dot_product L w features = dot_compensated w features.
Proof. intros E. by rw /dot_product /builtin_sum E. Qed.

Lemma dot_product_nil L w : dot_product L w [] = 0%float.
Proof. rw /dot_product /builtin_sum /=. by destruct (sum_compensated L). Qed.

Lemma halflife_run L features base m :
  halflife L features base m =
  (halflife_of_dot L base (dot_product L (weights m) features),
   set_weights (touch_all features (weights m)) m).
Proof.
  rw /halflife /try_except /mbind /M_bind /bind sum_products_run.
  rw /halflife_of_dot /lift /mret /M_ret /ret.
  destruct (float_pow L base _) as [r|e]; [done|].
  by destruct (handled_by_halflife e).
Qed.

Lemma predict_run L features delta_days base m :
  predict L features delta_days base m =
  (h ← halflife_of_dot L base (dot_product L (weights m) features);
   recall_of_halflife L 2.0%float delta_days h,
   set_weights (touch_all features (weights m)) m).
Proof.
  rw /predict /mbind /M_bind /bind halflife_run /recall_of_halflife.
  rw /mbind /result_bind /lift /mret /M_ret /ret.
  destruct (halflife_of_dot L base _) as [h|e]; [|done].
  destruct (truediv _ h) as [q|e]; [|done].
  by destruct (float_pow L _ q).
Qed.

Lemma lookup_touch_all features w k :
  touch_all features w !! k =
  if bool_decide (k ∈ features.*1) then Some (weight_of w k) else w !! k.
Proof.
  revert w. induction features as [|[k' x] rest IH]; intros w; simpl.
  - done.
  - rw IH weight_of_touch lookup_touch.
    destruct (decide (k' = k)) as [->|Hne].
    + rw (bool_decide_eq_true_2 (k ∈ k :: rest.*1)); first by left.
      by case_bool_decide.
    + case_bool_decide as H1; case_bool_decide as H2; try done.
      * exfalso. apply H2. by right.
      * exfalso. apply elem_of_cons in H2 as [?|?]; [by subst|done].
Qed.

(** ** Export and import of the weights *)

Lemma load_weights_get_weights m : load_weights (get_weights m) m = m.
Proof.
  rw /load_weights /get_weights (right_id_L ∅ (∪)).
  apply set_weights_same.
Qed.

(** C7: exporting the weights and importing the exported mapping gives back
    the very same model, so every later [predict], on any feature vector, any
    elapsed time and any base, returns what it would have returned without
    the round trip (and leaves the same model behind). *)
Theorem export_import_round_trip L m features delta_days base :
  load_weights (get_weights m) m = m ∧
  predict L features delta_days base (load_weights (get_weights m) m) =
  predict L features delta_days base m.
Proof. split; by rw load_weights_get_weights. Qed.

(** C8: after [load_weights w], reading the weight of a name gives [w]'s
    value when the name is in [w] and the default [0.0] when it is not,
    whatever the model held before; the exported mapping is [w]; and the
    count mapping is the one from before the call. *)
Theorem load_weights_replaces_weights_only w m k :
  fst (weights_getitem k (load_weights w m)) =
    Ok (match w !! k with Some v => v | None => 0%float end) ∧
  get_weights (load_weights w m) = w ∧
  fcounts (load_weights w m) = fcounts m.
Proof.
  rw weights_getitem_run /load_weights /get_weights /weight_of /=.
  rw (right_id_L ∅ (∪)). by destruct (w !! k).
Qed.

(** ** predict *)

(** C4 fails on the code.  On a fresh model, a name that was never seen is
    absent from the exported weights before [predict] and present, with
    weight [0.0], after it. *)
Lemma predict_adds_unseen_names :
  get_weights default_model !! "new" = None ∧
  get_weights (snd (predict ref_libm [("new", 1.0%float)] 1 2 default_model))
    !! "new" = Some 0%float.
Proof. split; vm_compute; reflexivity. Qed.

(** C4 fails on the code, for every model and every vector: the extent of
    the defect.  [self.weights] is a [defaultdict], and reading
    [self.weights[k]] enters a missing key.  So [predict], which the
    specification calls pure and the docstrings call stateless, enters every
    name of the feature vector into the weight mapping, a name that was
    missing with [0.0] and a name that was present with the value it had.
    It changes nothing else: the counts and the hyperparameters stay, and no
    weight reads differently after it.  This holds whether [predict] returns
    or raises. *)
Theorem predict_only_enters_default_weights L features delta_days base m k :
  let m' := snd (predict L features delta_days base m) in
  fcounts m' = fcounts m ∧
  (omit_h_term m', lrate m', hlwt m', l2wt m', sigma m') =
    (omit_h_term m, lrate m, hlwt m, l2wt m, sigma m) ∧
  weight_of (get_weights m') k = weight_of (get_weights m) k ∧
  get_weights m' !! k =
    if bool_decide (k ∈ features.*1) then Some (weight_of (get_weights m) k)
    else get_weights m !! k.
Proof.
  rw predict_run /get_weights /=. split_and!; try done.
  - rw /weight_of lookup_touch_all. by case_bool_decide.
  - apply lookup_touch_all.
Qed.

(** C5, as stated, fails: with base 3, the empty vector and one elapsed day,
    [predict] returns the recall [2 ** -1 = 0.5], where the exponential in
    base 3 would give [3 ** -1]. *)
Lemma predict_recall_ignores_base :
  fst (predict ref_libm [] 1 3 default_model) = Ok (0.5%float, 1%float) ∧
  fst (predict_in_base ref_libm [] 1 3 default_model) =
    Ok (0.33333333333333331%float, 1%float) ∧
  (0.5 =? 0.33333333333333331)%float = false.
Proof. split_and!; vm_compute; reflexivity. Qed.

(** C5, amended: the half-life that [predict] returns is
    [halflife features base], and the recall is the clipped exponential
    [2.0 ** (- delta_days / half_life)]: its base is the constant two, whatever
    base is passed. *)
Theorem predict_recall_in_base_two L features delta_days base m :
  fst (predict L features delta_days base m) =
  (h ← fst (halflife L features base m);
   q ← truediv (- delta_days)%float h;
   p ← float_pow L 2.0%float q;
   Ok (pclip p, h)).
Proof. by rw predict_run halflife_run. Qed.

(** X1: what the clipping does achieve.  Whenever [predict] returns, a
    half-life that is not NaN lies in [[MIN_HALF_LIFE, MAX_HALF_LIFE]] and a
    recall that is not NaN lies in [[0.0001, 0.9999]], for every base, every
    elapsed time and every C library. *)
Lemma predict_in_range_unless_nan L features delta_days base m p h :
  fst (predict L features delta_days base m) = Ok (p, h) →
  (is_nan h = false →
   (MIN_HALF_LIFE <=? h)%float = true ∧ (h <=? MAX_HALF_LIFE)%float = true) ∧
  (is_nan p = false →
   (0.0001 <=? p)%float = true ∧ (p <=? 0.9999)%float = true).
Proof.
  rw predict_run /= /mbind /result_bind /halflife_of_dot /recall_of_halflife.
  rw /mbind /result_bind.
  assert (is_nan h = false →
          (∃ r, h = hclip r) ∨ h = MAX_HALF_LIFE →
          (MIN_HALF_LIFE <=? h)%float = true ∧
          (h <=? MAX_HALF_LIFE)%float = true) as Hh.
  { intros Hnan [[r ->]| ->]; [|by vm_compute].
    apply clip_in_range; [by vm_compute|by eapply clip_nan]. }
  assert (∀ p0, is_nan (pclip p0) = false →
          (0.0001 <=? pclip p0)%float = true ∧
          (pclip p0 <=? 0.9999)%float = true) as Hp.
  { intros p0 Hnan.
    apply clip_in_range; [by vm_compute|by eapply clip_nan]. }
  destruct (float_pow L base _) as [r|e].
  - destruct (truediv _ (hclip r)) as [q|e]; [|done].
    destruct (float_pow L 2 q) as [p0|e]; [|done].
    intros [= <- <-]. split; [|by apply Hp]. intros Hnan. apply Hh; eauto.
  - destruct (handled_by_halflife e); [|done].
    destruct (truediv _ MAX_HALF_LIFE) as [q|e']; [|done].
    destruct (float_pow L 2 q) as [p0|e']; [|done].
    intros [= <- <-]. split; [|by apply Hp]. intros Hnan. apply Hh; eauto.
Qed.

(** The fresh model, one feature and one elapsed day: the prediction is
    [(0.5, 1.0)]. *)
Lemma predict_in_range_unless_nan_witness :
  fst (predict ref_libm bias_vector 1 2 default_model) = Ok (0.5%float, 1%float) ∧
  (is_nan 1 = false →
   (MIN_HALF_LIFE <=? 1)%float = true ∧ (1 <=? MAX_HALF_LIFE)%float = true) ∧
  (is_nan 0.5 = false →
   (0.0001 <=? 0.5)%float = true ∧ (0.5 <=? 0.9999)%float = true).
Proof.
  assert (fst (predict ref_libm bias_vector 1 2 default_model) =
          Ok (0.5%float, 1%float)) as H by (vm_compute; reflexivity).
  split; [exact H|].
  exact (predict_in_range_unless_nan _ _ _ _ _ _ _ H).
Defined.

(** C2 fails on the code: with the weight [1e308] for ["a"] and the vector
    [("a", 10.0); ("a", -10.0)], the products are [inf] and [-inf], their sum
    is NaN, and NaN passes through both [hclip] and [pclip]: [predict]
    returns [(nan, nan)], for every C library. *)
Theorem predict_nan_escapes_clipping L :
  fst (predict L cancelling_vector 1 2 huge_weight_model) = Ok (nan, nan).
Proof. destruct L as [pw lg []]; vm_compute; reflexivity. Qed.

(** C9, as stated, fails.  With weight [1.0] for ["a"], the values
    [1e308, 1e308, -1e308, -1e308] sum to [inf] from left to right (half-life
    274), and the same values in the order [1e308, -1e308, 1e308, -1e308]
    sum to [0.0] (half-life 1).  The compensated [sum] of the later
    interpreters gives the same two sums. *)
Lemma predict_depends_on_order :
  overflowing_vector ≡ₚ overflowing_vector_reordered ∧
  fst (predict ref_libm overflowing_vector 0 2 unit_weight_model) =
    Ok (0.9999%float, 274%float) ∧
  fst (predict ref_libm overflowing_vector_reordered 0 2 unit_weight_model) =
    Ok (0.9999%float, 1%float) ∧
  fst (predict ref_libm_compensated overflowing_vector 0 2
         unit_weight_model) = Ok (0.9999%float, 274%float) ∧
  fst (predict ref_libm_compensated overflowing_vector_reordered 0 2
         unit_weight_model) = Ok (0.9999%float, 1%float).
Proof.
  split_and!; [|vm_compute; reflexivity..].
  rw /overflowing_vector /overflowing_vector_reordered.
  apply perm_skip, perm_swap.
Qed.

Lemma dot_product_permutation_short L w
    (features features' : list (string * float)) :
  features ≡ₚ features' → (length features ≤ 2)%nat →
  dot_product L w features = dot_product L w features'.
Proof.
  intros Hperm Hlen.
  destruct features as [|[k1 x1] [|[k2 x2] [|? ?]]]; [..|simpl in Hlen; lia].
  - by apply Permutation_nil in Hperm as ->.
  - by apply Permutation_length_1_inv in Hperm as ->.
  - apply Permutation_length_2_inv in Hperm as [->| ->]; [done|].
    apply builtin_sum_swap.
Qed.

(** C9, amended: [predict] depends on the feature vector only through the
    float that [sum] makes of the products [weight * value].  A permutation
    of the vector that leaves this float the same leaves the pair the same,
    and every permutation of a vector of at most two pairs does, whether
    [sum] adds with compensation or without. *)
Theorem predict_permutation_same_dot L m features features' delta_days base :
  features ≡ₚ features' →
  (length features ≤ 2)%nat ∨
  dot_product L (weights m) features = dot_product L (weights m) features' →
  fst (predict L features delta_days base m) =
  fst (predict L features' delta_days base m).
Proof.
  intros Hperm Hdot.
  assert (dot_product L (weights m) features =
          dot_product L (weights m) features') as E.
  { destruct Hdot as [Hlen|E]; [|done]. by apply dot_product_permutation_short. }
  by rw !predict_run /= E.
Qed.

(** Three pairs whose sum is exact in both orders, under the compensated
    [sum]. *)
Lemma predict_permutation_same_dot_witness :
  ascending_vector ≡ₚ descending_vector ∧
  dot_product ref_libm_compensated (weights unit_weight_model)
    ascending_vector =
  dot_product ref_libm_compensated (weights unit_weight_model)
    descending_vector ∧
  fst (predict ref_libm_compensated ascending_vector 1 2 unit_weight_model) =
  fst (predict ref_libm_compensated descending_vector 1 2 unit_weight_model).
Proof.
  assert (ascending_vector ≡ₚ descending_vector) as Hperm.
  { rw /ascending_vector /descending_vector.
    etrans; [apply perm_swap|]. etrans; [apply perm_skip, perm_swap|].
    apply perm_swap. }
  assert (dot_product ref_libm_compensated (weights unit_weight_model)
            ascending_vector =
          dot_product ref_libm_compensated (weights unit_weight_model)
            descending_vector) as Hdot
    by (vm_compute; reflexivity).
  split_and!; [done..|].
  exact (predict_permutation_same_dot ref_libm_compensated unit_weight_model
           _ _ 1 2 Hperm (or_intror Hdot)).
Defined.

(** ** train_update *)

Lemma weight_of_insert w k v : weight_of (<[k := v]> w) k = v.
Proof. by rw /weight_of lookup_insert_eq. Qed.

Lemma count_of_insert c k v : count_of (<[k := v]> c) k = v.
Proof. by rw /count_of lookup_insert_eq. Qed.

Lemma touch_insert {V} (dflt v : V) d k :
  touch dflt (<[k := v]> d) k = <[k := v]> d.
Proof. by rw /touch /defaultdict_getitem lookup_insert_eq. Qed.

Lemma insert_touch {V} (dflt v : V) d k :
  <[k := v]> (touch dflt d k) = <[k := v]> d.
Proof.
  rw /touch /defaultdict_getitem.
  destruct (d !! k); [done|]. by rw /= insert_insert_eq.
Qed.

Lemma count_of_touch c k k' : count_of (touch 0%N c k) k' = count_of c k'.
Proof. rw /count_of lookup_touch. case_decide; by subst. Qed.

Ltac model_simpl :=
  repeat progress
    (rw ?weights_getitem_run ?fcounts_getitem_run /weights_setitem
        /fcounts_setitem /set_weights /set_fcounts /=
        ?weight_of_insert ?count_of_insert ?count_of_touch ?touch_insert
        ?insert_touch ?insert_insert_eq).

(** One turn of the loop does to the model what the specification's step
    does, and raises what it raises. *)
Lemma train_step_run L ar dlp dlh m k x :
  match spec_feature_update L ar dlp dlh m (k, x) with
  | Ok m' => train_step L ar dlp dlh (k, x) m = (Ok tt, m')
  | Raise e => fst (train_step L ar dlp dlh (k, x) m) = Raise e
  end.
Proof.
  rw /spec_feature_update /spec_rate /l2_term /train_step.
  rw /mbind /M_bind /result_bind /bind /lift /get_field.
  rw /recall_term /half_life_term /mret /M_ret /ret.
  destruct (truediv 1 _) as [a|e]; [|done].
  model_simpl.
  destruct (math_sqrt_int _) as [s|e]; [|done].
  destruct (truediv (a * _) s) as [rate|e]; [|done].
  destruct (omit_h_term m) eqn:Homit; model_simpl;
    (destruct (float_pow L (sigma m) 2) as [sg2|e]; [|done]);
    (destruct (truediv _ sg2) as [t|e]; [|done]);
    model_simpl; by rw ?Homit.
Qed.

Arguments train_step : simpl never.
Arguments spec_feature_update : simpl never.
Arguments step_terms : simpl never.
Arguments predict : simpl never.

Lemma for_each_train_step_run L ar dlp dlh features m :
  match spec_updates L ar dlp dlh features m with
  | Ok m' => for_each features (train_step L ar dlp dlh) m = (Ok tt, m')
  | Raise e => fst (for_each features (train_step L ar dlp dlh) m) = Raise e
  end.
Proof.
  revert m. induction features as [|[k x] rest IH]; intros m; [done|].
  rw /= /mbind /result_bind /bind.
  pose proof (train_step_run L ar dlp dlh m k x) as Hstep.
  destruct (spec_feature_update L ar dlp dlh m (k, x)) as [m1|e].
  - rw Hstep. apply IH.
  - destruct (train_step L ar dlp dlh (k, x) m) as [r s].
    simpl in Hstep. by subst r.
Qed.

(** [train_update] is a prediction, the two coefficients, and the loop. *)
Lemma train_update_unfold L features delta_days ar ahl m :
  train_update L features delta_days ar ahl m =
  match predict L features delta_days 2.0%float m with
  | (Ok (p, h), m1) =>
      match spec_coefficients L delta_days ar ahl p h with
      | Ok (dlp, dlh) => for_each features (train_step L ar dlp dlh) m1
      | Raise e => (Raise e, m1)
      end
  | (Raise e, m1) => (Raise e, m1)
  end.
Proof.
  rw /train_update /spec_coefficients /spec_target_half_life.
  rw /mbind /M_bind /result_bind /bind /lift /mret /M_ret /ret.
  destruct (predict L features delta_days 2 m) as [[[p h]|e] m1]; [|done].
  destruct ahl as [a|].
  - destruct (float_pow L LN2 2) as [ln2sq|e]; [|done].
    by destruct (truediv delta_days h).
  - destruct ((0.0001 <? ar)%float && (0 <? delta_days)%float).
    + destruct (math_log2 L ar) as [l|e]; [|done].
      destruct (truediv (- delta_days) l) as [q|e]; [|done].
      destruct (float_pow L LN2 2) as [ln2sq|e]; [|done].
      by destruct (truediv delta_days h).
    + destruct (float_pow L LN2 2) as [ln2sq|e]; [|done].
      by destruct (truediv delta_days h).
Qed.

(** C1: [train_update] does what the specification's sequence does.
    [spec_train_update] takes the prediction [(p, h)] made before any update,
    computes [dlp] and [dlh] from it, and then, for each pair in the order
    of the vector, computes the rate from the current count, subtracts the
    recall term, then (unless omitted) the half-life term, then the L2 term
    computed from the weight these subtractions gave, and increments the
    count.  When that sequence ends in a model, [train_update] returns and
    leaves exactly that model; when it raises, [train_update] raises the
    same exception.  This holds for every feature vector, the non-empty
    ones in particular. *)
Theorem train_update_performs_spec_sequence L features delta_days ar ahl m :
  match spec_train_update L features delta_days ar ahl m with
  | Ok m' => train_update L features delta_days ar ahl m = (Ok tt, m')
  | Raise e => fst (train_update L features delta_days ar ahl m) = Raise e
  end.
Proof.
  rw train_update_unfold /spec_train_update.
  destruct (predict L features delta_days 2 m) as [[[p h]|e] m1]; [|done].
  rw /mbind /result_bind.
  destruct (spec_coefficients L delta_days ar ahl p h) as [[dlp dlh]|e];
    [|done].
  apply for_each_train_step_run.
Qed.

(** C3 fails on the code.  With no observed half-life, a positive elapsed
    time and [actual_recall = 1.0], the estimate divides by
    [math.log2(1.0) = 0.0]: once the prediction has been made, [train_update]
    raises [ZeroDivisionError], on every feature vector and every model. *)
Theorem train_update_raises_at_perfect_recall L features delta_days m :
  libm_log2 L 1 = 0%float →
  (0 <? delta_days)%float = true →
  match fst (predict L features delta_days 2 m) with
  | Ok _ =>
      fst (train_update L features delta_days 1 None m) =
      Raise ZeroDivisionError
  | Raise e => fst (train_update L features delta_days 1 None m) = Raise e
  end.
Proof.
  intros Hlog Hpos. rw train_update_unfold.
  destruct (predict L features delta_days 2 m) as [[[p h]|e] m1]; [|done].
  rw /spec_coefficients /spec_target_half_life Hpos /=.
  by rw /math_log2 /math_1 /m_log2 /= Hlog.
Qed.

(** The premises hold for the reference library, one elapsed day and a
    fresh model. *)
Lemma train_update_raises_at_perfect_recall_witness :
  libm_log2 ref_libm 1 = 0%float ∧
  (0 <? 1)%float = true ∧
  fst (train_update ref_libm bias_vector 1 1 None default_model) =
  Raise ZeroDivisionError.
Proof.
  split_and!; [vm_compute; reflexivity..|].
  generalize (train_update_raises_at_perfect_recall ref_libm bias_vector 1
                default_model eq_refl eq_refl).
  vm_compute. exact (fun H => H).
Defined.

(** *** What one step changes *)

Lemma spec_feature_update_inv L ar dlp dlh m k x m' :
  spec_feature_update L ar dlp dlh m (k, x) = Ok m' →
  ∃ t1 t2 t3,
    step_terms L ar dlp dlh m (k, x) = Ok (t1, t2, t3) ∧
    m' = set_fcounts (<[k := (count_of (fcounts m) k + 1)%N]> (fcounts m))
           (set_weights
              (<[k := (sub_opt (weight_of (weights m) k - t1) t2 - t3)%float]>
                 (weights m)) m).
Proof.
  rw /spec_feature_update /step_terms /mbind /result_bind.
  destruct (spec_rate m ar _) as [rate|e]; [|done].
  destruct (omit_h_term m); simpl;
    (destruct (l2_term L m rate _) as [t|e]; [|done]);
    intros [= <-]; by eexists _, _, _.
Qed.

Lemma spec_feature_update_hypers L ar dlp dlh m k x m' :
  spec_feature_update L ar dlp dlh m (k, x) = Ok m' → hypers m' = hypers m.
Proof. by intros (t1 & t2 & t3 & _ & ->)%spec_feature_update_inv. Qed.

Lemma spec_feature_update_count L ar dlp dlh m k' x m' k :
  spec_feature_update L ar dlp dlh m (k', x) = Ok m' →
  count_of (fcounts m') k =
  (count_of (fcounts m) k + (if decide (k' = k) then 1 else 0))%N.
Proof.
  intros (t1 & t2 & t3 & _ & ->)%spec_feature_update_inv.
  rw /= /count_of lookup_insert. case_decide; [by subst|]. by rw N.add_0_r.
Qed.

Lemma spec_feature_update_other L ar dlp dlh m k' x m' k :
  spec_feature_update L ar dlp dlh m (k', x) = Ok m' → k' ≠ k →
  weight_of (weights m') k = weight_of (weights m) k.
Proof.
  intros (t1 & t2 & t3 & _ & ->)%spec_feature_update_inv Hne.
  by rw /= /weight_of lookup_insert_ne.
Qed.

(** The terms of a step depend on the model through the hyperparameters and
    through the weight and the count of the name. *)
Lemma step_terms_ext L ar dlp dlh m1 m2 k x :
  hypers m1 = hypers m2 →
  weight_of (weights m1) k = weight_of (weights m2) k →
  count_of (fcounts m1) k = count_of (fcounts m2) k →
  step_terms L ar dlp dlh m1 (k, x) = step_terms L ar dlp dlh m2 (k, x).
Proof.
  rw /hypers /step_terms /spec_rate /l2_term /half_life_term.
  by intros [= -> -> -> -> ->] -> ->.
Qed.

(** *** What the loop changes *)

Lemma spec_updates_count L ar dlp dlh features m m' k :
  spec_updates L ar dlp dlh features m = Ok m' →
  count_of (fcounts m') k = (count_of (fcounts m) k + occurrences k features)%N.
Proof.
  revert m. induction features as [|[k' x] rest IH]; intros m; simpl.
  - intros [= ->]. by rw N.add_0_r.
  - rw /mbind /result_bind.
    destruct (spec_feature_update L ar dlp dlh m (k', x)) as [m1|e] eqn:E;
      [|done].
    intros ->%IH. rw (spec_feature_update_count _ _ _ _ _ _ _ _ k E). lia.
Qed.

Lemma spec_updates_absent L ar dlp dlh features m m' k :
  spec_updates L ar dlp dlh features m = Ok m' →
  occurrences k features = 0%N →
  weight_of (weights m') k = weight_of (weights m) k.
Proof.
  revert m. induction features as [|[k' x] rest IH]; intros m; simpl.
  - by intros [= ->].
  - rw /mbind /result_bind.
    destruct (spec_feature_update L ar dlp dlh m (k', x)) as [m1|e] eqn:E;
      [|done].
    intros Hrest Hocc. case_decide as Hk; [lia|].
    rw (IH _ Hrest); [lia|]. by eapply spec_feature_update_other.
Qed.

Lemma spec_updates_once L ar dlp dlh features m m' k x :
  spec_updates L ar dlp dlh features m = Ok m' →
  occurrences k features = 1%N → (k, x) ∈ features →
  ∃ t1 t2 t3,
    step_terms L ar dlp dlh m (k, x) = Ok (t1, t2, t3) ∧
    weight_of (weights m') k =
    (sub_opt (weight_of (weights m) k - t1) t2 - t3)%float.
Proof.
  revert m. induction features as [|[k' x'] rest IH]; intros m; simpl.
  - by intros _ _ ?%elem_of_nil.
  - rw /mbind /result_bind.
    destruct (spec_feature_update L ar dlp dlh m (k', x')) as [m1|e] eqn:E;
      [|done].
    intros Hrest Hocc Hin. case_decide as Hk.
    + subst k'. assert (occurrences k rest = 0%N) as Hnone by lia.
      assert (x' = x) as ->.
      { apply elem_of_cons in Hin as [[= ->]|Hin]; [done|].
        exfalso. clear -Hnone Hin.
        induction rest as [|[k'' x''] rest IH]; [by apply elem_of_nil in Hin|].
        simpl in Hnone. case_decide as Hk.
        - lia.
        - apply elem_of_cons in Hin as [[= ? ?]|Hin]; [done|].
          apply IH; [done|lia]. }
      rw (spec_updates_absent _ _ _ _ _ _ _ _ Hrest Hnone).
      apply spec_feature_update_inv in E as (t1 & t2 & t3 & Ht & ->).
      exists t1, t2, t3. split; [done|]. by rw /= weight_of_insert.
    + apply elem_of_cons in Hin as [[= ? ?]|Hin]; [done|].
      destruct (IH _ Hrest) as (t1 & t2 & t3 & Ht & Hw); [lia|done|].
      exists t1, t2, t3.
      split; [|by rw Hw (spec_feature_update_other _ _ _ _ _ _ _ _ _ E Hk)].
      rw -Ht. symmetry. apply step_terms_ext.
      * by eapply spec_feature_update_hypers.
      * by eapply spec_feature_update_other.
      * rw (spec_feature_update_count _ _ _ _ _ _ _ _ k E).
        case_decide; [done|lia].
Qed.

Lemma train_update_ok_inv L features delta_days ar ahl m m' :
  train_update L features delta_days ar ahl m = (Ok tt, m') →
  ∃ dlp dlh m1,
    train_coefficients L features delta_days ar ahl m = Ok (dlp, dlh) ∧
    m1 = set_weights (touch_all features (weights m)) m ∧
    spec_updates L ar dlp dlh features m1 = Ok m'.
Proof.
  rw train_update_unfold /train_coefficients.
  rw predict_run.
  destruct (_ ≫= _) as [[p h]|e]; [|done].
  destruct (spec_coefficients L delta_days ar ahl p h) as [[dlp dlh]|e];
    [|done].
  intros Hloop. eexists dlp, dlh, _. split_and!; [done..|].
  pose proof (for_each_train_step_run L ar dlp dlh features
                (set_weights (touch_all features (weights m)) m)) as Hrun.
  destruct (spec_updates L ar dlp dlh features _) as [m''|e].
  - rw Hrun in Hloop. by injection Hloop as ->.
  - by rw Hloop in Hrun.
Qed.

Lemma weight_of_touch_all features w k :
  weight_of (touch_all features w) k = weight_of w k.
Proof. rw /weight_of lookup_touch_all. by case_bool_decide. Qed.

Lemma all_zero_same_number w t1 t2 t3 :
  all_zero t1 t2 t3 = true →
  same_number (sub_opt (w - t1) t2 - t3) w.
Proof.
  rw /all_zero. intros [[H1 H2]%andb_prop H3]%andb_prop.
  apply same_number_sub_zero; [|done].
  destruct t2 as [t|]; simpl.
  - apply same_number_sub_zero; [|done]. by apply sub_zero.
  - by apply sub_zero.
Qed.

(** C6, as stated, fails twice.  A name that occurs twice in the vector has
    its count increased by two.  And with the default hyperparameters, the
    weight [1.0] of ["bias"], no elapsed time, a recall of [1.0] and an
    observed half-life of [5.60691794813], the weight after the call is
    [1.0] again although the half-life term and the L2 term are not zero:
    they cancel. *)
Lemma train_update_counts_twice_and_terms_cancel :
  (fst (train_update ref_libm repeated_vector 1 0.25 None default_model) = Ok tt ∧
   count_of (fcounts default_model) "a" = 0%N ∧
   count_of (fcounts (snd (train_update ref_libm repeated_vector 1 0.25 None
                             default_model))) "a" = 2%N) ∧
  (fst (train_update ref_libm bias_vector 0 1 (Some 5.60691794813%float)
          bias_weight_model) = Ok tt ∧
   weight_of (weights bias_weight_model) "bias" = 1%float ∧
   weight_of (weights (snd (train_update ref_libm bias_vector 0 1
                              (Some 5.60691794813%float) bias_weight_model)))
     "bias" = 1%float ∧
   (c ← train_coefficients ref_libm bias_vector 0 1 (Some 5.60691794813%float)
          bias_weight_model;
    step_terms ref_libm 1 c.1 c.2 bias_weight_model ("bias", 1.0%float)) =
   Ok ((-0)%float, Some (-5.0002500125147466e-05)%float,
       5.0002500125006255e-05%float)).
Proof. split_and!; vm_compute; reflexivity. Qed.

(** C6, amended: when a call of [train_update] returns, the count of every
    name has grown by the number of times the name occurs in the feature
    vector (by one when it occurs once, by nothing when it does not occur,
    and then its weight is untouched).  The weight of a name that occurs
    once, with value [x], becomes [w - t1 - t2 - t3], where [w] is its weight
    and [t1], [t2] (absent when the half-life term is omitted) and [t3] are
    the three terms computed from its count before the call; when the three
    terms are zero this is the number [w] again. *)
Theorem train_update_counts_occurrences L features delta_days ar ahl m m' k :
  train_update L features delta_days ar ahl m = (Ok tt, m') →
  count_of (fcounts m') k =
    (count_of (fcounts m) k + occurrences k features)%N ∧
  (occurrences k features = 0%N →
   weight_of (weights m') k = weight_of (weights m) k) ∧
  ∀ x, occurrences k features = 1%N → (k, x) ∈ features →
    ∃ dlp dlh t1 t2 t3,
      train_coefficients L features delta_days ar ahl m = Ok (dlp, dlh) ∧
      step_terms L ar dlp dlh m (k, x) = Ok (t1, t2, t3) ∧
      weight_of (weights m') k =
        (sub_opt (weight_of (weights m) k - t1) t2 - t3)%float ∧
      (all_zero t1 t2 t3 = true →
       same_number (weight_of (weights m') k) (weight_of (weights m) k)).
Proof.
  intros (dlp & dlh & m1 & Hc & -> & Hloop)%train_update_ok_inv.
  split_and!.
  - by rw (spec_updates_count _ _ _ _ _ _ _ k Hloop).
  - intros Hocc.
    by rw (spec_updates_absent _ _ _ _ _ _ _ _ Hloop Hocc) /=
          weight_of_touch_all.
  - intros x Hocc Hin.
    destruct (spec_updates_once _ _ _ _ _ _ _ _ _ Hloop Hocc Hin)
      as (t1 & t2 & t3 & Ht & Hw).
    rw /= weight_of_touch_all in Hw.
    exists dlp, dlh, t1, t2, t3. split_and!; [done| |done|].
    + rw -Ht. apply step_terms_ext; [done| |done].
      by rw /= weight_of_touch_all.
    + intros Hz. rw Hw. by apply all_zero_same_number.
Qed.

(** The premise holds for a name that occurs twice. *)
Lemma train_update_counts_occurrences_witness :
  let m' := snd (train_update ref_libm repeated_vector 1 0.25 None
                   default_model) in
  train_update ref_libm repeated_vector 1 0.25 None default_model =
    (Ok tt, m') ∧
  count_of (fcounts m') "a" =
    (count_of (fcounts default_model) "a" + occurrences "a" repeated_vector)%N.
Proof.
  simpl.
  assert (train_update ref_libm repeated_vector 1 0.25 None default_model =
          (Ok tt, snd (train_update ref_libm repeated_vector 1 0.25 None
                         default_model))) as H
    by (vm_compute; reflexivity).
  split; [exact H|].
  exact (proj1 (train_update_counts_occurrences _ _ _ _ _ _ _ "a" H)).
Defined.

(** *** No elapsed time and no observed half-life *)

Lemma halflife_of_dot_finite L base dp h :
  halflife_of_dot L base dp = Ok h → is_nan h = false →
  ∃ s m e, Prim2SF h = S754_finite s m e.
Proof.
  rw /halflife_of_dot. destruct (float_pow L base dp) as [r|e].
  - intros [= <-]. apply hclip_finite.
  - destruct (handled_by_halflife e); [|done]. intros [= <-] _.
    by exists false, 4820258976169984%positive, (-44)%Z.
Qed.

Lemma float_pow_ln2_squared L :
  (0 <=? libm_pow L LN2 2)%float = true →
  (libm_pow L LN2 2 <=? 1)%float = true →
  float_pow L LN2 2 = Ok (libm_pow L LN2 2).
Proof.
  intros H0 H1.
  pose proof (mag_le_finite _ _ (unit_interval_mag _ H0 H1)) as Hfin.
  rw /is_finite in Hfin. apply negb_true_iff, orb_false_elim in Hfin as [_ Hinf].
  change (float_pow L LN2 2) with
    (if is_infinity (libm_pow L LN2 2) then Raise OverflowError
     else Ok (libm_pow L LN2 2) : result float).
  by rw Hinf.
Qed.

(** With no elapsed time the prediction has recall [0.9999], whatever the
    half-life, provided the half-life is not NaN. *)
Lemma predict_no_elapsed_time L features delta_days m p h m1 :
  is_zero delta_days = true →
  predict L features delta_days 2 m = (Ok (p, h), m1) →
  is_nan h = false →
  p = 0.9999%float ∧ ∃ s mh e, Prim2SF h = S754_finite s mh e.
Proof.
  intros Hdd Hpred Hnan. rw predict_run in Hpred.
  injection Hpred as Hres _. rw /mbind /result_bind in Hres.
  destruct (halflife_of_dot L 2 _) as [h0|e0] eqn:Hh0; [|done].
  rw /recall_of_halflife /mbind /result_bind /truediv in Hres.
  assert (is_nan h0 = false → ∃ s mh e, Prim2SF h0 = S754_finite s mh e)
    as Hfin by by eapply halflife_of_dot_finite.
  destruct (h0 =? 0)%float eqn:Hz; [done|].
  destruct (float_pow L 2 (- delta_days / h0)) as [p0|e1] eqn:Hp0; [|done].
  injection Hres as <- <-. destruct (Hfin Hnan) as (s & mh & e & Hh).
  split; [|by eauto].
  assert (is_zero (- delta_days / h0) = true) as Hq
    by (eapply div_zero_finite; [by apply opp_zero|done]).
  rw /float_pow in Hp0. rw /is_zero in Hq.
  change zero with 0%float in Hq. rw Hq in Hp0. by injection Hp0 as <-.
Qed.

Lemma coefficients_no_elapsed_time L delta_days ar h s mh e :
  is_zero delta_days = true →
  (0 <=? ar)%float = true → (ar <=? 1)%float = true →
  (0 <=? libm_pow L LN2 2)%float = true →
  (libm_pow L LN2 2 <=? 1)%float = true →
  Prim2SF h = S754_finite s mh e →
  ∃ z1 z2,
    is_zero z1 = true ∧ is_zero z2 = true ∧
    spec_coefficients L delta_days ar None 0.9999%float h = Ok (z1, z2).
Proof.
  intros Hdd Ha0 Ha1 Hl0 Hl1 Hh.
  rw /spec_coefficients /spec_target_half_life.
  rw (ltb_zero_zero _ Hdd) andb_false_r /mbind /result_bind.
  rw (float_pow_ln2_squared L Hl0 Hl1) /truediv (eqb_zero_finite _ _ _ _ Hh).
  eexists _, _. split_and!; [| |done].
  - apply mul_zero_r; [by apply recall_factor_finite|].
    by eapply div_zero_finite.
  - pose proof (finite_is_finite _ _ _ _ Hh) as Hfin.
    apply mul_zero_l; [|done]. apply mul_zero_l; [|done].
    apply mul_zero_r; [done|]. by eapply sub_diag_finite.
Qed.

(** With zero coefficients, a finite rate and a finite value, a step is the
    pure L2 shrinkage of the weight. *)
Lemma spec_feature_update_zero_coefficients L ar z1 z2 m k x rate :
  is_zero z1 = true → is_zero z2 = true →
  spec_rate m ar (count_of (fcounts m) k) = Ok rate →
  is_finite rate = true → is_finite x = true →
  omit_h_term m || is_finite (rate * hlwt m) = true →
  weight_of (weights m) k ≠ neg_zero →
  spec_feature_update L ar z1 z2 m (k, x) = l2_shrink_update L ar m (k, x).
Proof.
  intros Hz1 Hz2 Hrate Hfr Hfx Hhl Hw.
  rw /spec_feature_update /l2_shrink_update Hrate /mbind /result_bind.
  assert (is_zero (recall_term rate z1 x) = true) as Ht1.
  { rw /recall_term. apply mul_zero_l; [|done]. by apply mul_zero_r. }
  rw (sub_zero_eq _ _ Ht1 Hw).
  destruct (omit_h_term m); [done|]. simpl in Hhl.
  assert (is_zero (half_life_term m rate z2 x) = true) as Ht2.
  { rw /half_life_term. apply mul_zero_l; [|done]. by apply mul_zero_r. }
  by rw (sub_zero_eq _ _ Ht2 Hw).
Qed.

(** C10, as stated, fails.  The L2 step is the subtraction
    [w - rate * l2wt * w / sigma**2], and the product
    [w * (1 - rate * l2wt / sigma**2)] is a different float: with the weight
    [7.0] for ["bias"] and a recall of [0.5], the call leaves
    [6.9995333333333329] where the product is [6.9995333333333338].  And in
    a model whose prediction is NaN (the one of C2), the two coefficients
    are NaN, not zero. *)
Lemma l2_shrinkage_subtracts_and_nan_spreads :
  (fst (train_update ref_libm bias_vector 0 0.5 None seven_weight_model) =
     Ok tt ∧
   weight_of (weights (snd (train_update ref_libm bias_vector 0 0.5 None
                              seven_weight_model))) "bias" =
     6.9995333333333329%float ∧
   (rate ← spec_rate seven_weight_model 0.5 0;
    l2_scaled_weight ref_libm seven_weight_model rate 7) =
     Ok 6.9995333333333338%float) ∧
  train_coefficients ref_libm cancelling_vector 0 0.5 None huge_weight_model =
    Ok (nan, nan).
Proof. split_and!; vm_compute; reflexivity. Qed.

(** C10, amended.  Take no elapsed time, no observed half-life, a recall in
    [[0, 1]], a C library whose [pow(LN2, 2)] lies in [[0, 1]], and a model
    for which the prediction is not NaN.  Then both gradient coefficients
    are zeros, and [train_update] is the loop run with these zeros.  A step
    of that loop is the pure L2 shrinkage (the weight [w] becomes
    [w - rate * l2wt * w / sigma**2] and the count grows by one) when its
    rate and its feature value are finite, the product [rate * hlwt] is
    finite unless the half-life term is omitted, and the weight is not
    [-0.0].  (With an infinite [hlwt] the half-life term is [inf * 0], a
    NaN, and the weight becomes NaN.) *)
Theorem train_update_without_elapsed_time L features delta_days ar m p h m1 :
  is_zero delta_days = true →
  (0 <=? ar)%float = true → (ar <=? 1)%float = true →
  (0 <=? libm_pow L LN2 2)%float = true →
  (libm_pow L LN2 2 <=? 1)%float = true →
  predict L features delta_days 2 m = (Ok (p, h), m1) →
  is_nan h = false →
  ∃ z1 z2,
    is_zero z1 = true ∧ is_zero z2 = true ∧
    train_coefficients L features delta_days ar None m = Ok (z1, z2) ∧
    train_update L features delta_days ar None m =
      for_each features (train_step L ar z1 z2) m1 ∧
    ∀ s k x rate,
      spec_rate s ar (count_of (fcounts s) k) = Ok rate →
      is_finite rate = true → is_finite x = true →
      omit_h_term s || is_finite (rate * hlwt s) = true →
      weight_of (weights s) k ≠ neg_zero →
      spec_feature_update L ar z1 z2 s (k, x) = l2_shrink_update L ar s (k, x) ∧
      match l2_shrink_update L ar s (k, x) with
      | Ok s' => train_step L ar z1 z2 (k, x) s = (Ok tt, s')
      | Raise e => fst (train_step L ar z1 z2 (k, x) s) = Raise e
      end.
Proof.
  intros Hdd Ha0 Ha1 Hl0 Hl1 Hpred Hnan.
  destruct (predict_no_elapsed_time _ _ _ _ _ _ _ Hdd Hpred Hnan)
    as (-> & s & mh & e & Hh).
  destruct (coefficients_no_elapsed_time L delta_days ar h s mh e)
    as (z1 & z2 & Hz1 & Hz2 & Hc); [done..|].
  exists z1, z2. split_and!; [done|done| | |].
  - by rw /train_coefficients Hpred.
  - by rw train_update_unfold Hpred Hc.
  - intros s' k x rate Hrate Hfr Hfx Hhl Hw.
    pose proof (spec_feature_update_zero_coefficients L ar z1 z2 s' k x rate
                  Hz1 Hz2 Hrate Hfr Hfx Hhl Hw) as Heq.
    split; [done|]. rw -Heq. apply train_step_run.
Qed.

(** The premises hold for the weight [7.0] of ["bias"] and a recall of
    [0.5], and so do those of the step. *)
Lemma train_update_without_elapsed_time_witness :
  let m1 := snd (predict ref_libm bias_vector 0 2 seven_weight_model) in
  (is_zero 0 = true ∧
   (0 <=? 0.5)%float = true ∧ (0.5 <=? 1)%float = true ∧
   (0 <=? libm_pow ref_libm LN2 2)%float = true ∧
   (libm_pow ref_libm LN2 2 <=? 1)%float = true ∧
   predict ref_libm bias_vector 0 2 seven_weight_model =
     (Ok (0.9999%float, 128%float), m1) ∧
   is_nan 128 = false) ∧
  ∃ z1 z2,
    is_zero z1 = true ∧ is_zero z2 = true ∧
    train_coefficients ref_libm bias_vector 0 0.5 None seven_weight_model =
      Ok (z1, z2) ∧
    train_update ref_libm bias_vector 0 0.5 None seven_weight_model =
      for_each bias_vector (train_step ref_libm 0.5 z1 z2) m1 ∧
    spec_feature_update ref_libm 0.5 z1 z2 m1 ("bias", 1.0%float) =
      l2_shrink_update ref_libm 0.5 m1 ("bias", 1.0%float).
Proof.
  simpl.
  assert (predict ref_libm bias_vector 0 2 seven_weight_model =
          (Ok (0.9999%float, 128%float),
           snd (predict ref_libm bias_vector 0 2 seven_weight_model))) as Hp
    by (vm_compute; reflexivity).
  split; [split_and!; first [exact Hp | vm_compute; reflexivity]|].
  destruct (train_update_without_elapsed_time ref_libm bias_vector 0 0.5
              seven_weight_model _ _ _ eq_refl eq_refl eq_refl eq_refl eq_refl
              Hp eq_refl) as (z1 & z2 & Hz1 & Hz2 & Hc & Ht & Hstep).
  exists z1, z2. split_and!; [done..|].
  apply (Hstep _ "bias" 1.0%float 0.00066666666666666664%float);
    [vm_compute; reflexivity..|].
  intros E. apply (f_equal is_zero) in E. vm_compute in E. discriminate E.
Defined.


(** ** The examples under the compensated sum

    The vectors of the examples above have the same dot product under the
    compensated [sum]: their sums are exact, infinite or NaN. *)
Lemma examples_do_not_depend_on_compensation :
  Forall (fun '(m, features) =>
            dot (weights m) features 0 = dot_compensated (weights m) features)
    [(default_model, []); (default_model, bias_vector);
     (default_model, [("new", 1.0%float)]); (default_model, repeated_vector);
     (bias_weight_model, bias_vector); (seven_weight_model, bias_vector);
     (huge_weight_model, cancelling_vector);
     (unit_weight_model, ascending_vector);
     (unit_weight_model, descending_vector);
     (unit_weight_model, overflowing_vector);
     (unit_weight_model, overflowing_vector_reordered)].
Proof. repeat constructor; vm_compute; reflexivity. Qed.

(** ** The exceptions of [halflife] and [predict] *)

Lemma ltb_inv a b :
  (a <? b)%float = true →
  (b <? a)%float = false ∧ (a =? b)%float = false ∧ (b =? a)%float = false ∧
  is_nan a = false ∧ is_nan b = false.
Proof.
  rw /is_nan !ltb_spec !FloatAxioms.eqb_spec /SFltb /SFeqb.
  rw (SFcompare_antisym (Prim2SF a) (Prim2SF b)).
  destruct (SFcompare (Prim2SF a) (Prim2SF b)) as [[]|] eqn:Hc; try done.
  intros _.
  assert (Prim2SF a ≠ S754_nan ∧ Prim2SF b ≠ S754_nan) as [Ha Hb].
  { split; intros E; rw E in Hc; [done|]. by destruct (Prim2SF a). }
  by rw !SFcompare_refl.
Qed.

(** When [x ** y] raises. *)
Lemma float_pow_raise_inv L iv iw e :
  float_pow L iv iw = Raise e →
  (e = ZeroDivisionError ∧ (iv =? 0)%float = true ∧ (iw <? 0)%float = true) ∨
  (e = TypeError ∧ (iv <? 0)%float = true ∧ is_integral iw = false ∧
   is_infinity (libm_pow L (- iv) iw) = false) ∨
  (e = OverflowError ∧ (iv =? 0)%float = false ∧
   is_infinity (libm_pow L (if (iv <? 0) then - iv else iv)%float iw) = true).
Proof.
  rw /float_pow.
  repeat (match goal with
          | |- context [if ?b then _ else _] =>
              lazymatch b with
              | context [if _ then _ else _] => fail
              | _ => destruct b eqn:?
              end
          end; try done).
  all: intros [= <-].
  all: try by (left; split_and!).
  all: try by (right; right; split_and!).
  right; left. split_and!; try done.
  by match goal with H : _ && negb _ = true |- _ =>
       apply andb_prop in H as [_ ?%negb_true_iff] end.
Qed.

Lemma float_pow_zero_exponent L iv iw :
  is_zero iw = true → float_pow L iv iw = Ok 1%float.
Proof. rw /float_pow /is_zero. change zero with 0%float. by intros ->. Qed.

(** A half-life is never zero. *)
Lemma halflife_of_dot_nonzero L base dp h :
  halflife_of_dot L base dp = Ok h → (h =? 0)%float = false.
Proof.
  intros Hh. destruct (is_nan h) eqn:Hnan.
  - rw /is_nan FloatAxioms.eqb_spec in Hnan. rw FloatAxioms.eqb_spec.
    destruct (Prim2SF h) as [s|s| |s mh e]; try done; by destruct s.
  - destruct (halflife_of_dot_finite _ _ _ _ Hh Hnan) as (s & mh & e & E).
    by eapply eqb_zero_finite.
Qed.

Lemma halflife_of_dot_raise_inv L base dp e :
  halflife_of_dot L base dp = Raise e →
  (e = ZeroDivisionError ∧ is_zero base = true ∧ (dp <? 0)%float = true) ∨
  (e = TypeError ∧ (base <? 0)%float = true ∧ is_integral dp = false ∧
   is_infinity (libm_pow L (- base) dp) = false).
Proof.
  rw /halflife_of_dot.
  destruct (float_pow L base dp) as [r|e'] eqn:Hpow; [done|].
  apply float_pow_raise_inv in Hpow
    as [(-> & ? & ?)|[(-> & ? & ? & ?)|(-> & _)]];
    intros [= <-]; eauto.
Qed.

Lemma halflife_of_dot_positive_base L base dp :
  (0 <? base)%float = true → ∃ h, halflife_of_dot L base dp = Ok h.
Proof.
  intros (Hlt & _ & Heq & _)%ltb_inv.
  destruct (halflife_of_dot L base dp) as [h|e] eqn:E; [by eauto|].
  apply halflife_of_dot_raise_inv in E as [(_ & Hz & _)|(_ & Hn & _)].
  - rw /is_zero in Hz. change zero with 0%float in Hz. by rw Hz in Heq.
  - by rw Hn in Hlt.
Qed.

(** X2: the [except] clause of [halflife] catches [OverflowError] and
    [ValueError] only.  An exception can leave [halflife] only as
    [ZeroDivisionError], with the base zero and a negative dot product, and
    as [TypeError], with a negative base, a dot product that is not an
    integer and a finite modulus [pow(-base, dot product)]: the power is
    then a complex number, which [hclip] cannot compare with a float.  The
    dot product is the one [sum] gives, with compensation or without. *)
Theorem halflife_raises_only_for_nonpositive_base L features base m e :
  fst (halflife L features base m) = Raise e →
  (e = ZeroDivisionError ∧ is_zero base = true ∧
   (dot_product L (weights m) features <? 0)%float = true) ∨
  (e = TypeError ∧ (base <? 0)%float = true ∧
   is_integral (dot_product L (weights m) features) = false ∧
   is_infinity (libm_pow L (- base) (dot_product L (weights m) features)) =
     false).
Proof. rw halflife_run /=. apply halflife_of_dot_raise_inv. Qed.

(** The weight [0.5] for ["bias"] and the base [-2.0]: the power is the
    complex number [(-2.0) ** 0.5].  With the weight [2000.5] its modulus
    overflows, the [OverflowError] is caught and the half-life is
    [MAX_HALF_LIFE].  With the weight [-1.0] and the base zero the power
    raises [ZeroDivisionError]. *)
Lemma halflife_raises_only_for_nonpositive_base_witness :
  fst (halflife ref_libm bias_vector (-2) half_weight_model) =
    Raise TypeError ∧
  fst (halflife ref_libm bias_vector (-2) fractional_weight_model) =
    Ok MAX_HALF_LIFE ∧
  fst (halflife ref_libm bias_vector 0 negative_weight_model) =
    Raise ZeroDivisionError ∧
  ((TypeError = ZeroDivisionError ∧ is_zero (-2) = true ∧
    (dot_product ref_libm (weights half_weight_model) bias_vector <? 0)%float
      = true) ∨
   (TypeError = TypeError ∧ (-2 <? 0)%float = true ∧
    is_integral (dot_product ref_libm (weights half_weight_model) bias_vector)
      = false ∧
    is_infinity
      (libm_pow ref_libm (- -2)
         (dot_product ref_libm (weights half_weight_model) bias_vector)) =
      false)).
Proof.
  assert (fst (halflife ref_libm bias_vector (-2) half_weight_model) =
          Raise TypeError) as H by (vm_compute; reflexivity).
  split; [exact H|]. split; [vm_compute; reflexivity|].
  split; [vm_compute; reflexivity|].
  exact (halflife_raises_only_for_nonpositive_base _ _ _ _ _ H).
Defined.

(** X3: with a positive base (the default [2.0] in particular) [halflife]
    always returns, and what it returns is NaN or lies in
    [[MIN_HALF_LIFE, MAX_HALF_LIFE]].  [predict] then returns that half-life,
    and the one exception it can raise is the [OverflowError] of the recall
    exponential [2.0 ** (-delta_days / h)], when the C library's [pow]
    overflows there: the half-life is never zero, so the division never
    raises. *)
Theorem predict_positive_base_raises_only_overflow
    L features delta_days base m :
  (0 <? base)%float = true →
  ∃ h, fst (halflife L features base m) = Ok h ∧
    (is_nan h = false →
     (MIN_HALF_LIFE <=? h)%float = true ∧ (h <=? MAX_HALF_LIFE)%float = true) ∧
    match fst (predict L features delta_days base m) with
    | Ok (p, h') => h' = h
    | Raise e =>
        e = OverflowError ∧
        is_infinity (libm_pow L 2 (- delta_days / h)) = true
    end.
Proof.
  intros Hbase. rw predict_run halflife_run /=.
  destruct (halflife_of_dot_positive_base L base
              (dot_product L (weights m) features) Hbase) as [h Hh].
  exists h. split; [done|]. split.
  - intros Hnan. revert Hh. rw /halflife_of_dot.
    destruct (float_pow L base _) as [r|e].
    + intros [= <-]. apply clip_in_range; [by vm_compute|by eapply clip_nan].
    + destruct (handled_by_halflife e); [|done]. intros [= <-]. by vm_compute.
  - rw Hh /= /recall_of_halflife /mbind /result_bind /truediv.
    rw (halflife_of_dot_nonzero _ _ _ _ Hh).
    destruct (float_pow L 2 _) as [p|e] eqn:Hpow; [done|].
    apply float_pow_raise_inv in Hpow
      as [(_ & Hz & _)|[(_ & Hn & _)|(-> & _ & Hinf)]]; [done..|].
    done.
Qed.

(** An elapsed time of [-1e308] days makes the exponential overflow. *)
Lemma predict_positive_base_raises_only_overflow_witness :
  (0 <? 2)%float = true ∧
  fst (predict ref_libm [] (-1e308) 2 default_model) = Raise OverflowError ∧
  ∃ h, fst (halflife ref_libm [] 2 default_model) = Ok h ∧
    (is_nan h = false →
     (MIN_HALF_LIFE <=? h)%float = true ∧ (h <=? MAX_HALF_LIFE)%float = true) ∧
    match fst (predict ref_libm [] (-1e308) 2 default_model) with
    | Ok (p, h') => h' = h
    | Raise e =>
        e = OverflowError ∧
        is_infinity (libm_pow ref_libm 2 (- (-1e308) / h)) = true
    end.
Proof.
  split; [reflexivity|]. split; [vm_compute; reflexivity|].
  exact (predict_positive_base_raises_only_overflow ref_libm [] (-1e308) 2
           default_model eq_refl).
Defined.

(** ** Calls on models that read the same *)

Lemma reads_same_refl m : reads_same m m.
Proof. by split_and!. Qed.

Lemma respects_ret {A} (a : A) : respects (ret a).
Proof. by intros m m' H. Qed.

Lemma respects_lift {A} (r : result A) : respects (lift r).
Proof. by intros m m' H. Qed.

Lemma respects_bind {A B} (c : M HLRModel A) (k : A → M HLRModel B) :
  respects c → (∀ a, respects (k a)) → respects (bind c k).
Proof.
  intros Hc Hk m m' H. rw /bind. destruct (Hc m m' H) as [Hr Hs].
  destruct (c m) as [[a|e] m1], (c m') as [[a'|e'] m1']; simpl in *; try done.
  - injection Hr as <-. by apply Hk.
  - by injection Hr as <-.
Qed.

Lemma respects_mbind {A B} (c : M HLRModel A) (k : A → M HLRModel B) :
  respects c → (∀ a, respects (k a)) → respects (c ≫= k).
Proof. apply respects_bind. Qed.

Lemma respects_for_each {A} (l : list A) (body : A → M HLRModel unit) :
  (∀ a, respects (body a)) → respects (for_each l body).
Proof.
  intros Hb. induction l as [|a l IH]; simpl.
  - apply respects_ret.
  - by apply respects_bind.
Qed.

Lemma respects_try_except {A} (body : M HLRModel A) handled handler :
  respects body → respects handler → respects (try_except body handled handler).
Proof.
  intros Hb Hh m m' H. rw /try_except. destruct (Hb m m' H) as [Hr Hs].
  destruct (body m) as [[a|e] m1], (body m') as [[a'|e'] m1']; simpl in *;
    try done.
  injection Hr as <-. destruct (handled e); [by apply Hh|done].
Qed.

Lemma respects_get_field {A} (f : HLRModel → A) :
  (∀ m m', hypers m = hypers m' → f m = f m') → respects (get_field f).
Proof.
  intros Hf m m' H. split; [|done]. rw /get_field /=. f_equal. apply Hf, H.
Qed.

Lemma respects_weights_getitem k : respects (weights_getitem k).
Proof.
  intros m m' (Hh & Hw & Hc). rw !weights_getitem_run /=.
  split; [by rw Hw|]. split_and!; [done| |done].
  intros k'. by rw /= !weight_of_touch.
Qed.

Lemma respects_fcounts_getitem k : respects (fcounts_getitem k).
Proof.
  intros m m' (Hh & Hw & Hc). rw !fcounts_getitem_run /=.
  split; [by rw Hc|]. split_and!; [done|done|].
  intros k'. by rw /= !count_of_touch.
Qed.

Lemma weight_of_insert_any w k v k' :
  weight_of (<[k := v]> w) k' = if decide (k = k') then v else weight_of w k'.
Proof. rw /weight_of lookup_insert. by case_decide. Qed.

Lemma count_of_insert_any c k v k' :
  count_of (<[k := v]> c) k' = if decide (k = k') then v else count_of c k'.
Proof. rw /count_of lookup_insert. by case_decide. Qed.

Lemma respects_weights_setitem k v : respects (weights_setitem k v).
Proof.
  intros m m' (Hh & Hw & Hc). split; [done|]. split_and!; [done| |done].
  intros k'. by rw /= !weight_of_insert_any Hw.
Qed.

Lemma respects_fcounts_setitem k v : respects (fcounts_setitem k v).
Proof.
  intros m m' (Hh & Hw & Hc). split; [done|]. split_and!; [done|done|].
  intros k'. by rw /= !count_of_insert_any Hc.
Qed.

Lemma respects_read_products features : respects (read_products features).
Proof.
  induction features as [|[k x] rest IH]; simpl.
  - apply respects_ret.
  - apply respects_mbind; [apply respects_weights_getitem|]. intros w.
    apply respects_mbind; [apply IH|]. intros ps. apply respects_ret.
Qed.

Lemma respects_sum_products L features : respects (sum_products L features).
Proof.
  apply respects_mbind; [apply respects_read_products|]. intros ps.
  apply respects_ret.
Qed.

Ltac respects_tac :=
  repeat first
    [ apply respects_sum_products
    | apply respects_mbind; [|intros ?]
    | apply respects_bind; [|intros ?]
    | apply respects_ret
    | apply respects_lift
    | apply respects_weights_getitem
    | apply respects_weights_setitem
    | apply respects_fcounts_getitem
    | apply respects_fcounts_setitem
    | apply respects_get_field; by intros ? ? [= ]
    | apply respects_try_except
    | match goal with |- respects (if ?b then _ else _) => destruct b end
    | match goal with
      | |- respects (match ?b with _ => _ end) => destruct b
      end ].

Lemma respects_halflife L features base : respects (halflife L features base).
Proof. rw /halflife. respects_tac. Qed.

Lemma respects_predict L features dd base :
  respects (predict L features dd base).
Proof.
  rw /predict. apply respects_mbind; [apply respects_halflife|]. intros h.
  respects_tac.
Qed.

Lemma respects_train_step L ar dlp dlh kx :
  respects (train_step L ar dlp dlh kx).
Proof. destruct kx as [k x]. rw /train_step. respects_tac. Qed.

Lemma respects_train_update L features dd ar ahl :
  respects (train_update L features dd ar ahl).
Proof.
  rw /train_update. apply respects_mbind; [apply respects_predict|].
  intros [p h]. respects_tac. apply respects_for_each. intros kx.
  apply respects_train_step.
Qed.

(** ** What a call can change *)

Lemma touches_only_refl names m : touches_only names m m.
Proof. by split_and!. Qed.

Lemma touches_only_trans names m1 m2 m3 :
  touches_only names m1 m2 → touches_only names m2 m3 →
  touches_only names m1 m3.
Proof.
  intros (Hh & Hf & Hw & Hc & Hn) (Hh' & Hf' & Hw' & Hc' & Hn').
  split_and!.
  - by rw Hh'.
  - intros k Hk. destruct (Hf k Hk) as [<- <-]. by apply Hf'.
  - intros k Hk. by apply Hw', Hw.
  - intros k Hk. by apply Hc', Hc.
  - intros k. etrans; [apply Hn|apply Hn'].
Qed.

Lemma touches_only_mono names names' m m' :
  names ⊆ names' → touches_only names m m' → touches_only names' m m'.
Proof.
  intros Hsub (Hh & Hf & Hw & Hc & Hn). split_and!; try done.
  intros k Hk. apply Hf. intros Hin. by apply Hk, Hsub.
Qed.

Lemma within_mono {A} names names' (c : M HLRModel A) :
  names ⊆ names' → within names c → within names' c.
Proof. intros Hsub Hc m. by eapply touches_only_mono. Qed.

Lemma within_ret {A} names (a : A) : within names (ret a).
Proof. intros m. apply touches_only_refl. Qed.

Lemma within_lift {A} names (r : result A) : within names (lift r).
Proof. intros m. apply touches_only_refl. Qed.

Lemma within_get_field {A} names (f : HLRModel → A) :
  within names (get_field f).
Proof. intros m. apply touches_only_refl. Qed.

Lemma within_bind {A B} names (c : M HLRModel A) (k : A → M HLRModel B) :
  within names c → (∀ a, within names (k a)) → within names (bind c k).
Proof.
  intros Hc Hk m. rw /bind. specialize (Hc m).
  destruct (c m) as [[a|e] m1]; [|done]. simpl in Hc.
  eapply touches_only_trans; [done|]. apply Hk.
Qed.

Lemma within_mbind {A B} names (c : M HLRModel A) (k : A → M HLRModel B) :
  within names c → (∀ a, within names (k a)) → within names (c ≫= k).
Proof. apply within_bind. Qed.

Lemma within_try_except {A} names (body : M HLRModel A) handled handler :
  within names body → within names handler →
  within names (try_except body handled handler).
Proof.
  intros Hb Hh m. rw /try_except. specialize (Hb m).
  destruct (body m) as [[a|e] m1]; [done|]. simpl in Hb.
  destruct (handled e); [|done].
  eapply touches_only_trans; [done|]. apply Hh.
Qed.

Lemma within_weights_getitem k : within [k] (weights_getitem k).
Proof.
  intros m. rw weights_getitem_run /=. split_and!; try done.
  - intros k' Hk. split; [|done]. rw /= lookup_touch. case_decide; [|done].
    subst. exfalso. apply Hk. by left.
  - intros k' Hk. rw /= lookup_touch. by case_decide.
Qed.

Lemma within_weights_setitem k v : within [k] (weights_setitem k v).
Proof.
  intros m. split_and!; try done.
  - intros k' Hk. split; [|done]. rw /= lookup_insert_ne; [|done].
    intros ->. apply Hk. by left.
  - intros k' Hk. rw /= lookup_insert. by case_decide.
Qed.

Lemma within_fcounts_getitem k : within [k] (fcounts_getitem k).
Proof.
  intros m. rw fcounts_getitem_run /=. split_and!; try done.
  - intros k' Hk. split; [done|]. rw /= lookup_touch. case_decide; [|done].
    subst. exfalso. apply Hk. by left.
  - intros k' Hk. rw /= lookup_touch. by case_decide.
  - intros k'. by rw count_of_touch.
Qed.

(** [self.fcounts[k] += 1] *)
Lemma within_increment k :
  within [k] (c ← fcounts_getitem k; fcounts_setitem k (c + 1)%N).
Proof.
  intros m. rw /mbind /M_bind /bind fcounts_getitem_run /=.
  split_and!; try done.
  - intros k' Hk. split; [done|].
    assert (k ≠ k') as Hne by (intros ->; apply Hk; by left).
    rw /= lookup_insert_ne; [done|]. rw lookup_touch. by case_decide.
  - intros k' Hk. rw /= lookup_insert. case_decide; [done|].
    rw lookup_touch. by case_decide.
  - intros k'. rw /= count_of_insert_any. case_decide; [subst; lia|].
    by rw count_of_touch.
Qed.

Lemma within_read_products features :
  within features.*1 (read_products features).
Proof.
  induction features as [|[k x] rest IH]; simpl.
  - apply within_ret.
  - apply within_mbind.
    + eapply within_mono; [|apply within_weights_getitem].
      intros k' ->%list_elem_of_singleton. by left.
    + intros w. apply within_mbind; [|intros ps; apply within_ret].
      eapply within_mono; [|apply IH]. intros k' Hk. by right.
Qed.

Lemma within_sum_products L features :
  within features.*1 (sum_products L features).
Proof.
  apply within_mbind; [apply within_read_products|]. intros ps.
  apply within_ret.
Qed.

Ltac within_tac :=
  repeat first
    [ apply within_increment
    | apply within_mbind; [|intros ?]
    | apply within_bind; [|intros ?]
    | apply within_ret
    | apply within_lift
    | apply within_weights_getitem
    | apply within_weights_setitem
    | apply within_fcounts_getitem
    | apply within_get_field
    | apply within_try_except
    | match goal with |- within _ (if ?b then _ else _) => destruct b end
    | match goal with
      | |- within _ (match ?b with _ => _ end) => destruct b
      end ].

Lemma within_halflife L features base :
  within features.*1 (halflife L features base).
Proof.
  rw /halflife. apply within_try_except; [|apply within_ret].
  apply within_mbind; [apply within_sum_products|]. intros dp. within_tac.
Qed.

Lemma within_predict L features dd base :
  within features.*1 (predict L features dd base).
Proof.
  rw /predict. apply within_mbind; [apply within_halflife|]. intros h.
  within_tac.
Qed.

Lemma within_train_step L ar dlp dlh k x :
  within [k] (train_step L ar dlp dlh (k, x)).
Proof. rw /train_step. within_tac. Qed.

Lemma within_for_each_train_step L ar dlp dlh features :
  within features.*1 (for_each features (train_step L ar dlp dlh)).
Proof.
  induction features as [|[k x] rest IH]; simpl.
  - apply within_ret.
  - apply within_bind.
    + eapply within_mono; [|apply within_train_step].
      intros k' ->%list_elem_of_singleton. by left.
    + intros _. eapply within_mono; [|apply IH]. intros k' Hk. by right.
Qed.

Lemma within_train_update L features dd ar ahl :
  within features.*1 (train_update L features dd ar ahl).
Proof.
  rw /train_update. apply within_mbind; [apply within_predict|].
  intros [p h]. within_tac. apply within_for_each_train_step.
Qed.

(** ** Edge cases and composition of [predict] and [train_update] *)

Lemma touch_all_nil w : touch_all [] w = w.
Proof. done. Qed.

(** X4: the empty feature vector.  Whatever the weights and the base, the
    half-life is [1.0] and the model is left as it was; [predict] returns the
    recall [pclip(2.0 ** (-delta_days / 1.0))] (or raises what that power
    raises); and [train_update] leaves the model as it was, whether it
    returns or raises. *)
Theorem empty_vector_gives_unit_half_life L delta_days base ar ahl m :
  halflife L [] base m = (Ok 1%float, m) ∧
  predict L [] delta_days base m =
    (p ← float_pow L 2 (- delta_days / 1)%float; Ok (pclip p, 1%float), m) ∧
  snd (train_update L [] delta_days ar ahl m) = m.
Proof.
  assert (∀ b, halflife_of_dot L b 0 = Ok 1%float) as Hh.
  { intros b. rw /halflife_of_dot (float_pow_zero_exponent L b 0); [|done].
    by vm_compute. }
  split_and!.
  - by rw halflife_run dot_product_nil /= Hh set_weights_same.
  - by rw predict_run dot_product_nil Hh touch_all_nil set_weights_same.
  - rw train_update_unfold predict_run touch_all_nil set_weights_same.
    destruct (_ ≫= _) as [[p h]|e]; [|done].
    by destruct (spec_coefficients L delta_days ar ahl p h) as [[dlp dlh]|e].
Qed.

Lemma dot_product_touch_all L w features' features :
  dot_product L (touch_all features' w) features = dot_product L w features.
Proof.
  rw /dot_product /products. f_equal. apply map_ext. intros [k x].
  by rw /= weight_of_touch_all.
Qed.

Lemma touch_all_idemp features w :
  touch_all features (touch_all features w) = touch_all features w.
Proof.
  apply map_eq. intros k. rw !lookup_touch_all weight_of_touch_all.
  by case_bool_decide.
Qed.

Lemma touch_all_present features w :
  (∀ k, k ∈ features.*1 → is_Some (w !! k)) → touch_all features w = w.
Proof.
  intros H. apply map_eq. intros k. rw lookup_touch_all.
  case_bool_decide as Hk; [|done].
  destruct (H k Hk) as [v Hv]. by rw /weight_of Hv.
Qed.

Lemma predict_reads_same L features dd base m :
  reads_same m (snd (predict L features dd base m)).
Proof.
  rw predict_run /=. split_and!; try done.
  intros k. by rw /= weight_of_touch_all.
Qed.

(** X6: apart from entering names with the weight [0.0] (C4), a call of
    [predict] is invisible.  Repeating the call changes nothing more, and
    every later [predict] or [train_update] has the result it would have had
    without it; the model a later [train_update] leaves reads the same
    (hyperparameters, weight and count of every name). *)
Theorem predict_is_invisible_to_later_calls L f1 d1 b1 f2 d2 b2 ar ahl m :
  let m1 := snd (predict L f1 d1 b1 m) in
  snd (predict L f1 d1 b1 m1) = m1 ∧
  fst (predict L f2 d2 b2 m1) = fst (predict L f2 d2 b2 m) ∧
  fst (train_update L f2 d2 ar ahl m1) = fst (train_update L f2 d2 ar ahl m) ∧
  reads_same (snd (train_update L f2 d2 ar ahl m1))
    (snd (train_update L f2 d2 ar ahl m)).
Proof.
  simpl. pose proof (predict_reads_same L f1 d1 b1 m) as Hsame.
  split_and!.
  - rw !predict_run /=. by rw /set_weights /= touch_all_idemp.
  - rw !predict_run /=. by rw dot_product_touch_all.
  - symmetry. by apply respects_train_update.
  - destruct (respects_train_update L f2 d2 ar ahl _ _ Hsame)
      as [_ (Hh & Hw & Hc)].
    by split_and!.
Qed.

(** X7: [predict] and [train_update] depend on the model only through what
    it reads as: the hyperparameters and, for every name, the weight and the
    count with their defaults.  Two models that read the same (a name stored
    with the weight [0.0] in one and absent from the other, say) give the
    same result or the same exception, and [train_update] leaves models that
    read the same again. *)
Theorem calls_depend_on_reads_only L features dd base ar ahl m m' :
  reads_same m m' →
  fst (predict L features dd base m) = fst (predict L features dd base m') ∧
  fst (train_update L features dd ar ahl m) =
    fst (train_update L features dd ar ahl m') ∧
  reads_same (snd (train_update L features dd ar ahl m))
    (snd (train_update L features dd ar ahl m')).
Proof.
  intros H. split; [by apply respects_predict|].
  by apply respects_train_update.
Qed.

(** The fresh model and the model that stores [0.0] for ["bias"]. *)
Lemma calls_depend_on_reads_only_witness :
  reads_same default_model zero_weight_model ∧
  fst (predict ref_libm bias_vector 1 2 default_model) =
    fst (predict ref_libm bias_vector 1 2 zero_weight_model) ∧
  fst (train_update ref_libm bias_vector 1 0.25 None default_model) =
    fst (train_update ref_libm bias_vector 1 0.25 None zero_weight_model) ∧
  reads_same
    (snd (train_update ref_libm bias_vector 1 0.25 None default_model))
    (snd (train_update ref_libm bias_vector 1 0.25 None zero_weight_model)).
Proof.
  assert (reads_same default_model zero_weight_model) as H.
  { split_and!; [done| |done]. intros k.
    rw /zero_weight_model /load_weights /default_model /weight_of /=.
    rw (right_id_L ∅ (∪)) lookup_empty.
    destruct (decide (k = "bias")) as [->|Hne]; [done|].
    by rw lookup_singleton_ne. }
  split; [exact H|].
  exact (calls_depend_on_reads_only ref_libm bias_vector 1 2 0.25 None _ _ H).
Defined.

(** X8: what [train_update] can change, whether it returns or raises.  The
    hyperparameters stay; the entries of every name that is not in the
    feature vector stay as they are, in both mappings; no name is removed
    from a mapping; and no count decreases. *)
Theorem train_update_touches_only_its_names L features dd ar ahl m :
  let m' := snd (train_update L features dd ar ahl m) in
  hypers m' = hypers m ∧
  (∀ k, k ∉ features.*1 →
     weights m' !! k = weights m !! k ∧ fcounts m' !! k = fcounts m !! k) ∧
  (∀ k, is_Some (weights m !! k) → is_Some (weights m' !! k)) ∧
  (∀ k, is_Some (fcounts m !! k) → is_Some (fcounts m' !! k)) ∧
  (∀ k, (count_of (fcounts m) k ≤ count_of (fcounts m') k)%N).
Proof. apply within_train_update. Qed.

(** X9: the failure of C3 happens before the loop.  When the prediction is
    made and [train_update] then raises [ZeroDivisionError] at
    [actual_recall = 1.0], the model is the one [predict] left: no weight
    and no count reads differently from before the call. *)
Theorem failed_estimate_changes_no_learned_value L features dd m p h :
  libm_log2 L 1 = 0%float →
  (0 <? dd)%float = true →
  fst (predict L features dd 2 m) = Ok (p, h) →
  train_update L features dd 1 None m =
    (Raise ZeroDivisionError, snd (predict L features dd 2 m)) ∧
  reads_same m (snd (train_update L features dd 1 None m)).
Proof.
  intros Hlog Hpos Hpred.
  assert (train_update L features dd 1 None m =
          (Raise ZeroDivisionError, snd (predict L features dd 2 m))) as E.
  { rw train_update_unfold.
    destruct (predict L features dd 2 m) as [[[p' h']|e] m1]; [|done].
    rw /spec_coefficients /spec_target_half_life Hpos /=.
    by rw /math_log2 /math_1 /m_log2 /= Hlog. }
  split; [done|]. rw E /=. apply predict_reads_same.
Qed.

(** The fresh model, one feature and one elapsed day. *)
Lemma failed_estimate_changes_no_learned_value_witness :
  libm_log2 ref_libm 1 = 0%float ∧
  (0 <? 1)%float = true ∧
  fst (predict ref_libm bias_vector 1 2 default_model) =
    Ok (0.5%float, 1%float) ∧
  train_update ref_libm bias_vector 1 1 None default_model =
    (Raise ZeroDivisionError,
     snd (predict ref_libm bias_vector 1 2 default_model)) ∧
  reads_same default_model
    (snd (train_update ref_libm bias_vector 1 1 None default_model)).
Proof.
  assert (fst (predict ref_libm bias_vector 1 2 default_model) =
          Ok (0.5%float, 1%float)) as H
    by (vm_compute; reflexivity).
  split_and!; [vm_compute; reflexivity..|exact H| |];
    apply (failed_estimate_changes_no_learned_value ref_libm bias_vector 1
             default_model _ _ eq_refl eq_refl H).
Defined.

(** *** A zero [sigma] *)

Lemma float_pow_zero_squared L z :
  is_zero z = true → float_pow L z 2 = Ok 0%float.
Proof. by intros [-> | ->]%zero_cases. Qed.

Lemma truediv_zero x z :
  is_zero z = true → truediv x z = Raise ZeroDivisionError.
Proof. rw /truediv /is_zero. change zero with 0%float. by intros ->. Qed.

Lemma spec_feature_update_zero_sigma L ar dlp dlh m kx :
  is_zero (sigma m) = true →
  ∃ e, spec_feature_update L ar dlp dlh m kx = Raise e.
Proof.
  intros Hz. destruct kx as [k x].
  rw /spec_feature_update /l2_term /mbind /result_bind.
  destruct (spec_rate m ar _) as [rate|e]; [|by eauto].
  rw (float_pow_zero_squared L _ Hz) truediv_zero; [done|]. by eauto.
Qed.

(** X10: with [sigma = 0.0] (or [-0.0]) the L2 step divides by
    [sigma ** 2 = 0.0]: a call of [train_update] on a non-empty vector never
    returns. *)
Theorem train_update_never_returns_with_zero_sigma L features dd ar ahl m :
  is_zero (sigma m) = true → features ≠ [] →
  ∃ e, fst (train_update L features dd ar ahl m) = Raise e.
Proof.
  intros Hz Hne. rw train_update_unfold.
  pose proof (within_predict L features dd 2 m) as (Hh & _).
  destruct (predict L features dd 2 m) as [[[p h]|e] m1]; [|by eauto].
  destruct (spec_coefficients L dd ar ahl p h) as [[dlp dlh]|e]; [|by eauto].
  destruct features as [|kx rest]; [done|]. simpl in Hh.
  assert (is_zero (sigma m1) = true) as Hz1.
  { injection Hh as _ _ _ _ ->. done. }
  destruct (spec_feature_update_zero_sigma L ar dlp dlh m1 kx Hz1) as [e He].
  exists e. destruct kx as [k x].
  pose proof (train_step_run L ar dlp dlh m1 k x) as Hstep. rw He in Hstep.
  rw /= /bind. destruct (train_step L ar dlp dlh (k, x) m1) as [r s].
  simpl in Hstep. by subst r.
Qed.

(** The default hyperparameters with [sigma = 0.0]. *)
Lemma train_update_never_returns_with_zero_sigma_witness :
  is_zero (sigma zero_sigma_model) = true ∧ bias_vector ≠ [] ∧
  fst (train_update ref_libm bias_vector 1 0.25 None zero_sigma_model) =
    Raise ZeroDivisionError ∧
  ∃ e, fst (train_update ref_libm bias_vector 1 0.25 None zero_sigma_model) =
       Raise e.
Proof.
  split_and!; [reflexivity|done|vm_compute; reflexivity|].
  apply train_update_never_returns_with_zero_sigma; [reflexivity|done].
Defined.

(** *** Names the model has not learned *)

Lemma dot_product_zero_weights L w features :
  Forall (fun kx => is_zero (weight_of w kx.1) = true ∧ is_finite kx.2 = true)
    features →
  dot_product L w features = 0%float.
Proof.
  intros H. apply builtin_sum_zeros. rw /products.
  induction H as [|[k x] rest [Hz Hf] _ IH]; constructor; [|done].
  by apply mul_zero_l.
Qed.

(** X5: a model that has learned nothing about the names of a vector (each
    of them reads as zero, as in a fresh model) predicts a half-life of
    exactly [1.0] for it when the feature values are finite, for every base;
    the recall is then [pclip(2.0 ** (-delta_days / 1.0))]. *)
Theorem untrained_names_give_unit_half_life L features delta_days base m :
  Forall (fun kx => is_zero (weight_of (weights m) kx.1) = true ∧
                    is_finite kx.2 = true) features →
  fst (halflife L features base m) = Ok 1%float ∧
  fst (predict L features delta_days base m) =
    (p ← float_pow L 2 (- delta_days / 1)%float; Ok (pclip p, 1%float)).
Proof.
  intros H%(dot_product_zero_weights L).
  assert (halflife_of_dot L base 0 = Ok 1%float) as Hh.
  { rw /halflife_of_dot (float_pow_zero_exponent L base 0); [|done].
    by vm_compute. }
  split.
  - by rw halflife_run /= H Hh.
  - by rw predict_run H Hh.
Qed.

(** The fresh model and one feature. *)
Lemma untrained_names_give_unit_half_life_witness :
  Forall (fun kx => is_zero (weight_of (weights default_model) kx.1) = true ∧
                    is_finite kx.2 = true) bias_vector ∧
  fst (halflife ref_libm bias_vector 2 default_model) = Ok 1%float ∧
  fst (predict ref_libm bias_vector 1 2 default_model) =
    (p ← float_pow ref_libm 2 (- 1 / 1)%float; Ok (pclip p, 1%float)).
Proof.
  assert (Forall (fun kx => is_zero (weight_of (weights default_model) kx.1)
                              = true ∧ is_finite kx.2 = true) bias_vector)
    as H by (repeat constructor).
  split; [exact H|].
  exact (untrained_names_give_unit_half_life ref_libm bias_vector 1 2
           default_model H).
Defined.

(** *** The names after an update *)

Lemma occurrences_pos k features :
  k ∈ features.*1 → (1 ≤ occurrences k features)%N.
Proof.
  induction features as [|[k' x] rest IH]; simpl.
  - by intros ?%elem_of_nil.
  - intros [->|Hin]%elem_of_cons.
    + rw decide_True; [done|]. lia.
    + specialize (IH Hin). case_decide; lia.
Qed.

Lemma train_update_ok_loop L features dd ar ahl m m' :
  train_update L features dd ar ahl m = (Ok tt, m') →
  ∃ dlp dlh,
    for_each features (train_step L ar dlp dlh)
      (set_weights (touch_all features (weights m)) m) = (Ok tt, m').
Proof.
  rw train_update_unfold predict_run.
  destruct (_ ≫= _) as [[p h]|e]; [|done].
  destruct (spec_coefficients L dd ar ahl p h) as [[dlp dlh]|e]; [|done].
  by eauto.
Qed.

Lemma train_update_ok_names L features dd ar ahl m m' k :
  train_update L features dd ar ahl m = (Ok tt, m') →
  k ∈ features.*1 →
  is_Some (weights m' !! k) ∧ is_Some (fcounts m' !! k).
Proof.
  intros Hrun Hk. split.
  - apply train_update_ok_loop in Hrun as (dlp & dlh & Hloop).
    pose proof (within_for_each_train_step L ar dlp dlh features
                  (set_weights (touch_all features (weights m)) m))
      as (_ & _ & Hw & _).
    rw Hloop in Hw. apply Hw. rw /= lookup_touch_all.
    by rw bool_decide_eq_true_2.
  - apply train_update_ok_inv in Hrun as (dlp & dlh & m1 & _ & _ & Hloop).
    pose proof (spec_updates_count _ _ _ _ _ _ _ k Hloop) as Hc.
    pose proof (occurrences_pos _ _ Hk) as Hpos.
    rw /count_of in Hc. destruct (fcounts m' !! k); [done|].
    simpl in Hc. lia.
Qed.

Lemma predict_after_train_update L features dd ar ahl m m' d b :
  train_update L features dd ar ahl m = (Ok tt, m') →
  snd (predict L features d b m') = m'.
Proof.
  intros Hrun. rw predict_run /= touch_all_present; [|apply set_weights_same].
  intros k Hk. by eapply train_update_ok_names.
Qed.

(** X12: after a call of [train_update] that returns, every name of the
    feature vector is a key of both mappings, and a [predict] on the same
    vector (the post-update prediction of the [/train] handler) leaves the
    model exactly as it is. *)
Theorem train_update_enters_every_name L features dd ar ahl m m' :
  train_update L features dd ar ahl m = (Ok tt, m') →
  (∀ k, k ∈ features.*1 →
     is_Some (weights m' !! k) ∧ is_Some (fcounts m' !! k)) ∧
  (∀ d b, snd (predict L features d b m') = m').
Proof.
  intros Hrun. split.
  - intros k Hk. by eapply train_update_ok_names.
  - intros d b. by eapply predict_after_train_update.
Qed.

(** One update of the fresh model. *)
Lemma train_update_enters_every_name_witness :
  let m' := snd (train_update ref_libm bias_vector 1 0.25 None default_model) in
  train_update ref_libm bias_vector 1 0.25 None default_model = (Ok tt, m') ∧
  (∀ k, k ∈ bias_vector.*1 →
     is_Some (weights m' !! k) ∧ is_Some (fcounts m' !! k)) ∧
  (∀ d b, snd (predict ref_libm bias_vector d b m') = m').
Proof.
  simpl.
  assert (train_update ref_libm bias_vector 1 0.25 None default_model =
          (Ok tt, snd (train_update ref_libm bias_vector 1 0.25 None
                         default_model))) as H
    by (vm_compute; reflexivity).
  split; [exact H|].
  exact (train_update_enters_every_name _ _ _ _ _ _ _ H).
Defined.

(** *** The omitted half-life term *)

Lemma train_step_omit L ar dlp dlh dlh' kx m :
  omit_h_term m = true →
  train_step L ar dlp dlh kx m = train_step L ar dlp dlh' kx m.
Proof.
  intros Homit. destruct kx as [k x]. rw /train_step.
  rw /mbind /M_bind /bind /lift /get_field /mret /M_ret /ret.
  destruct (truediv 1 _) as [a|e]; [|done].
  model_simpl.
  destruct (math_sqrt_int _) as [s|e]; [|done].
  destruct (truediv (a * _) s) as [rate|e]; [|done].
  by rw Homit.
Qed.

Lemma for_each_train_step_omit L ar dlp dlh dlh' features m :
  omit_h_term m = true →
  for_each features (train_step L ar dlp dlh) m =
  for_each features (train_step L ar dlp dlh') m.
Proof.
  revert m. induction features as [|kx rest IH]; intros m Homit; [done|].
  rw /= /bind -(train_step_omit L ar dlp dlh dlh' kx m Homit).
  destruct kx as [k x].
  pose proof (within_train_step L ar dlp dlh k x m) as (Hh & _).
  destruct (train_step L ar dlp dlh (k, x) m) as [[[]|e] m1]; [|done].
  apply IH. simpl in Hh. injection Hh as -> _ _ _ _. done.
Qed.

(** X13: with [omit_h_term] set, the observed half-life passed to
    [train_update] plays no part: two calls that differ only in it have the
    same result and leave the same model. *)
Theorem omitted_half_life_term_ignores_observation L features dd ar a b m :
  omit_h_term m = true →
  train_update L features dd ar (Some a) m =
  train_update L features dd ar (Some b) m.
Proof.
  intros Homit. rw !train_update_unfold.
  pose proof (within_predict L features dd 2 m) as (Hh & _).
  destruct (predict L features dd 2 m) as [[[p h]|e] m1]; [|done].
  rw /spec_coefficients /spec_target_half_life /mbind /result_bind.
  destruct (float_pow L LN2 2) as [ln2sq|e]; [|done].
  destruct (truediv dd h) as [d|e]; [|done].
  apply for_each_train_step_omit.
  simpl in Hh. injection Hh as -> _ _ _ _. done.
Qed.

(** Observed half-lives of [2.0] and of [100.0] days. *)
Lemma omitted_half_life_term_ignores_observation_witness :
  omit_h_term omitting_model = true ∧
  train_update ref_libm bias_vector 1 0.25 (Some 2%float) omitting_model =
  train_update ref_libm bias_vector 1 0.25 (Some 100%float) omitting_model.
Proof.
  split; [reflexivity|].
  exact (omitted_half_life_term_ignores_observation ref_libm bias_vector 1
           0.25 2 100 omitting_model eq_refl).
Defined.

(** *** Clipping twice *)

Lemma clip_idemp lo hi x :
  (lo <? lo)%float = false → (hi <? hi)%float = false →
  (hi <? lo)%float = false →
  Py.min (Py.max (Py.min (Py.max x lo) hi) lo) hi = Py.min (Py.max x lo) hi.
Proof.
  intros Hll Hhh Hhl. rw /Py.min /Py.max.
  destruct (x <? lo)%float eqn:E1.
  - by rw Hhl Hll Hhl.
  - destruct (hi <? x)%float eqn:E2.
    + by rw Hhl Hhh.
    + by rw E1 E2.
Qed.

(** X14: clipping twice is clipping once, for [pclip] and for [hclip] and
    for every float, NaN and the infinities included. *)
Theorem clipping_is_idempotent x :
  pclip (pclip x) = pclip x ∧ hclip (hclip x) = hclip x.
Proof. split; by apply clip_idemp. Qed.

(** ** Rounding a positive number

    The sum of two positive floats, the conversion of a positive [int] and
    the square root of a positive float are positive: none of them is zero,
    so none of them stops a division. *)

Section Positivity.
Local Open Scope Z_scope.

Local Abbreviation fexp := (SpecFloat.fexp prec emax).
Local Abbreviation emin := (SpecFloat.emin prec emax).

Lemma shiftr_pos m n : 0 < m → 0 ≤ n → n ≤ Z.log2 m → 0 < Z.shiftr m n.
Proof.
  intros Hm Hn Hle.
  destruct (Z.eq_dec (Z.shiftr m n) 0) as [E|E].
  - apply Z.shiftr_eq_0_iff in E as [->|[_ Hlt]]; lia.
  - pose proof (proj2 (Z.shiftr_nonneg m n)). lia.
Qed.

(** Rounding keeps a positive mantissa positive. *)
Lemma shr_fexp_pos m e l :
  0 < m → emin ≤ e →
  0 < shr_m (shr_fexp prec emax m e l).1 ∧ emin ≤ (shr_fexp prec emax m e l).2.
Proof.
  intros Hm He. rw /shr_fexp /shr.
  pose proof (Zdigits2_log2 m Hm) as Hd.
  destruct (fexp (Zdigits2 m + e) - e) as [|n|n] eqn:En; simpl.
  - by rw shr_record_of_loc_m.
  - rw shr_m_iter shr_record_of_loc_m; [lia|]. split.
    + apply shiftr_pos; [done|lia|]. revert En. unfold_fexp. lia.
    + revert En. unfold_fexp. lia.
  - by rw shr_record_of_loc_m.
Qed.

Lemma binary_round_aux_pos s m e l :
  0 < m → emin ≤ e →
  (∃ m' e', binary_round_aux prec emax s m e l = S754_finite s m' e') ∨
  binary_round_aux prec emax s m e l = S754_infinity s.
Proof.
  intros Hm He. rw /binary_round_aux.
  destruct (shr_fexp_pos m e l Hm He) as [H1 He1].
  destruct (shr_fexp prec emax m e l) as [r1 e1]. simpl in H1, He1.
  pose proof (round_nearest_even_bounds (shr_m r1) (loc_of_shr_record r1))
    as Hrne.
  set (m1 := round_nearest_even (shr_m r1) (loc_of_shr_record r1)) in *.
  destruct (shr_fexp_pos m1 e1 loc_Exact ltac:(lia) He1) as [H2 He2].
  destruct (shr_fexp prec emax m1 e1 loc_Exact) as [r2 e2]. simpl in H2, He2.
  destruct (shr_m r2) as [|q|q]; [lia| |lia].
  destruct (e2 <=? emax - prec); eauto.
Qed.

Lemma shl_align_exponent m e e' : (shl_align m e e').2 = Z.min e e'.
Proof. rw /shl_align. destruct (e' - e) as [|d|d] eqn:Ed; simpl; lia. Qed.

Lemma binary_round_pos s q e :
  emin ≤ e →
  (∃ m' e', binary_round prec emax s q e = S754_finite s m' e') ∨
  binary_round prec emax s q e = S754_infinity s.
Proof.
  intros He. rw /binary_round.
  pose proof (shl_align_exponent q e (fexp (Zpos (digits2_pos q) + e))) as Hz.
  destruct (shl_align q e _) as [mz ez]. simpl in Hz.
  apply binary_round_aux_pos; [done|]. revert Hz. unfold_fexp. lia.
Qed.

End Positivity.

Section Conversions.
Local Open Scope Z_scope.

Local Abbreviation fexp := (SpecFloat.fexp prec emax).
Local Abbreviation emin := (SpecFloat.emin prec emax).

Lemma eqb_zero_infinity x s :
  Prim2SF x = S754_infinity s → (x =? 0)%float = false.
Proof.
  intros Hx. rw FloatAxioms.eqb_spec Hx.
  change (Prim2SF 0) with (S754_zero false). by destruct s.
Qed.

(** [1.0 + x] is not zero when [x] is not negative. *)
Lemma one_plus_nonneg x :
  (0 <=? x)%float = true → (1 + x =? 0)%float = false.
Proof.
  rw leb_spec. change (Prim2SF 0) with (S754_zero false). intros Hx.
  pose proof (add_spec 1 x) as Ha. rw /SF64add in Ha.
  change (Prim2SF 1) with (S754_finite false 4503599627370496 (-52)) in Ha.
  destruct (Prim2SF x) as [s|s| |s m e] eqn:Ex; try done.
  - by eapply eqb_zero_finite.
  - destruct s; [done|]. by eapply eqb_zero_infinity.
  - destruct s; [done|]. apply finite_valid in Ex as (_ & He & _).
    rw /SFadd /= in Ha.
    destruct (shl_align 4503599627370496 (-52) _) as [m1 e1].
    destruct (shl_align m e _) as [m2 e2]. simpl in Ha.
    destruct (binary_round_pos false (m1 + m2) (Z.min (-52) e))
      as [(m' & e' & Hr)|Hr].
    { revert He. unfold_fexp. lia. }
    + rw Hr in Ha. by eapply eqb_zero_finite.
    + rw Hr in Ha. by eapply eqb_zero_infinity.
Qed.

(** A positive [int] below [2 ** 63] converts to a positive float. *)
Lemma int_to_float_small n :
  (0 < n < 2 ^ 63)%N →
  ∃ x m e, int_to_float n = Ok x ∧ Prim2SF x = S754_finite false m e.
Proof.
  intros Hn. rw /int_to_float.
  assert (binary_normalize prec emax (Z.of_N n) 0 false =
          Prim2SF (of_uint63 (Uint63.of_Z (Z.of_N n)))) as Hsf.
  { rw of_uint63_spec Uint63.of_Z_spec Z.mod_small; [|done].
    change Uint63.wB with (2 ^ 63). lia. }
  destruct n as [|q]; [lia|].
  assert (mag_le (binary_normalize prec emax (Z.of_N (N.pos q)) 0 false)
            (Z.max 63 emin + 1)) as Hmag.
  { apply binary_normalize_mag; [|done].
    change (Z.of_N (N.pos q)) with (Z.pos q).
    rw Zdigits2_log2; [done|].
    assert (Z.log2 (Z.pos q) < 63); [|lia].
    apply Z.log2_lt_pow2; [done|]. lia. }
  destruct (binary_round_pos false q 0 ltac:(done)) as [(m' & e' & Hr)|Hr].
  - change (binary_normalize prec emax (Z.of_N (N.pos q)) 0 false)
      with (binary_round prec emax false q 0) in *.
    rw Hr. eexists _, m', e'. split; [done|].
    by rw -Hr Hsf SF2Prim_Prim2SF.
  - change (binary_normalize prec emax (Z.of_N (N.pos q)) 0 false)
      with (binary_round prec emax false q 0) in *.
    by rw Hr in Hmag.
Qed.

End Conversions.

Section SquareRoot.
Local Open Scope Z_scope.

Local Abbreviation fexp := (SpecFloat.fexp prec emax).
Local Abbreviation emin := (SpecFloat.emin prec emax).

(** The square root of a positive float is a positive float. *)
Lemma sqrt_finite_pos x m e :
  Prim2SF x = S754_finite false m e →
  ∃ m' e', Prim2SF (sqrt x) = S754_finite false m' e'.
Proof.
  intros Hx. rw sqrt_spec Hx /SF64sqrt /SFsqrt /SFsqrt_core_binary.
  apply finite_valid in Hx as (Hd & He & Hemax & _).
  change (Zdigits2 (Z.pos m)) with (Z.pos (digits2_pos m)).
  change IntDef.Z.div2 with Z.div2. change IntDef.Z.sqrtrem with Z.sqrtrem.
  rw !Z.div2_div.
  set (d := Z.pos (digits2_pos m)) in *.
  set (e' := Z.min (fexp ((d + e + 1) / 2)) (e / 2)).
  assert (1 ≤ d ≤ 53 ∧ -1074 ≤ e ≤ 971) as (Hd1 & He1)
    by (rw /d; revert Hd He Hemax; unfold_fexp; lia).
  assert (-1074 ≤ e' ∧ 105 - d ≤ e - 2 * e' ∧ 2 * e' ≤ d + e + 1 - 106)
    as (He' & Hs & Hs').
  { rw /e'. unfold_fexp. Z.div_mod_to_equations. lia. }
  cbv zeta.
  destruct (e - 2 * e') as [|s|s] eqn:Es; [lia| |lia].
  pose proof (Z.sqrtrem_spec (Z.shiftl (Z.pos m) (Z.pos s))) as Hspec.
  pose proof (Z.sqrtrem_sqrt (Z.shiftl (Z.pos m) (Z.pos s))) as Hq.
  assert (0 < Z.shiftl (Z.pos m) (Z.pos s)) as Hm'
    by (rw Z.shiftl_mul_pow2; [lia|]; apply Z.mul_pos_pos; [lia|];
        apply Z.pow_pos_nonneg; lia).
  assert (Z.log2 (Z.shiftl (Z.pos m) (Z.pos s)) = d - 1 + Z.pos s) as Hlog.
  { rw Z.log2_shiftl; [done..|]. rw /d digits2_pos_log2. lia. }
  destruct (Z.sqrtrem (Z.shiftl (Z.pos m) (Z.pos s))) as [q r].
  simpl in Hq. specialize (Hspec ltac:(lia)) as [Hsq Hr].
  assert (2 ^ 52 ≤ q) as Hq52.
  { rw Hq. change (2 ^ 52) with (Z.sqrt (2 ^ 104)).
    apply Z.sqrt_le_mono. apply Z.log2_le_pow2; lia. }
  assert (52 ≤ Z.log2 q) as Hl52 by (apply Z.log2_le_pow2; lia).
  assert (2 * Z.log2 q ≤ d - 1 + Z.pos s) as Hup.
  { pose proof (Z.log2_mul_below q q ltac:(lia) ltac:(lia)).
    pose proof (Z.log2_le_mono (q * q) (Z.shiftl (Z.pos m) (Z.pos s))
                  ltac:(lia)).
    lia. }
  set (l := if (r =? 0) then loc_Exact
            else loc_Inexact (if (r <=? q) then Lt else Gt)).
  assert (mag_le (binary_round_aux prec emax false q e' l)
            (Z.max 600 emin + 1)) as Hmag.
  { apply binary_round_aux_mag; [lia| | |done].
    - rw Zdigits2_log2; [lia|]. unfold_fexp. lia.
    - rw Zdigits2_log2; [lia|]. lia. }
  destruct (binary_round_aux_pos false q e' l ltac:(lia) He')
    as [(m' & e'' & Hr')|Hr'].
  - by eauto.
  - by rw Hr' in Hmag.
Qed.

Lemma math_sqrt_int_small c :
  (c < 2 ^ 63 - 1)%N →
  ∃ s m e, math_sqrt_int (1 + c) = Ok s ∧ Prim2SF s = S754_finite false m e.
Proof.
  intros Hc. rw /math_sqrt_int.
  destruct (int_to_float_small (1 + c)) as (x & m & e & -> & Hx); [lia|].
  destruct (sqrt_finite_pos x m e Hx) as (m' & e' & Hs).
  exists (sqrt x), m', e'. split; [|done].
  pose proof (finite_is_finite _ _ _ _ Hs) as Hfin.
  rw /is_finite in Hfin. apply negb_true_iff, orb_false_elim in Hfin as [Hn Hi].
  rw /math_1. change PrimFloat.sqrt with sqrt. by rw Hn Hi.
Qed.

End SquareRoot.

(** ** When [train_update] returns *)

Lemma ltb_small_positive x :
  (0.0001 <? x)%float = true → (0 <? x)%float = true.
Proof.
  rw !ltb_spec. change (Prim2SF 0) with (S754_zero false).
  assert (∃ m e, Prim2SF 0.0001 = S754_finite false m e) as (m & e & ->)
    by (eexists _, _; vm_compute; reflexivity).
  destruct (Prim2SF x) as [s|s| |s mx ex]; try done; by destruct s.
Qed.

Lemma math_log2_finite L x :
  (0 <? x)%float = true → is_finite x = true →
  is_finite (libm_log2 L x) = true →
  math_log2 L x = Ok (libm_log2 L x).
Proof.
  intros Hpos Hfin Hl. rw /math_log2 /math_1 /m_log2.
  rw /is_finite in Hfin Hl.
  apply negb_true_iff, orb_false_elim in Hfin as [Hn Hi].
  apply negb_true_iff, orb_false_elim in Hl as [Hln Hli].
  by rw Hn Hi Hpos Hln Hli.
Qed.

Lemma spec_rate_returns m ar c :
  (0 <=? ar)%float = true → (c < 2 ^ 63 - 1)%N →
  ∃ rate, spec_rate m ar c = Ok rate.
Proof.
  intros Har Hc. rw /spec_rate /mbind /result_bind /truediv.
  rw (one_plus_nonneg _ Har).
  destruct (math_sqrt_int_small c Hc) as (s & ms & es & -> & Hs).
  rw (eqb_zero_finite _ _ _ _ Hs). by eauto.
Qed.

Lemma spec_feature_update_returns L ar dlp dlh m k x sg2 :
  (0 <=? ar)%float = true →
  float_pow L (sigma m) 2 = Ok sg2 → (sg2 =? 0)%float = false →
  (count_of (fcounts m) k < 2 ^ 63 - 1)%N →
  ∃ m', spec_feature_update L ar dlp dlh m (k, x) = Ok m'.
Proof.
  intros Har Hsg Hnz Hc. rw /spec_feature_update /l2_term /mbind /result_bind.
  destruct (spec_rate_returns m ar _ Har Hc) as [rate ->].
  rw Hsg /truediv Hnz. by eauto.
Qed.

Lemma spec_updates_returns L ar dlp dlh features m sg2 :
  (0 <=? ar)%float = true →
  float_pow L (sigma m) 2 = Ok sg2 → (sg2 =? 0)%float = false →
  (∀ k, count_of (fcounts m) k + N.of_nat (length features) < 2 ^ 63)%N →
  ∃ m', spec_updates L ar dlp dlh features m = Ok m'.
Proof.
  intros Har. revert m.
  induction features as [|[k x] rest IH]; intros m Hsg Hnz Hc; simpl.
  - by eauto.
  - destruct (spec_feature_update_returns L ar dlp dlh m k x sg2 Har Hsg Hnz)
      as [m1 Hm1].
    { specialize (Hc k). simpl in Hc. lia. }
    rw Hm1 /=.
    pose proof (spec_feature_update_hypers _ _ _ _ _ _ _ _ Hm1) as Hh.
    apply IH.
    + injection Hh as _ _ _ _ ->. done.
    + done.
    + intros k'. rw (spec_feature_update_count _ _ _ _ _ _ _ _ k' Hm1).
      specialize (Hc k'). simpl in Hc. case_decide; lia.
Qed.

Lemma spec_coefficients_returns L dd ar ahl p h :
  (0 <=? ar)%float = true → (ar <=? 1)%float = true →
  (ahl = None → (0.0001 <? ar)%float = true → (0 <? dd)%float = true →
   is_finite (libm_log2 L ar) = true ∧ (libm_log2 L ar =? 0)%float = false) →
  is_infinity (libm_pow L LN2 2) = false →
  (h =? 0)%float = false →
  ∃ c, spec_coefficients L dd ar ahl p h = Ok c.
Proof.
  intros Ha0 Ha1 Hlog Hln Hh.
  rw /spec_coefficients /spec_target_half_life /mbind /result_bind.
  assert (float_pow L LN2 2 = Ok (libm_pow L LN2 2)) as Hpow.
  { change (float_pow L LN2 2) with
      (if is_infinity (libm_pow L LN2 2) then Raise OverflowError
       else Ok (libm_pow L LN2 2) : result float).
    by rw Hln. }
  assert (∀ t : float, ∃ c,
            match float_pow L LN2 2 with
            | Ok ln2sq =>
                match truediv dd h with
                | Ok d =>
                    Ok ((2.0 * (p - ar) * ln2sq * p * d)%float,
                        (2.0 * (h - t) * LN2 * h)%float)
                | Raise e => Raise e
                end
            | Raise e => Raise e
            end = Ok c) as Hrest.
  { intros t. rw Hpow /truediv Hh. by eauto. }
  destruct ahl as [a|]; [apply Hrest|].
  destruct (0.0001 <? ar)%float eqn:Hg1; [|apply Hrest].
  destruct (0 <? dd)%float eqn:Hg2; [|apply Hrest]. simpl.
  destruct (Hlog eq_refl eq_refl eq_refl) as [Hfin Hnz].
  rw math_log2_finite; [by apply ltb_small_positive| |done|].
  { eapply mag_le_finite. by apply unit_interval_mag. }
  rw /truediv Hnz. apply Hrest.
Qed.

(** X15: when [train_update] returns.  Assume that the prediction is made;
    that the recall lies in [[0, 1]]; that, where the half-life is estimated
    (none observed, a recall above [0.0001], a positive elapsed time), the C
    library's [log2] of the recall is finite and not zero; that [pow(LN2, 2)]
    does not overflow; that [sigma ** 2] evaluates to a float other than
    zero; and that every count stays below [2 ** 63].  Then [train_update]
    returns.  With these, the one way left for a call to fail is that of C3:
    a recall whose logarithm is zero. *)
Theorem train_update_returns_for_valid_input
    L features dd ar ahl m p h sg2 :
  fst (predict L features dd 2 m) = Ok (p, h) →
  (0 <=? ar)%float = true → (ar <=? 1)%float = true →
  (ahl = None → (0.0001 <? ar)%float = true → (0 <? dd)%float = true →
   is_finite (libm_log2 L ar) = true ∧ (libm_log2 L ar =? 0)%float = false) →
  is_infinity (libm_pow L LN2 2) = false →
  float_pow L (sigma m) 2 = Ok sg2 → (sg2 =? 0)%float = false →
  (∀ k, count_of (fcounts m) k + N.of_nat (length features) < 2 ^ 63)%N →
  ∃ m', train_update L features dd ar ahl m = (Ok tt, m').
Proof.
  intros Hpred Ha0 Ha1 Hlog Hln Hsg Hnz Hc.
  rw train_update_unfold. revert Hpred. rw predict_run /=.
  destruct (halflife_of_dot L 2 (dot_product L (weights m) features))
    as [h0|e0] eqn:Hh0; [|done].
  pose proof (halflife_of_dot_nonzero _ _ _ _ Hh0) as Hh.
  rw /= /recall_of_halflife /mbind /result_bind /truediv Hh.
  destruct (float_pow L 2 _) as [p0|e1]; [|done].
  intros [= <- <-].
  destruct (spec_coefficients_returns L dd ar ahl (pclip p0) h0
              Ha0 Ha1 Hlog Hln Hh) as [[dlp dlh] ->].
  set (m1 := set_weights (touch_all features (weights m)) m).
  destruct (spec_updates_returns L ar dlp dlh features m1 sg2 Ha0 Hsg Hnz Hc)
    as [m' Hm'].
  pose proof (for_each_train_step_run L ar dlp dlh features m1) as Hrun.
  rw Hm' in Hrun. by exists m'.
Qed.

(** The fresh model, one feature, one elapsed day and a recall of
    [0.25]. *)
Lemma train_update_returns_for_valid_input_witness :
  fst (predict ref_libm bias_vector 1 2 default_model) =
    Ok (0.5%float, 1%float) ∧
  (0 <=? 0.25)%float = true ∧ (0.25 <=? 1)%float = true ∧
  is_finite (libm_log2 ref_libm 0.25) = true ∧
  (libm_log2 ref_libm 0.25 =? 0)%float = false ∧
  is_infinity (libm_pow ref_libm LN2 2) = false ∧
  float_pow ref_libm (sigma default_model) 2 = Ok 1%float ∧
  (1 =? 0)%float = false ∧
  ∃ m', train_update ref_libm bias_vector 1 0.25 None default_model =
        (Ok tt, m').
Proof.
  split_and!; [vm_compute; reflexivity..|].
  apply (train_update_returns_for_valid_input ref_libm bias_vector 1 0.25
           None default_model 0.5 1 1);
    [vm_compute; reflexivity..| |vm_compute; reflexivity
    |vm_compute; reflexivity|vm_compute; reflexivity|].
  - intros _ _ _. split; vm_compute; reflexivity.
  - intros k. rw /default_model /count_of /= lookup_empty /=. lia.
Defined.

(** ** A failure inside the loop *)

Lemma train_step_zero_sigma L ar dlp dlh m k x rate :
  is_zero (sigma m) = true →
  spec_rate m ar (count_of (fcounts m) k) = Ok rate →
  train_step L ar dlp dlh (k, x) m =
  (Raise ZeroDivisionError,
   set_fcounts (touch 0%N (fcounts m) k)
     (set_weights
        (<[k := let w1 :=
                  (weight_of (weights m) k - recall_term rate dlp x)%float in
                if omit_h_term m then w1
                else (w1 - half_life_term m rate dlh x)%float]> (weights m))
        m)).
Proof.
  intros Hz. rw /spec_rate /train_step.
  rw /mbind /M_bind /result_bind /bind /lift /get_field.
  rw /recall_term /half_life_term /mret /M_ret /ret.
  destruct (truediv 1 _) as [a|e]; [|done].
  model_simpl.
  destruct (math_sqrt_int _) as [s|e]; [|done].
  intros ->.
  destruct (omit_h_term m) eqn:Homit; model_simpl;
    rw (float_pow_zero_squared L _ Hz) truediv_zero; try done;
    model_simpl; by rw ?Homit.
Qed.

(** X11: [train_update] is not atomic.  With [sigma] zero, when the
    coefficients and the rate of the first pair are computed, the call raises
    [ZeroDivisionError] in the L2 step of the first pair, and by then the
    weight of its name has lost the recall term and (unless omitted) the
    half-life term; the other weights and all the counts read as before. *)
Theorem zero_sigma_failure_keeps_first_update
    L k x rest dd ar ahl m dlp dlh rate :
  is_zero (sigma m) = true →
  train_coefficients L ((k, x) :: rest) dd ar ahl m = Ok (dlp, dlh) →
  spec_rate m ar (count_of (fcounts m) k) = Ok rate →
  let m' := snd (train_update L ((k, x) :: rest) dd ar ahl m) in
  fst (train_update L ((k, x) :: rest) dd ar ahl m) =
    Raise ZeroDivisionError ∧
  weight_of (weights m') k =
    (let w1 := (weight_of (weights m) k - recall_term rate dlp x)%float in
     if omit_h_term m then w1 else (w1 - half_life_term m rate dlh x)%float) ∧
  (∀ k', k' ≠ k → weight_of (weights m') k' = weight_of (weights m) k') ∧
  (∀ k', count_of (fcounts m') k' = count_of (fcounts m) k').
Proof.
  intros Hz Hc Hrate. simpl. revert Hc.
  rw /train_coefficients train_update_unfold predict_run.
  destruct (_ ≫= _) as [[p h]|e]; [|done].
  intros ->. set (m1 := set_weights _ m).
  rw /= /bind (train_step_zero_sigma L ar dlp dlh m1 k x rate); [done| |].
  { exact Hrate. }
  simpl.
  change (touch_all rest (touch 0%float (weights m) k))
    with (touch_all ((k, x) :: rest) (weights m)).
  split_and!; [done| | |].
  - by rw weight_of_insert weight_of_touch_all.
  - intros k' Hne. rw weight_of_insert_any decide_False; [done|].
    by rw weight_of_touch_all.
  - intros k'. by rw count_of_touch.
Qed.

(** One update of the model with [sigma = 0.0]. *)
Lemma zero_sigma_failure_keeps_first_update_witness :
  let m' := snd (train_update ref_libm bias_vector 1 0.25 None
                   zero_sigma_model) in
  ∃ dlp dlh rate,
    is_zero (sigma zero_sigma_model) = true ∧
    train_coefficients ref_libm bias_vector 1 0.25 None zero_sigma_model =
      Ok (dlp, dlh) ∧
    spec_rate zero_sigma_model 0.25 (count_of (fcounts zero_sigma_model) "bias")
      = Ok rate ∧
    fst (train_update ref_libm bias_vector 1 0.25 None zero_sigma_model) =
      Raise ZeroDivisionError ∧
    weight_of (weights m') "bias" =
      (0 - recall_term rate dlp 1 -
       half_life_term zero_sigma_model rate dlh 1)%float.
Proof.
  simpl. eexists _, _, _.
  split; [reflexivity|]. split; [vm_compute; reflexivity|].
  split; [vm_compute; reflexivity|].
  destruct (zero_sigma_failure_keeps_first_update ref_libm "bias" 1 [] 1 0.25
              None zero_sigma_model _ _ _ eq_refl eq_refl eq_refl)
    as (Hraise & Hw & _).
  split; [exact Hraise|exact Hw].
Defined.

(** ** The request handlers *)

Lemma get_model_spec settings g :
  App._model (snd (App.get_model settings g)) =
    Some (fst (App.get_model settings g)) ∧
  App.logger (snd (App.get_model settings g)) = App.logger g ∧
  match App._model g with
  | Some m => fst (App.get_model settings g) = m
  | None =>
      fst (App.get_model settings g) =
      HLRModel_init None (App.hlr_omit_h_term settings)
        (App.hlr_learning_rate settings) (App.hlr_hl_weight settings)
        (App.hlr_l2_weight settings) (App.hlr_sigma settings)
  end.
Proof. rw /App.get_model. by destruct (App._model g) eqn:E. Qed.

Lemma get_model_some settings g m :
  App._model g = Some m → App.get_model settings g = (m, g).
Proof. rw /App.get_model. by intros ->. Qed.

(** One request: the model stays, with its hyperparameters, and no count
    goes down. *)
Lemma app_step L settings rq g m :
  App._model g = Some m →
  ∃ m', App._model (snd (App.app L settings rq g)) = Some m' ∧
        hypers m' = hypers m ∧
        ∀ k, (count_of (fcounts m) k ≤ count_of (fcounts m') k)%N.
Proof.
  intros Hm. destruct rq as [|request|request| |w]; simpl.
  - exists m. by rw /App.respond /=.
  - rw /App.respond /App.predict_half_life (get_model_some _ _ _ Hm).
    pose proof (within_predict L
                  (App.feature_pairs (App.PredictRequest.features request))
                  (App.PredictRequest.delta_days request) 2 m)
      as (Hh & _ & _ & _ & Hc).
    destruct (predict L _ _ 2 m) as [[[p h]|e] m1]; simpl in *.
    + exists m1. by destruct (App.PredictResponse.valid p h).
    + by exists m1.
  - rw /App.respond /App.train_update (get_model_some _ _ _ Hm).
    pose proof (within_train_update L
                  (App.feature_pairs (App.TrainRequest.features request))
                  (App.TrainRequest.delta_days request)
                  (App.TrainRequest.actual_recall request)
                  (App.TrainRequest.actual_half_life request) m)
      as (Hh & _ & _ & _ & Hc).
    destruct (train_update L _ _ _ _ m) as [[[]|e] m1]; simpl in *.
    + pose proof (within_predict L
                  (App.feature_pairs (App.TrainRequest.features request))
                  (App.TrainRequest.delta_days request) 2 m1)
        as (Hh' & _ & _ & _ & Hc').
      destruct (predict L _ _ 2 m1) as [[[p h]|e] m2]; simpl in *;
        exists m2; (split_and!; [done|by rw Hh'|]);
        intros k; (etrans; [apply Hc|apply Hc']).
    + by exists m1.
  - exists m. by rw /App.respond /App.get_weights (get_model_some _ _ _ Hm).
  - rw /App.respond /App.load_weights (get_model_some _ _ _ Hm) /=.
    by eexists.
Qed.

Lemma serve_steps L settings rqs g m :
  App._model g = Some m →
  ∃ m', App._model (App.serve L settings rqs g) = Some m' ∧
        hypers m' = hypers m ∧
        ∀ k, (count_of (fcounts m) k ≤ count_of (fcounts m') k)%N.
Proof.
  revert g m. induction rqs as [|rq rqs IH]; intros g m Hm.
  - by exists m.
  - destruct (app_step L settings rq g m Hm) as (m1 & Hm1 & Hh1 & Hc1).
    destruct (IH _ _ Hm1) as (m2 & Hm2 & Hh2 & Hc2).
    exists m2. split_and!; [done|by rw Hh2|].
    intros k. etrans; [apply Hc1|apply Hc2].
Qed.

(** X16: whatever requests are served after the start-up, in whatever
    order and with whatever outcome, the global model exists, its
    hyperparameters are those of the settings, and between two points in
    time no count has decreased.  In particular [PUT /weights] resets no
    count. *)
Theorem service_keeps_configuration_and_counts L settings rqs1 rqs2 :
  let g1 :=
    App.serve L settings rqs1
      (App.lifespan_startup settings App.initial_globals) in
  let g2 := App.serve L settings rqs2 g1 in
  ∃ m1 m2,
    App._model g1 = Some m1 ∧ App._model g2 = Some m2 ∧
    hypers m1 = configured_hypers settings ∧
    hypers m2 = configured_hypers settings ∧
    ∀ k, (count_of (fcounts m1) k ≤ count_of (fcounts m2) k)%N.
Proof.
  simpl.
  destruct (serve_steps L settings rqs1
              (App.lifespan_startup settings App.initial_globals) _ eq_refl)
    as (m1 & Hm1 & Hh1 & _).
  destruct (serve_steps L settings rqs2 _ _ Hm1) as (m2 & Hm2 & Hh2 & Hc2).
  exists m1, m2. split_and!; [done|done|done| |done].
  by rw Hh2.
Qed.

(** X17: [PUT /weights] answers with the number of weights it was given,
    written in decimal, and a [GET /weights] that follows it returns exactly
    the mapping that was put, together with the counts from before the
    [PUT], and changes nothing. *)
Theorem put_then_get_weights settings w g :
  let g1 := snd (App.load_weights settings w g) in
  fst (App.load_weights settings w g) =
    App.Return {[ "status" := "weights loaded";
                  "count" := pretty (size w) ]} ∧
  fst (App.get_weights settings g1) =
    App.Return
      {| App.WeightsResponse.weights := w;
         App.WeightsResponse.feature_counts :=
           fcounts (fst (App.get_model settings g)) |} ∧
  snd (App.get_weights settings g1) = g1.
Proof.
  rw /App.load_weights /App.get_weights.
  destruct (App.get_model settings g) as [model g0]. simpl.
  by rw /get_weights /load_weights /= (right_id_L ∅ (∪)).
Qed.

(** X18: the [/train] handler.  When the update returns, the handler's
    answer is the prediction of the updated model, and the model it leaves
    is the updated one: the post-update prediction changes nothing.  When
    the update raises, the handler raises the same exception, makes no call
    on the logger and leaves the model the update left. *)
Theorem train_endpoint_reports_the_updated_model L settings request g :
  let model := fst (App.get_model settings g) in
  let features := App.feature_pairs (App.TrainRequest.features request) in
  let delta_days := App.TrainRequest.delta_days request in
  match train_update L features delta_days
          (App.TrainRequest.actual_recall request)
          (App.TrainRequest.actual_half_life request) model with
  | (Ok _, m') =>
      App._model (snd (App.train_update L settings request g)) = Some m' ∧
      fst (App.train_update L settings request g) =
        match fst (predict L features delta_days 2 m') with
        | Ok (p, h) =>
            App.Return {| App.TrainResponse.updated := true;
                          App.TrainResponse.recall_probability := p;
                          App.TrainResponse.half_life_days := h |}
        | Raise e => App.Raises e
        end
  | (Raise e, m') =>
      fst (App.train_update L settings request g) = App.Raises e ∧
      App._model (snd (App.train_update L settings request g)) = Some m' ∧
      App.logger (snd (App.train_update L settings request g)) = App.logger g
  end.
Proof.
  simpl. rw /App.train_update.
  pose proof (get_model_spec settings g) as (_ & Hlog & _).
  destruct (App.get_model settings g) as [model g0]. simpl in *.
  destruct (train_update L _ _ _ _ model) as [[[]|e] m'] eqn:Hrun; [|done].
  pose proof (predict_after_train_update _ _ _ _ _ _ _
                (App.TrainRequest.delta_days request) 2 Hrun) as Hsame.
  destruct (predict L _ _ 2 m') as [[[p h]|e] m2]; simpl in *; by subst m2.
Qed.

Lemma predict_half_life_fst L settings request g :
  fst (App.predict_half_life L settings request g) =
  match fst (predict L (App.feature_pairs (App.PredictRequest.features request))
               (App.PredictRequest.delta_days request) 2
               (fst (App.get_model settings g))) with
  | Ok (p, h) =>
      if App.PredictResponse.valid p h then
        App.Return {| App.PredictResponse.recall_probability := p;
                      App.PredictResponse.half_life_days := h |}
      else App.RaisesValidationError
  | Raise e => App.Raises e
  end.
Proof.
  rw /App.predict_half_life. destruct (App.get_model settings g) as [model g0].
  simpl. destruct (predict L _ _ 2 model) as [[[p h]|e] m1]; [|done].
  simpl. by destruct (App.PredictResponse.valid p h).
Qed.

Lemma predict_half_life_model L settings request g :
  App._model (snd (App.predict_half_life L settings request g)) =
  Some (snd (predict L (App.feature_pairs (App.PredictRequest.features request))
               (App.PredictRequest.delta_days request) 2
               (fst (App.get_model settings g)))).
Proof.
  rw /App.predict_half_life. destruct (App.get_model settings g) as [model g0].
  simpl. destruct (predict L _ _ 2 model) as [[[p h]|e] m1]; [|done].
  simpl. by destruct (App.PredictResponse.valid p h).
Qed.

(** *** Requests after a prediction *)

Lemma respects_defaults_ret {A} (a : A) : respects_defaults (ret a).
Proof. by intros m m' H. Qed.

Lemma respects_defaults_lift {A} (r : result A) : respects_defaults (lift r).
Proof. by intros m m' H. Qed.

Lemma respects_defaults_bind {A B} (c : M HLRModel A) (k : A → M HLRModel B) :
  respects_defaults c → (∀ a, respects_defaults (k a)) →
  respects_defaults (bind c k).
Proof.
  intros Hc Hk m m' H. rw /bind. destruct (Hc m m' H) as [Hr Hs].
  destruct (c m) as [[a|e] m1], (c m') as [[a'|e'] m1']; simpl in *; try done.
  - injection Hr as <-. by apply Hk.
  - by injection Hr as <-.
Qed.

Lemma respects_defaults_mbind {A B} (c : M HLRModel A)
    (k : A → M HLRModel B) :
  respects_defaults c → (∀ a, respects_defaults (k a)) →
  respects_defaults (c ≫= k).
Proof. apply respects_defaults_bind. Qed.

Lemma respects_defaults_for_each {A} (l : list A) (body : A → M HLRModel unit) :
  (∀ a, respects_defaults (body a)) → respects_defaults (for_each l body).
Proof.
  intros Hb. induction l as [|a l IH]; simpl.
  - apply respects_defaults_ret.
  - by apply respects_defaults_bind.
Qed.

Lemma respects_defaults_try_except {A} (body : M HLRModel A) handled handler :
  respects_defaults body → respects_defaults handler →
  respects_defaults (try_except body handled handler).
Proof.
  intros Hb Hh m m' H. rw /try_except. destruct (Hb m m' H) as [Hr Hs].
  destruct (body m) as [[a|e] m1], (body m') as [[a'|e'] m1']; simpl in *;
    try done.
  injection Hr as <-. destruct (handled e); [by apply Hh|done].
Qed.

Lemma respects_defaults_get_field {A} (f : HLRModel → A) :
  (∀ m m', hypers m = hypers m' → f m = f m') →
  respects_defaults (get_field f).
Proof.
  intros Hf m m' H. split; [|done]. rw /get_field /=. f_equal. apply Hf, H.
Qed.

Lemma respects_defaults_weights_getitem k :
  respects_defaults (weights_getitem k).
Proof.
  intros m m' (Hh & Hw & Hc). rw !weights_getitem_run /=.
  split; [by rw Hw|]. split_and!; [done| |done].
  intros k'. by rw /= !weight_of_touch.
Qed.

Lemma respects_defaults_fcounts_getitem k :
  respects_defaults (fcounts_getitem k).
Proof.
  intros m m' (Hh & Hw & Hc). rw !fcounts_getitem_run /= Hc.
  by split_and!.
Qed.

Lemma respects_defaults_weights_setitem k v :
  respects_defaults (weights_setitem k v).
Proof.
  intros m m' (Hh & Hw & Hc). split; [done|]. split_and!; [done| |done].
  intros k'. by rw /= !weight_of_insert_any Hw.
Qed.

Lemma respects_defaults_fcounts_setitem k v :
  respects_defaults (fcounts_setitem k v).
Proof.
  intros m m' (Hh & Hw & Hc). split; [done|]. split_and!; [done|done|].
  by rw /= Hc.
Qed.

Lemma respects_defaults_read_products features :
  respects_defaults (read_products features).
Proof.
  induction features as [|[k x] rest IH]; simpl.
  - apply respects_defaults_ret.
  - apply respects_defaults_mbind; [apply respects_defaults_weights_getitem|].
    intros w. apply respects_defaults_mbind; [apply IH|]. intros ps.
    apply respects_defaults_ret.
Qed.

Lemma respects_defaults_sum_products L features :
  respects_defaults (sum_products L features).
Proof.
  apply respects_defaults_mbind; [apply respects_defaults_read_products|].
  intros ps. apply respects_defaults_ret.
Qed.

Ltac respects_defaults_tac :=
  repeat first
    [ apply respects_defaults_sum_products
    | apply respects_defaults_mbind; [|intros ?]
    | apply respects_defaults_bind; [|intros ?]
    | apply respects_defaults_ret
    | apply respects_defaults_lift
    | apply respects_defaults_weights_getitem
    | apply respects_defaults_weights_setitem
    | apply respects_defaults_fcounts_getitem
    | apply respects_defaults_fcounts_setitem
    | apply respects_defaults_get_field; by intros ? ? [= ]
    | apply respects_defaults_try_except
    | match goal with
      | |- respects_defaults (if ?b then _ else _) => destruct b
      end
    | match goal with
      | |- respects_defaults (match ?b with _ => _ end) => destruct b
      end ].

Lemma respects_defaults_predict L features dd base :
  respects_defaults (predict L features dd base).
Proof.
  rw /predict /halflife. respects_defaults_tac.
Qed.

Lemma respects_defaults_train_update L features dd ar ahl :
  respects_defaults (train_update L features dd ar ahl).
Proof.
  rw /train_update.
  apply respects_defaults_mbind; [apply respects_defaults_predict|].
  intros [p h]. respects_defaults_tac. apply respects_defaults_for_each.
  intros [k x]. rw /train_step. respects_defaults_tac.
Qed.

Lemma predict_same_but_defaults L features dd base m :
  same_but_defaults (snd (predict L features dd base m)) m.
Proof.
  rw predict_run /=. split_and!; try done.
  intros k. by rw /= weight_of_touch_all.
Qed.

Lemma load_weights_same_but_defaults w m m' :
  same_but_defaults m m' →
  same_but_defaults (load_weights w m) (load_weights w m').
Proof. intros (Hh & Hw & Hc). by split_and!. Qed.

(** One request served by two services whose models differ in default
    entries only. *)
Lemma app_same_but_defaults L settings rq g g' :
  same_but_defaults (fst (App.get_model settings g))
    (fst (App.get_model settings g')) →
  same_answer (fst (App.app L settings rq g)) (fst (App.app L settings rq g')) ∧
  same_but_defaults
    (fst (App.get_model settings (snd (App.app L settings rq g))))
    (fst (App.get_model settings (snd (App.app L settings rq g')))).
Proof.
  intros H. destruct rq as [|request|request| |w];
    rw /= /App.respond.
  - done.
  - rw /App.predict_half_life.
    destruct (App.get_model settings g) as [m g0],
      (App.get_model settings g') as [m' g0']. simpl in H.
    destruct (respects_defaults_predict L
                (App.feature_pairs (App.PredictRequest.features request))
                (App.PredictRequest.delta_days request) 2 _ _ H) as [Hr Hs].
    destruct (predict L _ _ 2 m) as [[[p h]|e] m1],
      (predict L _ _ 2 m') as [[[p' h']|e'] m1']; simpl in Hr, Hs; try done.
    + injection Hr as <- <-.
      by destruct (App.PredictResponse.valid p h).
    + by injection Hr as <-.
  - rw /App.train_update.
    destruct (App.get_model settings g) as [m g0],
      (App.get_model settings g') as [m' g0']. simpl in H.
    destruct (respects_defaults_train_update L
                (App.feature_pairs (App.TrainRequest.features request))
                (App.TrainRequest.delta_days request)
                (App.TrainRequest.actual_recall request)
                (App.TrainRequest.actual_half_life request) _ _ H)
      as [Hr Hs].
    destruct (train_update L _ _ _ _ m) as [[[]|e] m1],
      (train_update L _ _ _ _ m') as [[[]|e'] m1']; simpl in Hr, Hs; try done.
    + destruct (respects_defaults_predict L
                (App.feature_pairs (App.TrainRequest.features request))
                (App.TrainRequest.delta_days request) 2 _ _ Hs) as [Hr2 Hs2].
      destruct (predict L _ _ 2 m1) as [[[p h]|e] m2],
        (predict L _ _ 2 m1') as [[[p' h']|e'] m2']; simpl in Hr2, Hs2;
        try done.
      * by injection Hr2 as <- <-.
      * by injection Hr2 as <-.
    + by injection Hr as <-.
  - rw /App.get_weights.
    pose proof (get_model_spec settings g) as (Hg & _).
    pose proof (get_model_spec settings g') as (Hg' & _).
    destruct (App.get_model settings g) as [m g0],
      (App.get_model settings g') as [m' g0']. simpl in *.
    rw (get_model_some _ _ _ Hg) (get_model_some _ _ _ Hg') /=.
    destruct H as (Hh & Hw & Hc). by split_and!.
  - rw /App.load_weights.
    destruct (App.get_model settings g) as [m g0],
      (App.get_model settings g') as [m' g0']. simpl in *.
    split; [done|]. by apply load_weights_same_but_defaults.
Qed.

Lemma answers_same_but_defaults L settings rqs g g' :
  same_but_defaults (fst (App.get_model settings g))
    (fst (App.get_model settings g')) →
  Forall2 same_answer (App.answers L settings rqs g)
    (App.answers L settings rqs g').
Proof.
  revert g g'. induction rqs as [|rq rqs IH]; intros g g' H; [constructor|].
  destruct (app_same_but_defaults L settings rq g g' H) as [Ha Hs].
  simpl. destruct (App.app L settings rq g) as [a g1],
    (App.app L settings rq g') as [a' g1']. constructor; [done|].
  by apply IH.
Qed.

Lemma serve_same_but_defaults L settings rqs g g' :
  same_but_defaults (fst (App.get_model settings g))
    (fst (App.get_model settings g')) →
  same_but_defaults
    (fst (App.get_model settings (App.serve L settings rqs g)))
    (fst (App.get_model settings (App.serve L settings rqs g'))).
Proof.
  revert g g'. induction rqs as [|rq rqs IH]; intros g g' H; [done|].
  apply IH. by apply app_same_but_defaults.
Qed.

(** X19: a [/predict] request changes no answer of the service, however
    many requests follow it.  Served after it, every sequence of requests
    gets, request by request, the answers it would have got without it;
    the one difference a client can see is that [GET /weights] lists the
    names the prediction has entered with the weight [0.0], with all its
    counts the same and every weight reading the same.  The model the
    sequence leaves differs in such entries only. *)
Theorem predict_request_changes_no_later_answer L settings request rqs g :
  let g1 := snd (App.predict_half_life L settings request g) in
  Forall2 same_answer (App.answers L settings rqs g1)
    (App.answers L settings rqs g) ∧
  same_but_defaults
    (fst (App.get_model settings (App.serve L settings rqs g1)))
    (fst (App.get_model settings (App.serve L settings rqs g))).
Proof.
  simpl.
  assert (same_but_defaults
            (fst (App.get_model settings
                    (snd (App.predict_half_life L settings request g))))
            (fst (App.get_model settings g))) as H.
  { rw (get_model_some _ _ _ (predict_half_life_model L settings request g)).
    apply predict_same_but_defaults. }
  split; [by apply answers_same_but_defaults|].
  by apply serve_same_but_defaults.
Qed.

(** *** The bounds of the clipping and the bounds of the response *)

Lemma leb_small_nonneg lo x :
  (0 <? lo)%float = true → (lo <=? x)%float = true → (0 <=? x)%float = true.
Proof.
  rw ltb_spec !leb_spec. change (Prim2SF 0) with (S754_zero false).
  destruct (Prim2SF lo) as [s|s| |s m e]; try done;
    destruct (Prim2SF x) as [sx|sx| |sx mx ex]; try done;
    by destruct s, sx.
Qed.

Lemma leb_recall_bound x :
  (0.0001 <=? x)%float = true → (x <=? 0.9999)%float = true →
  (x <=? 1)%float = true.
Proof.
  rw !leb_spec.
  assert (∃ m e, Prim2SF 0.0001 = S754_finite false m e) as (m0 & e0 & ->)
    by (eexists _, _; vm_compute; reflexivity).
  assert (∃ m, Prim2SF 0.9999 = S754_finite false m (-53)) as (m1 & ->)
    by (eexists; vm_compute; reflexivity).
  change (Prim2SF 1) with (S754_finite false 4503599627370496 (-52)).
  rw /SFleb /SFcompare.
  destruct (Prim2SF x) as [s|s| |s m e]; try done.
  destruct s; [done|]. intros _.
  destruct (Z.compare_spec e (-53)) as [He|He|He]; [| |done]; intros _.
  - by subst e.
  - destruct (Z.compare_spec e (-52)) as [?|?|?]; [lia|done|lia].
Qed.

(** What [predict] returns is clipped. *)
Lemma predict_components L features dd base m p h :
  fst (predict L features dd base m) = Ok (p, h) →
  (h = MAX_HALF_LIFE ∨ ∃ r, h = hclip r) ∧ ∃ p0, p = pclip p0.
Proof.
  rw predict_run /= /mbind /result_bind /halflife_of_dot /recall_of_halflife.
  rw /mbind /result_bind.
  destruct (float_pow L base _) as [r|e].
  - destruct (truediv _ (hclip r)) as [q|e]; [|done].
    destruct (float_pow L 2 q) as [p0|e]; [|done].
    intros [= <- <-]. by eauto.
  - destruct (handled_by_halflife e); [|done].
    destruct (truediv _ MAX_HALF_LIFE) as [q|e']; [|done].
    destruct (float_pow L 2 q) as [p0|e']; [|done].
    intros [= <- <-]. by eauto.
Qed.

(** X20: the bounds of the clipping lie within the bounds declared for
    [PredictResponse].  When the prediction the [/predict] handler makes has
    no NaN in it, the response object is made ([0 <= recall <= 1] and
    [0 <= half_life] hold) and the handler returns it with the recall and
    the half-life of the prediction. *)
Theorem clipped_prediction_passes_response_bounds
    L settings request g p h :
  fst (predict L (App.feature_pairs (App.PredictRequest.features request))
         (App.PredictRequest.delta_days request) 2
         (fst (App.get_model settings g))) = Ok (p, h) →
  is_nan p = false → is_nan h = false →
  App.PredictResponse.valid p h = true ∧
  fst (App.predict_half_life L settings request g) =
    App.Return {| App.PredictResponse.recall_probability := p;
                  App.PredictResponse.half_life_days := h |}.
Proof.
  intros Hpred Hp Hh.
  destruct (predict_components _ _ _ _ _ _ _ Hpred) as [Hhc [p0 ->]].
  assert (App.PredictResponse.valid (pclip p0) h = true) as Hv.
  { rw /App.PredictResponse.valid.
    destruct (clip_in_range 0.0001 0.9999 p0 ltac:(by vm_compute)
                ltac:(by eapply clip_nan)) as [Hlo Hhi].
    fold (pclip p0) in Hlo, Hhi.
    rw (leb_small_nonneg 0.0001 _ ltac:(by vm_compute) Hlo).
    rw (leb_recall_bound _ Hlo Hhi) /=.
    destruct Hhc as [->|[r ->]]; [by vm_compute|].
    destruct (clip_in_range MIN_HALF_LIFE MAX_HALF_LIFE r ltac:(by vm_compute)
                ltac:(by eapply clip_nan)) as [Hlo' _].
    fold (hclip r) in Hlo'.
    by apply (leb_small_nonneg MIN_HALF_LIFE); [vm_compute|]. }
  split; [done|]. by rw predict_half_life_fst Hpred Hv.
Qed.

(** The first request to a service with the default settings. *)
Lemma clipped_prediction_passes_response_bounds_witness :
  fst (predict ref_libm
         (App.feature_pairs (App.PredictRequest.features bias_request))
         (App.PredictRequest.delta_days bias_request) 2
         (fst (App.get_model App.default_settings App.initial_globals))) =
    Ok (0.5%float, 1%float) ∧
  is_nan 0.5 = false ∧ is_nan 1 = false ∧
  App.PredictResponse.valid 0.5 1 = true ∧
  fst (App.predict_half_life ref_libm App.default_settings bias_request
         App.initial_globals) =
    App.Return {| App.PredictResponse.recall_probability := 0.5%float;
                  App.PredictResponse.half_life_days := 1%float |}.
Proof.
  assert (fst (predict ref_libm
                 (App.feature_pairs (App.PredictRequest.features bias_request))
                 (App.PredictRequest.delta_days bias_request) 2
                 (fst (App.get_model App.default_settings
                         App.initial_globals))) =
          Ok (0.5%float, 1%float)) as H by (vm_compute; reflexivity).
  split; [exact H|]. split; [reflexivity|]. split; [reflexivity|].
  exact (clipped_prediction_passes_response_bounds ref_libm
           App.default_settings bias_request App.initial_globals 0.5 1
           H eq_refl eq_refl).
Defined.

(** *** The ends of the scales *)

Lemma is_infinity_cases x :
  is_infinity x = true → x = infinity ∨ x = neg_infinity.
Proof.
  rw /is_infinity FloatAxioms.eqb_spec abs_spec.
  change (Prim2SF infinity) with (S754_infinity false).
  destruct (Prim2SF x) as [s|s| |s m e] eqn:Hx; try done; try by destruct s.
  intros _. destruct s; [right|left]; by apply Prim2SF_inj.
Qed.

(** A half-life that is not NaN is a positive float. *)
Lemma halflife_of_dot_positive L base dp h :
  halflife_of_dot L base dp = Ok h → is_nan h = false →
  ∃ m e, Prim2SF h = S754_finite false m e.
Proof.
  intros Hh Hnan.
  destruct (halflife_of_dot_finite _ _ _ _ Hh Hnan) as (s & m & e & E).
  exists m, e. rw E. f_equal.
  assert ((MIN_HALF_LIFE <=? h)%float = true) as Hle.
  { revert Hh. rw /halflife_of_dot.
    destruct (float_pow L base dp) as [r|e'].
    - intros [= <-].
      by apply clip_in_range; [vm_compute|eapply clip_nan].
    - destruct (handled_by_halflife e'); [|done]. intros [= <-].
      by vm_compute. }
  revert Hle. rw leb_spec E.
  assert (∃ m0 e0, Prim2SF MIN_HALF_LIFE = S754_finite false m0 e0)
    as (m0 & e0 & ->) by (eexists _, _; vm_compute; reflexivity).
  by destruct s.
Qed.

(** X21: when [predict] returns a half-life that is not NaN, the recall is
    exactly [0.9999] for an elapsed time of zero and exactly [0.0001] for an
    infinite one, for every model, feature vector, base and C library. *)
Theorem recall_at_the_ends_of_time L features delta_days base m p h :
  fst (predict L features delta_days base m) = Ok (p, h) →
  is_nan h = false →
  (is_zero delta_days = true → p = 0.9999%float) ∧
  (delta_days = infinity → p = 0.0001%float).
Proof.
  rw predict_run /= /mbind /result_bind.
  destruct (halflife_of_dot L base _) as [h0|e0] eqn:Hh0; [|done].
  rw /recall_of_halflife /mbind /result_bind /truediv.
  rw (halflife_of_dot_nonzero _ _ _ _ Hh0).
  destruct (float_pow L 2 (- delta_days / h0)) as [p0|e1] eqn:Hp0; [|done].
  intros [= <- <-] Hnan.
  destruct (halflife_of_dot_positive _ _ _ _ Hh0 Hnan) as (mh & e & Hh).
  split.
  - intros Hdd.
    assert (is_zero (- delta_days / h0) = true) as Hq
      by (eapply div_zero_finite; [by apply opp_zero|done]).
    rw (float_pow_zero_exponent L 2 _ Hq) in Hp0. by injection Hp0 as <-.
  - intros ->.
    assert ((- infinity / h0)%float = neg_infinity) as Hq.
    { apply Prim2SF_inj. by rw div_spec Hh. }
    rw Hq in Hp0. by injection Hp0 as <-.
Qed.

(** An infinite elapsed time on the fresh model. *)
Lemma recall_at_the_ends_of_time_witness :
  fst (predict ref_libm bias_vector infinity 2 default_model) =
    Ok (0.0001%float, 1%float) ∧
  is_nan 1 = false ∧
  (is_zero infinity = true → 0.0001%float = 0.9999%float) ∧
  (infinity = infinity → 0.0001%float = 0.0001%float).
Proof.
  assert (fst (predict ref_libm bias_vector infinity 2 default_model) =
          Ok (0.0001%float, 1%float)) as H by (vm_compute; reflexivity).
  split; [exact H|]. split; [reflexivity|].
  exact (recall_at_the_ends_of_time _ _ _ _ _ _ _ H eq_refl).
Defined.

(** When the sum from left to right is an infinity, the compensated sum is
    the same infinity. *)
Lemma dot_product_infinite L w features :
  is_infinity (dot w features 0) = true →
  dot_product L w features = dot w features 0.
Proof.
  intros H. rw /dot_product builtin_sum_not_finite fold_left_add_dot //.
  rw /is_finite H. by rw orb_true_r.
Qed.

(** X22: when the dot product overflows to an infinity, the half-life in
    base two is the bound on that side: [MAX_HALF_LIFE] for [+inf] and
    [MIN_HALF_LIFE] for [-inf].  The hypothesis is on the sum from left to
    right; the compensated sum is then the same infinity, and the
    conclusion holds under both. *)
Theorem infinite_dot_product_saturates L features m :
  is_infinity (dot (weights m) features 0) = true →
  fst (halflife L features 2 m) =
    Ok (if (0 <? dot (weights m) features 0)%float then MAX_HALF_LIFE
        else MIN_HALF_LIFE).
Proof.
  intros H. rw halflife_run /= (dot_product_infinite L _ _ H).
  by destruct (is_infinity_cases _ H) as [-> | ->].
Qed.

(** The sum [1e308 + 1e308 - 1e308 - 1e308] is [+inf]. *)
Lemma infinite_dot_product_saturates_witness :
  is_infinity (dot (weights unit_weight_model) overflowing_vector 0) = true ∧
  fst (halflife ref_libm overflowing_vector 2 unit_weight_model) =
    Ok MAX_HALF_LIFE.
Proof.
  split; [vm_compute; reflexivity|].
  exact (infinite_dot_product_saturates ref_libm overflowing_vector
           unit_weight_model eq_refl).
Defined.

(** The models and vectors of the examples of this part have the same dot
    product under the compensated [sum]. *)
Lemma further_examples_do_not_depend_on_compensation :
  Forall (fun '(m, features) =>
            dot (weights m) features 0 = dot_compensated (weights m) features)
    [(negative_weight_model, bias_vector); (zero_weight_model, bias_vector);
     (zero_sigma_model, bias_vector); (omitting_model, bias_vector);
     (half_weight_model, bias_vector); (fractional_weight_model, bias_vector)].
Proof. repeat constructor; vm_compute; reflexivity. Qed.
